(** * ST2022 word prediction: the proto-gap merge, the sound alphabet,
      the CorPaR classifier and the baseline orchestrator

    A shallow embedding of [sigtypst2022.py].  Python lists are Rocq lists,
    Python [int]s are [Z], insertion-ordered [dict]s are association lists
    whose order is the insertion order, and a raised [IndexError] or
    [KeyError] is [None].  *)

From Stdlib Require Import String Ascii ZArith Lia Bool Arith Permutation Sorted.
From Stdlib Require Import List.
Import ListNotations.
Local Open Scope string_scope.
Local Open Scope list_scope.

(* ================================================================= *)
(** * Part I: the embedding *)
(* ================================================================= *)

(** ** Python helpers *)

(** A raised exception aborts the computation. *)
Definition obind {A B : Type} (o : option A) (f : A -> option B) : option B :=
  match o with
  | Some a => f a
  | None => None
  end.

Notation "x <- e ;; k" := (obind e (fun x => k))
  (at level 61, e at next level, right associativity).
Notation "' p <- e ;; k" := (obind e (fun p => k))
  (at level 61, p pattern, e at next level, right associativity).

(** Hashable values: what a [dict] key, a [set] member or an [==] needs. *)
Class Key (K : Type) : Type := key_eqb : K -> K -> bool.

#[global] Instance nat_key : Key nat := Nat.eqb.
#[global] Instance Z_key : Key Z := Z.eqb.
#[global] Instance string_key : Key string := String.eqb.

Fixpoint list_eqb {A : Type} (eqb : A -> A -> bool) (l1 l2 : list A) : bool :=
  match l1, l2 with
  | [], [] => true
  | x :: l1', y :: l2' => eqb x y && list_eqb eqb l1' l2'
  | _, _ => false
  end.

#[global] Instance list_key {A : Type} `{Key A} : Key (list A) := list_eqb key_eqb.
#[global] Instance pair_key {A B : Type} `{Key A} `{Key B} : Key (A * B) :=
  fun p q => key_eqb (fst p) (fst q) && key_eqb (snd p) (snd q).

(** The equality test of a key type decides equality. *)
Class KeySpec (K : Type) `{Key K} : Prop :=
  key_eqb_eq : forall x y : K, key_eqb x y = true <-> x = y.

(** [x in l]. *)
Definition mem {K : Type} `{Key K} (x : K) (l : list K) : bool := existsb (key_eqb x) l.

(** [s.add(x)] on a set kept as the list of its members. *)
Definition set_add {K : Type} `{Key K} (s : list K) (x : K) : list K :=
  if mem x s then s else s ++ [x].

(** *** Insertion-ordered dictionaries *)

(** [d[k]]; [None] is the [KeyError]. *)
Fixpoint dget {K V : Type} `{Key K} (d : list (K * V)) (k : K) : option V :=
  match d with
  | [] => None
  | (k', v) :: d' => if key_eqb k k' then Some v else dget d' k
  end.

(** [d.get(k, dflt)], also the read of a [defaultdict]. *)
Definition dget_or {K V : Type} `{Key K} (d : list (K * V)) (k : K) (dflt : V) : V :=
  match dget d k with
  | Some v => v
  | None => dflt
  end.

(** [d[k] = v]: an existing key keeps its place, a new one goes last. *)
Fixpoint dset {K V : Type} `{Key K} (d : list (K * V)) (k : K) (v : V) : list (K * V) :=
  match d with
  | [] => [(k, v)]
  | (k', v') :: d' => if key_eqb k k' then (k', v) :: d' else (k', v') :: dset d' k v
  end.

(** [dict(pairs)]. *)
Definition dict_of {K V : Type} `{Key K} (pairs : list (K * V)) : list (K * V) :=
  fold_left (fun d kv => dset d (fst kv) (snd kv)) pairs [].

(** [sorted(items, key=..., reverse=True)]: descending and stable. *)
Fixpoint insert_desc {A : Type} (key : A -> Z) (x : A) (l : list A) : list A :=
  match l with
  | [] => [x]
  | y :: l' => if (key x <? key y)%Z then y :: insert_desc key x l' else x :: l
  end.

Definition sorted_desc {A : Type} (key : A -> Z) (l : list A) : list A :=
  fold_right (insert_desc key) [] l.

(** [[x for x, y in sorted(items, key=lambda p: p[1], reverse=True)][0]]. *)
Definition best_of {A : Type} (items : list (A * Z)) : option A :=
  hd_error (map fst (sorted_desc snd items)).

(** [l[-1]]. *)
Fixpoint last_opt {A : Type} (l : list A) : option A :=
  match l with
  | [] => None
  | [x] => Some x
  | _ :: l' => last_opt l'
  end.

(** [enumerate(l)], started at index [i]. *)
Fixpoint enumerate_from {A : Type} (i : nat) (l : list A) : list (nat * A) :=
  match l with
  | [] => []
  | x :: l' => (i, x) :: enumerate_from (S i) l'
  end.

Definition enumerate {A : Type} (l : list A) : list (nat * A) := enumerate_from 0 l.

(** [i in l] on a list of indices. *)
Definition mem_nat (i : nat) (l : list nat) : bool := existsb (Nat.eqb i) l.

(** [x in l] on a list of strings. *)
Definition mem_str (x : string) (l : list string) : bool := existsb (String.eqb x) l.

(** ** [ungap]: the proto-gap merge *)

(** [pidxs]: the positions of [proto] in [languages]. *)
Definition pidxs_of (languages : list string) (proto : string) : list nat :=
  map fst (filter (fun p => String.eqb (snd p) proto) (enumerate languages)).

(** [col = [row[i] for row in alignment]]; a row without index [i] raises. *)
Fixpoint column (i : nat) (alignment : list (list string)) : option (list string) :=
  match alignment with
  | [] => Some []
  | row :: rest =>
      match nth_error row i with
      | None => None
      | Some site => option_map (cons site) (column i rest)
      end
  end.

(** [col_rest = [site for j, site in enumerate(col) if j not in pidxs]]. *)
Definition col_rest (pidxs : list nat) (col : list string) : list string :=
  map snd (filter (fun p => negb (mem_nat (fst p) pidxs)) (enumerate col)).

(** ["-" in col_rest and len(set(col_rest)) == 1]. *)
Definition mergeable (rest : list string) : bool :=
  mem_str "-" rest && Nat.eqb (length (nodup string_dec rest)) 1.

(** The loop that collects [merges] over the column indices [cols]. *)
Fixpoint find_merges (pidxs : list nat) (alignment : list (list string))
  (cols : list nat) : option (list nat) :=
  match cols with
  | [] => Some []
  | i :: cols' =>
      match column i alignment with
      | None => None
      | Some col =>
          match find_merges pidxs alignment cols' with
          | None => None
          | Some ms => Some (if mergeable (col_rest pidxs col) then i :: ms else ms)
          end
      end
  end.

(** The local variables of the per-row loop. *)
Record row_state : Type := mk_row_state {
  new_alm : list string;
  mergeit : bool;
  started : bool
}.

(** [l[-1] = f(l[-1])]; raises on the empty list. *)
Fixpoint update_last (f : string -> string) (l : list string) : option (list string) :=
  match l with
  | [] => None
  | [c] => Some [f c]
  | c :: l' => option_map (cons c) (update_last f l')
  end.

(** What is appended to the accumulated cell: [cell] on an empty cell,
    ['.' + cell] otherwise. *)
Definition join_cell (cell acc : string) : string :=
  if String.eqb acc "" then (acc ++ cell)%string else (acc ++ "." ++ cell)%string.

(** One iteration of [for j, cell in enumerate(row)]. *)
Definition merge_step (merges : list nat) (st : row_state) (j : nat) (cell : string)
  : option row_state :=
  if mem_nat j merges || mergeit st then
    if negb (started st) then
      if String.eqb cell "-" then
        Some (mk_row_state (new_alm st) false (started st))
      else
        option_map (fun a => mk_row_state a false (started st))
                   (update_last (join_cell cell) (new_alm st))
    else
      Some (mk_row_state (new_alm st ++ [if String.eqb cell "-" then ""%string else cell])
                         true (started st))
  else
    Some (mk_row_state (new_alm st ++ [cell]) (mergeit st) false).

Fixpoint merge_row_from (merges : list nat) (j : nat) (row : list string)
  (st : row_state) : option row_state :=
  match row with
  | [] => Some st
  | cell :: row' =>
      match merge_step merges st j cell with
      | None => None
      | Some st' => merge_row_from merges (S j) row' st'
      end
  end.

(** The closing loop: every empty cell becomes the gap symbol. *)
Definition fill_gaps (cells : list string) : list string :=
  map (fun cell => if String.eqb cell "" then "-"%string else cell) cells.

Definition initial_row_state : row_state := mk_row_state [] false true.

Definition merge_row (merges : list nat) (row : list string) : option (list string) :=
  option_map (fun st => fill_gaps (new_alm st))
             (merge_row_from merges 0 row initial_row_state).

Fixpoint merge_rows (merges : list nat) (alignment : list (list string))
  : option (list (list string)) :=
  match alignment with
  | [] => Some []
  | row :: rest =>
      match merge_row merges row with
      | None => None
      | Some r =>  option_map (cons r) (merge_rows merges rest)
      end
  end.

(** [ungap(alignment, languages, proto)].  [alignment[0]] raises on an
    alignment without rows. *)
Definition ungap (alignment : list (list string)) (languages : list string)
  (proto : string) : option (list (list string)) :=
  match alignment with
  | [] => None
  | row0 :: _ =>
      match find_merges (pidxs_of languages proto) alignment (seq 0 (length row0)) with
      | None => None
      | Some [] => Some alignment
      | Some merges => merge_rows merges alignment
      end
  end.


(** ** The sound alphabet ([Baseline.fit], the lines after the collection
       of [sounds]) *)

(** [sorted(sounds)]: strings in the lexicographic order of their UTF-8
    code units, which is the order of their code points. *)
Fixpoint insert_str (x : string) (l : list string) : list string :=
  match l with
  | [] => [x]
  | y :: l' => if String.leb x y then x :: l else y :: insert_str x l'
  end.

Definition sorted_str (l : list string) : list string := fold_right insert_str [] l.

(** [sound2idx = dict(zip(sorted(sounds), range(2, len(sounds)+2)))], then
    [sound2idx[gap] = 1] and [sound2idx[missing] = 0]. *)
Definition make_sound2idx (sounds : list string) (gap missing : string)
  : list (string * Z) :=
  let d := dict_of (combine (sorted_str sounds) (map Z.of_nat (seq 2 (length sounds)))) in
  dset (dset d gap 1%Z) missing 0%Z.

(** [idx2sound = {v: k for k, v in sound2idx.items()}]. *)
Definition make_idx2sound (sound2idx : list (string * Z)) : list (Z * string) :=
  dict_of (map (fun kv => (snd kv, fst kv)) sound2idx).

(** [sound2idx.get(char, 0)]. *)
Definition encode (sound2idx : list (string * Z)) (char : string) : Z :=
  dget_or sound2idx char 0%Z.

(** [idx2sound.get(idx, unknown)]. *)
Definition decode (idx2sound : list (Z * string)) (unknown : string) (idx : Z) : string :=
  dget_or idx2sound idx unknown.

(** How many members of [l] sort strictly before [s]. *)
Definition rank_of (s : string) (l : list string) : nat :=
  length (filter (fun x => String.ltb x s) l).

(** ** [CorPaRClassifier] *)

(** A pattern, or a pattern extended by its target: a tuple of indices. *)
Definition tuple : Type := list Z.

(** The [networkx] graph: nodes with their [freq], edges with their
    [weight], both in insertion order. *)
Record graph : Type := mk_graph {
  g_nodes : list (tuple * nat);
  g_edges : list (tuple * tuple * nat)
}.

Definition empty_graph : graph := mk_graph [] [].

(** [if not p in G: G.add_node(p, freq=freq)]. *)
Definition add_node (g : graph) (p : tuple) (freq : nat) : graph :=
  if mem p (map fst (g_nodes g)) then g
  else mk_graph (g_nodes g ++ [(p, freq)]) (g_edges g).

Definition add_edge (g : graph) (a b : tuple) (weight : nat) : graph :=
  mk_graph (g_nodes g) (g_edges g ++ [(a, b, weight)]).

(** The maximal-clique enumeration is the library routine [find_cliques];
    the classifier is written against this interface. *)
Class CliqueEnumeration : Type := find_cliques : graph -> list (list tuple).

(** What the classifier relies on: an empty graph has no clique, a clique
    has a member, and its members are nodes of the graph. *)
Class CliqueEnumerationLaws `{CliqueEnumeration} : Prop := {
  find_cliques_empty : forall g, g_nodes g = [] -> find_cliques g = [];
  find_cliques_inhabited : forall g c, In c (find_cliques g) -> c <> [];
  find_cliques_nodes : forall g c p, In c (find_cliques g) -> In p c ->
                                     In p (map fst (g_nodes g))
}.

(** [compatible]: one step of the loop over [zip(ptA, ptB)]. *)
Definition compatible_step (acc : nat * nat) (ab : Z * Z) : nat * nat :=
  if Z.eqb (fst ab) 0 || Z.eqb (snd ab) 0 then acc
  else if Z.eqb (fst ab) (snd ab) then (S (fst acc), snd acc)
  else (fst acc, S (snd acc)).

Definition compatible (ptA ptB : tuple) : nat * nat :=
  fold_left compatible_step (combine ptA ptB) (0, 0).

(** The inner loop of [consensus] at position [i]: the first value that
    is not missing; [Some None] when there is none ([nocons]). *)
Fixpoint first_known (i : nat) (nodes : list tuple) : option (option Z) :=
  match nodes with
  | [] => Some None
  | node :: rest =>
      v <- nth_error node i ;;
      if Z.eqb v 0 then first_known i rest else Some (Some v)
  end.

Fixpoint consensus_at (nodes : list tuple) (positions : list nat) : option tuple :=
  match positions with
  | [] => Some []
  | i :: positions' =>
      r <- first_known i nodes ;;
      rest <- consensus_at nodes positions' ;;
      Some (match r with Some v => v | None => 0%Z end :: rest)
  end.

Definition consensus (nodes : list tuple) : option tuple :=
  node0 <- hd_error nodes ;;
  consensus_at nodes (seq 0 (length node0)).

(** [P[tuple(row+[y[i]])] += [i]] over [enumerate(X)]. *)
Fixpoint group_rows (rows : list (nat * list Z)) (y : list Z)
  (P : list (tuple * list nat)) : option (list (tuple * list nat)) :=
  match rows with
  | [] => Some P
  | (i, row) :: rows' =>
      t <- nth_error y i ;;
      let key := row ++ [t] in
      group_rows rows' y (dset P key (dget_or P key [] ++ [i]))
  end.

(** [itertools.combinations(l, r=2)]. *)
Fixpoint combinations2 {A : Type} (l : list A) : list (A * A) :=
  match l with
  | [] => []
  | x :: l' => map (pair x) l' ++ combinations2 l'
  end.

(** The body of the loop that makes the graph. *)
Definition add_pair (threshold : Z) (g : graph)
  (ab : (tuple * list nat) * (tuple * list nat)) : graph :=
  let '((pA, vA), (pB, vB)) := ab in
  let '(match_, mismatch) := compatible pA pB in
  if Nat.eqb mismatch 0 && (threshold <=? Z.of_nat match_)%Z then
    add_edge (add_node (add_node g pA (length vA)) pB (length vB)) pA pB match_
  else g.

(** [self.patterns]: consensus source pattern -> target -> clique size. *)
Definition patterns_t : Type := list (tuple * list (Z * nat)).
(** [self.lookup]: observed source pattern -> consensus source pattern ->
    summed clique sizes. *)
Definition lookup_t : Type := list (tuple * list (tuple * nat)).

(** [self.lookup[node[:-1]][src] += n]. *)
Definition lookup_add (src : tuple) (n : nat) (lk : lookup_t) (node : tuple) : lookup_t :=
  let inner := dget_or lk (removelast node) [] in
  dset lk (removelast node) (dset inner src (dget_or inner src 0 + n)).

(** The body of [for nodes in find_cliques(self.G)]. *)
Definition record_clique (st : patterns_t * lookup_t) (nodes : list tuple)
  : option (patterns_t * lookup_t) :=
  cons <- consensus nodes ;;
  target <- last_opt cons ;;
  let src := removelast cons in
  let n := length nodes in
  Some (dset (fst st) src (dset (dget_or (fst st) src []) target n),
        fold_left (lookup_add src n) nodes (snd st)).

Fixpoint record_cliques (cliques : list (list tuple)) (st : patterns_t * lookup_t)
  : option (patterns_t * lookup_t) :=
  match cliques with
  | [] => Some st
  | nodes :: rest => st' <- record_clique st nodes ;; record_cliques rest st'
  end.

Definition weighted {A : Type} (inner : list (A * nat)) : list (A * Z) :=
  map (fun kv => (fst kv, Z.of_nat (snd kv))) inner.

(** [for ptn in self.patterns: self.predictions[ptn] = ...]. *)
Fixpoint direct_rules (items : patterns_t) (preds : list (tuple * Z))
  : option (list (tuple * Z)) :=
  match items with
  | [] => Some preds
  | (ptn, inner) :: rest =>
      t <- best_of (weighted inner) ;;
      direct_rules rest (dset preds ptn t)
  end.

(** [for ptn in self.lookup: self.predictions[ptn] = self.predictions[ptnB]]. *)
Fixpoint resolve_lookup (items : lookup_t) (preds : list (tuple * Z))
  : option (list (tuple * Z)) :=
  match items with
  | [] => Some preds
  | (ptn, inner) :: rest =>
      ptnB <- best_of (weighted inner) ;;
      t <- dget preds ptnB ;;
      resolve_lookup rest (dset preds ptn t)
  end.

(** [self.ptnlkp]: (position, value) -> consensus source patterns. *)
Definition ptnlkp_t : Type := list ((nat * Z) * list tuple).

Definition index_value (ptn : tuple) (lk : ptnlkp_t) (iv : nat * Z) : ptnlkp_t :=
  if Z.eqb (snd iv) 0 then lk else dset lk iv (dget_or lk iv [] ++ [ptn]).

Definition index_pattern (lk : ptnlkp_t) (ptn : tuple) : ptnlkp_t :=
  fold_left (index_value ptn) (enumerate ptn) lk.

Definition build_ptnlkp (patterns : patterns_t) : ptnlkp_t :=
  fold_left index_pattern (map fst patterns) [].

(** The attributes of a classifier.  Before [fit] the tables are empty. *)
Record classifier : Type := mk_classifier {
  G : graph;
  threshold : Z;
  patterns : patterns_t;
  lookup : lookup_t;
  predictions : list (tuple * Z);
  ptnlkp : ptnlkp_t
}.

(** [CorPaRClassifier(threshold=...)]; [self.missing] is always 0. *)
Definition new_classifier (threshold : Z) : classifier :=
  mk_classifier empty_graph threshold [] [] [] [].

Definition fit `{CliqueEnumeration} (c : classifier) (X : list (list Z)) (y : list Z)
  : option classifier :=
  P <- group_rows (enumerate X) y [] ;;
  let g := fold_left (add_pair (threshold c)) (combinations2 P) (G c) in
  st <- record_cliques (find_cliques g) ([], []) ;;
  direct <- direct_rules (fst st) [] ;;
  preds <- resolve_lookup (snd st) direct ;;
  Some (mk_classifier g (threshold c) (fst st) (snd st) preds (build_ptnlkp (fst st))).

(** The two [candidates += ...] branches of [predict]. *)
Definition score (ptn ptnB : tuple) : option Z :=
  let '(match_, mismatch) := compatible ptn ptnB in
  if negb (Nat.eqb match_ 0) && Nat.eqb mismatch 0 then
    Some (Z.of_nat match_ + Z.of_nat (length ptn))%Z
  else if negb (Z.eqb (Z.of_nat match_ - Z.of_nat mismatch) 0) then
    Some (Z.of_nat match_ - Z.of_nat mismatch)%Z
  else None.

(** The state of the fallback search: [candidates] and [visited]. *)
Definition search_state : Type := (list (tuple * Z) * list tuple)%type.

(** The body of [for ptnB in self.ptnlkp[i, ptn[i]]]. *)
Definition visit (ptn : tuple) (st : search_state) (ptnB : tuple) : search_state :=
  if mem ptnB (snd st) then st
  else
    (match score ptn ptnB with
     | Some s => fst st ++ [(ptnB, s)]
     | None => fst st
     end, snd st ++ [ptnB]).

(** The body of [for i in range(len(ptn)-1)].  [self.ptnlkp] is a
    [defaultdict(list)]: reading a key that is not there also files an
    empty list under it.  The index is kept here up to such empty entries,
    which no read tells from an absent key: a read is [dget_or] with the
    empty list. *)
Definition search_position (lk : ptnlkp_t) (ptn : tuple) (st : search_state) (i : nat)
  : search_state :=
  match nth_error ptn i with
  | Some v => if Z.eqb v 0 then st else fold_left (visit ptn) (dget_or lk (i, v) []) st
  | None => st
  end.

Definition search (lk : ptnlkp_t) (ptn : tuple) : search_state :=
  fold_left (search_position lk ptn) (seq 0 (length ptn - 1)) ([], []).

Definition cache (c : classifier) (row : tuple) (t : Z) : classifier :=
  mk_classifier (G c) (threshold c) (patterns c) (lookup c)
                (dset (predictions c) row t) (ptnlkp c).

(** One iteration of [for row in matrix]: the value appended to [out] and
    the classifier with its prediction table after the iteration. *)
Definition predict_row (c : classifier) (row : tuple) : option (Z * classifier) :=
  match dget (predictions c) row with
  | Some t => Some (t, c)
  | None =>
      match fst (search (ptnlkp c) row) with
      | [] => Some (0%Z, c)
      | candidates =>
          ptn <- best_of candidates ;;
          t <- dget (predictions c) ptn ;;
          Some (t, cache c row t)
      end
  end.

Fixpoint predict (c : classifier) (matrix : list tuple) : option (list Z * classifier) :=
  match matrix with
  | [] => Some ([], c)
  | row :: rest =>
      '(t, c') <- predict_row c row ;;
      '(out, c'') <- predict c' rest ;;
      Some (t :: out, c'')
  end.

(** *** A reference clique enumeration *)

(** Modelled from the spec: [networkx.find_cliques] is not part of the
    sources; the spec asks for all maximal cliques of the undirected graph.
    This enumeration lists them by exhaustive search over the sub-lists of
    the node list. *)
Definition adjacent (g : graph) (a b : tuple) : bool :=
  existsb (fun e => (key_eqb a (fst (fst e)) && key_eqb b (snd (fst e)))
                    || (key_eqb b (fst (fst e)) && key_eqb a (snd (fst e))))
          (g_edges g).

Fixpoint sublists {A : Type} (l : list A) : list (list A) :=
  match l with
  | [] => [[]]
  | x :: l' => map (cons x) (sublists l') ++ sublists l'
  end.

Definition is_clique (g : graph) (c : list tuple) : bool :=
  forallb (fun ab => adjacent g (fst ab) (snd ab)) (combinations2 c).

Definition is_maximal (g : graph) (c : list tuple) : bool :=
  forallb (fun p => mem p c || negb (forallb (adjacent g p) c)) (map fst (g_nodes g)).

Definition maximal_cliques (g : graph) : list (list tuple) :=
  filter (fun c => negb (Nat.eqb (length c) 0) && is_clique g c && is_maximal g c)
         (sublists (map fst (g_nodes g))).

Definition exhaustive_cliques : CliqueEnumeration := maximal_cliques.

(** ** [simple_align] *)

(** The alignment primitive ([Multiple.prog_align] or
    [normalize_alignment] of lingpy) is a parameter of the pipeline. *)
Definition aligner : Type := list (list string) -> list (list string).

(** Modelled from the spec: the alignment primitive is not part of the
    sources; this is the spec's length normalisation, which right-pads
    with gaps without reordering content. *)
Definition pad_alignment : aligner :=
  fun seqs =>
    let width := fold_right Nat.max 0 (map (@length string) seqs) in
    map (fun seq => seq ++ repeat "-" (width - length seq)) seqs.

(** [l.index(x)]; [None] is the [ValueError]. *)
Fixpoint index_of (x : string) (l : list string) : option nat :=
  match l with
  | [] => None
  | y :: l' => if String.eqb x y then Some 0 else option_map S (index_of x l')
  end.

(** [l[i] = v]. *)
Fixpoint set_nth {A : Type} (l : list A) (i : nat) (v : A) : option (list A) :=
  match l, i with
  | [], _ => None
  | _ :: l', 0 => Some (v :: l')
  | x :: l', S i' => option_map (cons x) (set_nth l' i' v)
  end.

(** The loop [for j, lng in enumerate(languages)] that fills row [i] of
    the matrix. *)
Fixpoint fill_row (alms : list (list string)) (all_languages : list string) (i : nat)
  (langs : list (nat * string)) (row : list string) : option (list string) :=
  match langs with
  | [] => Some row
  | (j, lng) :: langs' =>
      lidx <- index_of lng all_languages ;;
      alm <- nth_error alms j ;;
      site <- nth_error alm i ;;
      row' <- set_nth row lidx site ;;
      fill_row alms all_languages i langs' row'
  end.

Fixpoint fill_rows (alms : list (list string)) (languages all_languages : list string)
  (missing : string) (rows : list nat) : option (list (list string)) :=
  match rows with
  | [] => Some []
  | i :: rows' =>
      row <- fill_row alms all_languages i (enumerate languages)
                      (map (fun _ => missing) all_languages) ;;
      rest <- fill_rows alms languages all_languages missing rows' ;;
      Some (row :: rest)
  end.

Definition simple_align (align_seqs : aligner) (seqs : list (list string))
  (languages all_languages : list string) (training : bool) (missing gap : string)
  : option (list (list string)) :=
  let seqs := map (filter (fun s => negb (String.eqb s gap))) seqs in
  let alms := align_seqs seqs in
  alms <- (if training
           then proto <- last_opt languages ;; ungap alms languages proto
           else Some alms) ;;
  row0 <- hd_error alms ;;
  fill_rows alms languages all_languages missing (seq 0 (length row0)).

(** ** [Baseline] *)

(** [self.data]: cognate set -> language -> sound sequence. *)
Definition cognate_table : Type := list (string * list (string * list string)).

(** An entry of [self.alignments[language]]: [[cogid, languages, alms]]. *)
Definition instance : Type := (string * list string * list (list string))%type.

(** [" ".join(seq) == "?"]. *)
Definition is_query (seq : list string) : bool :=
  String.eqb (String.concat " " seq) "?".

Definition nonempty {A : Type} (l : list A) : bool := negb (Nat.eqb (length l) 0).

(** The loop over [self.languages] for one cognate set: the known forms,
    their languages, and the languages to predict. *)
Fixpoint scan_languages (langs : list string) (data : list (string * list string))
  (acc : list (list string) * list string * list string)
  : option (list (list string) * list string * list string) :=
  match langs with
  | [] => Some acc
  | language :: langs' =>
      form <- dget data language ;;
      let '(alms, languages, queries) := acc in
      if nonempty form && negb (is_query form) then
        scan_languages langs' data (alms ++ [form], languages ++ [language], queries)
      else if nonempty form && is_query form then
        scan_languages langs' data (alms, languages, queries ++ [language])
      else scan_languages langs' data acc
  end.

(** [[alm for j, alm in enumerate(alms) if i != j]]. *)
Definition others {A : Type} (i : nat) (l : list A) : list A :=
  map snd (filter (fun p => negb (Nat.eqb i (fst p))) (enumerate l)).

(** The loop [for i, language in enumerate(languages)] that files one
    leave-one-out instance per known language. *)
Fixpoint add_instances (cogid : string) (languages : list string)
  (alms : list (list string)) (todo : list (nat * string))
  (alignments : list (string * list instance)) : option (list (string * list instance)) :=
  match todo with
  | [] => Some alignments
  | (i, language) :: todo' =>
      mine <- dget alignments language ;;
      alm <- nth_error alms i ;;
      let inst := (cogid,
                   filter (fun lang => negb (String.eqb lang language)) languages ++ [language],
                   others i alms ++ [alm]) in
      add_instances cogid languages alms todo' (dset alignments language (mine ++ [inst]))
  end.

Record baseline : Type := mk_baseline {
  b_languages : list string;
  b_data : cognate_table;
  b_gap : string;
  b_missing : string;
  b_classifiers : list (string * classifier);
  b_alignments : list (string * list instance);
  b_to_predict : list (string * list string)
}.

Fixpoint init_rows (languages : list string) (rows : cognate_table)
  (st : list (string * list instance) * list (string * list string))
  : option (list (string * list instance) * list (string * list string)) :=
  match rows with
  | [] => Some st
  | (cogid, data) :: rows' =>
      '(alms, langs, queries) <- scan_languages languages data ([], [], []) ;;
      alignments <- add_instances cogid langs alms (enumerate langs) (fst st) ;;
      init_rows languages rows'
                (alignments,
                 if nonempty queries
                 then dset (snd st) cogid (dget_or (snd st) cogid [] ++ queries)
                 else snd st)
  end.

(** [Baseline.__init__], from the loaded table on. *)
Definition baseline_init (languages : list string) (data : cognate_table)
  (missing gap : string) (threshold : Z) : option baseline :=
  st <- init_rows languages data (dict_of (map (fun l => (l, [])) languages), []) ;;
  Some (mk_baseline languages data gap missing
                    (dict_of (map (fun l => (l, new_classifier threshold)) languages))
                    (fst st) (snd st)).

(** [self.patterns[language]]: pattern -> target sound -> occurrences. *)
Definition occurrences : Type := list (list string * list (string * list (string * nat))).

(** The state of the first loop of [Baseline.fit]: [self.patterns] and
    [sounds]. *)
Definition fit_state : Type := (list (string * occurrences) * list string)%type.

(** The body of [for i, row in enumerate(alm_matrix)]. *)
Definition add_row (width : nat) (language cogid : string) (st : fit_state)
  (irow : nat * list string) : option fit_state :=
  let ptn := firstn (width - 1) (snd irow) in
  target <- last_opt (snd irow) ;;
  mine <- dget (fst st) language ;;
  let by_target := dget_or mine ptn [] in
  let mine' := dset mine ptn
                    (dset by_target target (dget_or by_target target [] ++ [(cogid, fst irow)])) in
  Some (dset (fst st) language mine',
        set_add (fold_left set_add ptn (snd st)) target).

Fixpoint add_rows (width : nat) (language cogid : string) (rows : list (nat * list string))
  (st : fit_state) : option fit_state :=
  match rows with
  | [] => Some st
  | irow :: rows' =>
      st' <- add_row width language cogid st irow ;;
      add_rows width language cogid rows' st'
  end.

(** [simple_align] is called with its default [missing] and [gap]. *)
Definition default_missing : string := "Ø".
Definition default_gap : string := "-".

Fixpoint add_language (align_seqs : aligner) (all_languages : list string) (language : string)
  (insts : list instance) (st : fit_state) : option fit_state :=
  match insts with
  | [] => Some st
  | (cogid, languages, alms) :: insts' =>
      alm_matrix <- simple_align align_seqs alms languages all_languages true
                                 default_missing default_gap ;;
      st' <- add_rows (length all_languages) language cogid (enumerate alm_matrix) st ;;
      add_language align_seqs all_languages language insts' st'
  end.

Fixpoint collect (align_seqs : aligner) (b : baseline) (langs : list string) (st : fit_state)
  : option fit_state :=
  match langs with
  | [] => Some st
  | language :: langs' =>
      insts <- dget (b_alignments b) language ;;
      st' <- add_language align_seqs (b_languages b) language insts st ;;
      collect align_seqs b langs' st'
  end.

(** The rows of [self.matrices[language]] and [self.solutions[language]]
    that one language's patterns give. *)
Definition encode_occurrences (sound2idx : list (string * Z)) (occ : occurrences)
  : option (list (list Z) * list Z) :=
  fold_left
    (fun acc pattern_sounds =>
       fold_left
         (fun acc sound_vals =>
            '(X, y) <- acc ;;
            target <- dget sound2idx (fst sound_vals) ;;
            row <- fold_right (fun s acc => r <- acc ;; v <- dget sound2idx s ;; Some (v :: r))
                              (Some []) (fst pattern_sounds) ;;
            Some (X ++ map (fun _ => row) (snd sound_vals),
                  y ++ map (fun _ => target) (snd sound_vals)))
         (snd pattern_sounds) acc)
    occ (Some ([], [])).

Record fitted : Type := mk_fitted {
  f_base : baseline;
  f_patterns : list (string * occurrences);
  f_sounds : list string;
  f_sound2idx : list (string * Z);
  f_idx2sound : list (Z * string);
  f_training : list (string * (list (list Z) * list Z));
  f_classifiers : list (string * classifier)
}.

Fixpoint fit_classifiers `{CliqueEnumeration}
  (sound2idx : list (string * Z)) (patterns : list (string * occurrences))
  (langs : list string)
  (st : list (string * (list (list Z) * list Z)) * list (string * classifier))
  : option (list (string * (list (list Z) * list Z)) * list (string * classifier)) :=
  match langs with
  | [] => Some st
  | language :: langs' =>
      occ <- dget patterns language ;;
      '(X, y) <- encode_occurrences sound2idx occ ;;
      '(X0, y0) <- dget (fst st) language ;;
      c <- dget (snd st) language ;;
      c' <- fit c (X0 ++ X) (y0 ++ y) ;;
      fit_classifiers sound2idx patterns langs'
                      (dset (fst st) language (X0 ++ X, y0 ++ y), dset (snd st) language c')
  end.

(** [Baseline.fit]. *)
Definition baseline_fit `{CliqueEnumeration} (align_seqs : aligner) (b : baseline)
  : option fitted :=
  let langs := b_languages b in
  '(patterns, sounds) <- collect align_seqs b langs
                                 (dict_of (map (fun l => (l, [])) langs), []) ;;
  let sound2idx := make_sound2idx sounds (b_gap b) (b_missing b) in
  st <- fit_classifiers sound2idx patterns langs
          (dict_of (map (fun l => (l, ([], []))) langs), b_classifiers b) ;;
  Some (mk_fitted b patterns sounds sound2idx (make_idx2sound sound2idx) (fst st) (snd st)).

(** [Baseline.predict]: the predicted sounds and the model with the
    target's classifier after its prediction table grew. *)
Definition baseline_predict (align_seqs : aligner) (f : fitted) (languages : list string)
  (alignments : list (list string)) (target unknown : string)
  : option (list string * fitted) :=
  matrix <- simple_align align_seqs alignments languages
              (filter (fun l => negb (String.eqb l target)) (b_languages (f_base f)))
              false default_missing default_gap ;;
  let new_matrix := map (map (encode (f_sound2idx f))) matrix in
  c <- dget (f_classifiers f) target ;;
  '(out, c') <- predict c new_matrix ;;
  Some (map (decode (f_idx2sound f) unknown) out,
        mk_fitted (f_base f) (f_patterns f) (f_sounds f) (f_sound2idx f) (f_idx2sound f)
                  (f_training f) (dset (f_classifiers f) target c')).

(** [load_cognate_file] after tokenisation: the header's languages and,
    per row, the cognate set identifier with one token list per column. *)
Definition load_table (languages : list string) (rows : list (string * list (list string)))
  : cognate_table :=
  dict_of (map (fun row => (fst row, dict_of (combine languages (snd row)))) rows).


(** ** [predict_words], between loading the table and writing the file *)

(** [predictions]: cognate set -> target language -> predicted sounds. *)
Definition predictions_t : Type := list (string * list (string * list string)).

(** The loop [for language in bs.languages] of [predict_words]: the
    attested forms of a cognate set and their languages. *)
Fixpoint known_forms (langs : list string) (data : cognate_table) (cogid : string)
  (acc : list (list string) * list string) : option (list (list string) * list string) :=
  match langs with
  | [] => Some acc
  | language :: langs' =>
      row <- dget data cogid ;;
      match dget row language with
      | Some form =>
          if negb (is_query form) && nonempty form
          then known_forms langs' data cogid (fst acc ++ [form], snd acc ++ [language])
          else known_forms langs' data cogid acc
      | None => known_forms langs' data cogid acc
      end
  end.

(** The loop [for target in targets]; [bs.predict] updates the model. *)
Fixpoint predict_targets (align_seqs : aligner) (b : baseline) (cogid : string)
  (targets : list string) (st : fitted * predictions_t) : option (fitted * predictions_t) :=
  match targets with
  | [] => Some st
  | target :: targets' =>
      '(alms, languages) <- known_forms (b_languages b) (b_data b) cogid ([], []) ;;
      if nonempty alms then
        '(out, f') <- baseline_predict align_seqs (fst st) languages alms target "?" ;;
        predict_targets align_seqs b cogid targets'
                        (f', dset (snd st) cogid (dset (dget_or (snd st) cogid []) target out))
      else predict_targets align_seqs b cogid targets' st
  end.

(** The loop [for cogid, targets in bs.to_predict.items()]. *)
Fixpoint predict_cognates (align_seqs : aligner) (b : baseline)
  (items : list (string * list string)) (st : fitted * predictions_t)
  : option (fitted * predictions_t) :=
  match items with
  | [] => Some st
  | (cogid, targets) :: items' =>
      st' <- predict_targets align_seqs b cogid targets st ;;
      predict_cognates align_seqs b items' st'
  end.

(** [predict_words]: the predictions that are handed to
    [write_cognate_file]. *)
Definition predict_words `{CliqueEnumeration} (align_seqs : aligner)
  (languages : list string) (data : cognate_table) : option predictions_t :=
  b <- baseline_init languages data default_missing default_gap 1 ;;
  f <- baseline_fit align_seqs b ;;
  st <- predict_cognates align_seqs b (b_to_predict b) (f, []) ;;
  Some (snd st).


(** ** Notions used to state the properties *)

(** An alignment matrix: at least one row, and [n] columns in every row. *)
Definition rectangular (alignment : list (list string)) (n : nat) : Prop :=
  alignment <> [] /\ Forall (fun row => length row = n) alignment.

(** No cell of the alignment is the empty string. *)
Definition no_empty_cell (alignment : list (list string)) : Prop :=
  Forall (Forall (fun cell => cell <> "")) alignment.

(** What the per-row loop decides from the column index alone: the number
    of cells so far and the two flags. *)
Definition shape (st : row_state) : nat * bool * bool :=
  (length (new_alm st), mergeit st, started st).

Definition step_shape (merges : list nat) (sh : nat * bool * bool) (j : nat)
  : nat * bool * bool :=
  let '(cells, mi, sta) := sh in
  if mem_nat j merges || mi then
    if negb sta then (cells, false, sta) else (S cells, true, sta)
  else (S cells, mi, false).

Fixpoint row_shape (merges : list nat) (j width : nat) (sh : nat * bool * bool)
  : nat * bool * bool :=
  match width with
  | 0 => sh
  | S w => row_shape merges (S j) w (step_shape merges sh j)
  end.

(** The cells of [row] (whose first cell is column [j]) outside the merged
    columns. *)
Fixpoint keep_cells (merges : list nat) (j : nat) (row : list string) : list string :=
  match row with
  | [] => []
  | cell :: row' =>
      if mem_nat j merges then keep_cells merges (S j) row'
      else cell :: keep_cells merges (S j) row'
  end.

(** The column that ends up at position [k] when the merged columns are
    dropped from the [width] columns that start at [j]. *)
Fixpoint kept_index (merges : list nat) (j width k : nat) : option nat :=
  match width with
  | 0 => None
  | S w =>
      if mem_nat j merges then kept_index merges (S j) w k
      else match k with
           | 0 => Some j
           | S k' => kept_index merges (S j) w k'
           end
  end.

(** Column [j] holds the gap symbol in every row outside [pidxs], and
    there is such a row. *)
Definition gap_column (pidxs : list nat) (alignment : list (list string)) (j : nat) : Prop :=
  (exists i row, mem_nat i pidxs = false /\ nth_error alignment i = Some row) /\
  (forall i row, mem_nat i pidxs = false -> nth_error alignment i = Some row ->
                 nth_error row j = Some "-").

(** The row loop never reads the last cell of an empty list. *)
Definition ready (st : row_state) : Prop := started st = false -> new_alm st <> [].

(** A gap cell of a row that starts with a merged column. *)
Definition degap (cell : string) : string := if String.eqb cell "-" then "" else cell.

(** The lexicographic order that [sorted] uses. *)
Definition lt_str (x y : string) : Prop := String.ltb x y = true.

(** The index of a symbol as the specification words it: the missing
    sentinel is 0, the gap symbol 1, and the other observed symbols are
    numbered from 2 in the lexicographic order of those other symbols. *)
Definition claimed_index (sounds : list string) (gap missing s : string) : Z :=
  if String.eqb s missing then 0%Z
  else if String.eqb s gap then 1%Z
  else Z.of_nat (2 + rank_of s (filter (fun x => negb (String.eqb x gap)
                                                 && negb (String.eqb x missing)) sounds)).

(** [zip(sorted(sounds), range(2, len(sounds)+2))]. *)
Definition ranked (sounds : list string) : list (string * Z) :=
  combine (sorted_str sounds) (map Z.of_nat (seq 2 (length sounds))).

(** The tuples that [fit] groups: [tuple(row + [y[i]])]. *)
Definition tuples (X : list (list Z)) (y : list Z) : list tuple :=
  map (fun p => fst p ++ [snd p]) (combine X y).

(** The three-language table of the end-to-end example. *)
Definition abc : list string := ["A"; "B"; "C"].

Definition voicing_table : cognate_table :=
  load_table abc [("1", [["p"; "a"]; ["p"; "a"]; ["b"; "a"]]);
                  ("2", [["t"; "i"]; ["t"; "i"]; ["d"; "i"]])].

Definition voicing_model : option fitted :=
  b <- baseline_init abc voicing_table "Ø" "-" 1 ;;
  @baseline_fit exhaustive_cliques pad_alignment b.

(** A table with one cognate set, known in all three languages. *)
Definition one_set_table : cognate_table :=
  load_table abc [("1", [["a"]; ["b"]; ["c"]])].

Definition one_set_model : option fitted :=
  b <- baseline_init abc one_set_table "Ø" "-" 1 ;;
  @baseline_fit exhaustive_cliques pad_alignment b.

(** The rule that a clique gives: its consensus source pattern, its
    consensus target and its size. *)
Definition clique_rule (nodes : list tuple) : option (tuple * Z * nat) :=
  cons <- consensus nodes ;;
  target <- last_opt cons ;;
  Some (removelast cons, target, length nodes).

Fixpoint clique_rules (cliques : list (list tuple)) : option (list (tuple * Z * nat)) :=
  match cliques with
  | [] => Some []
  | nodes :: rest =>
      r <- clique_rule nodes ;;
      rs <- clique_rules rest ;;
      Some (r :: rs)
  end.

Definition rule_source (r : tuple * Z * nat) : tuple := fst (fst r).
Definition rule_target (r : tuple * Z * nat) : Z := snd (fst r).
Definition rule_size (r : tuple * Z * nat) : nat := snd r.

(** [self.patterns[src][target] = n]. *)
Definition add_rule (pt : patterns_t) (r : tuple * Z * nat) : patterns_t :=
  dset pt (rule_source r) (dset (dget_or pt (rule_source r) []) (rule_target r) (rule_size r)).

(** The members of [l], each once, in the order of their first occurrence. *)
Definition keep_first {K : Type} `{Key K} (l : list K) : list K := fold_left set_add l [].

(** The rules with source pattern [p], in enumeration order. *)
Definition rules_of (rules : list (tuple * Z * nat)) (p : tuple) : list (tuple * Z * nat) :=
  filter (fun r => key_eqb (rule_source r) p) rules.

(** The targets produced with source pattern [p], in the order in which
    the enumeration first produced them. *)
Definition targets_of (rules : list (tuple * Z * nat)) (p : tuple) : list Z :=
  keep_first (map rule_target (rules_of rules p)).

(** The size recorded for source [p] and target [t]: that of the last
    enumerated clique with this consensus. *)
Definition recorded_opt (rules : list (tuple * Z * nat)) (p : tuple) (t : Z) : option nat :=
  option_map rule_size
    (find (fun r => key_eqb (rule_source r) p && key_eqb (rule_target r) t) (rev rules)).


(** [x] is the first member of [l] with the greatest score. *)
Definition first_max {A : Type} (score : A -> Z) (l : list A) (x : A) : Prop :=
  exists before after,
    l = before ++ x :: after /\
    (forall y, In y before -> (score y < score x)%Z) /\
    (forall y, In y after -> (score y <= score x)%Z).

(** The source patterns of the members of the cliques. *)
Definition member_sources (cliques : list (list tuple)) : list tuple :=
  map (@removelast Z) (concat cliques).


(** The entries of [self.lookup]: none is empty, and each names source
    patterns in [S] only. *)
Definition lookup_entries_in (S : tuple -> Prop) (lk : lookup_t) : Prop :=
  forall q inner, In (q, inner) lk ->
                  inner <> [] /\ forall s, In s (map fst inner) -> S s.

(** A training set in which the pattern (5, 0) is the consensus source of
    one clique and an observed source pattern in two larger ones. *)
Definition overlap_X : list (list Z) := [[5; 0]; [5; 0]; [5; 6]; [0; 6]; [5; 0]]%Z.
Definition overlap_y : list Z := [7; 0; 8; 8; 8]%Z.

(** Its three maximal cliques. *)
Definition overlap_cliques : list (list tuple) :=
  [[[5; 0; 7]; [5; 0; 0]];
   [[5; 0; 0]; [5; 6; 8]; [5; 0; 8]];
   [[5; 6; 8]; [5; 0; 8]; [0; 6; 8]]]%Z.

(** The orders in which a list can be enumerated. *)
Fixpoint insert_everywhere {A : Type} (x : A) (l : list A) : list (list A) :=
  match l with
  | [] => [[x]]
  | y :: l' => (x :: l) :: map (cons y) (insert_everywhere x l')
  end.

Fixpoint orders {A : Type} (l : list A) : list (list A) :=
  match l with
  | [] => [[]]
  | x :: l' => flat_map (insert_everywhere x) (orders l')
  end.

(** The enumerations of a family of cliques: the cliques in any order,
    the members of each in any order. *)
Fixpoint member_orders {A : Type} (cliques : list (list A)) : list (list (list A)) :=
  match cliques with
  | [] => [[]]
  | c :: rest =>
      flat_map (fun c' => map (cons c') (member_orders rest)) (orders c)
  end.

Definition enumerations {A : Type} (cliques : list (list A)) : list (list (list A)) :=
  flat_map member_orders (orders cliques).

(** The index entries listed under position [i] of the query. *)
Definition bucket (lk : ptnlkp_t) (row : tuple) (i : nat) : list tuple :=
  match nth_error row i with
  | Some v => if Z.eqb v 0 then [] else dget_or lk (i, v) []
  | None => []
  end.

(** The found patterns that [predict] keeps as candidates, with their
    scores. *)
Definition scored (row : tuple) (found : list tuple) : list (tuple * Z) :=
  flat_map (fun p => match score row p with
                     | Some s => [(p, s)]
                     | None => []
                     end) found.

(** Every pattern listed in the fallback index has an entry in the
    prediction table. *)
Definition indexed_rules_known (c : classifier) : Prop :=
  forall key ptn, In ptn (dget_or (ptnlkp c) key []) ->
                  exists t, dget (predictions c) ptn = Some t.

(** The entries of an index all satisfy [S]. *)
Definition index_entries_in (S : tuple -> Prop) (lk : ptnlkp_t) : Prop :=
  forall key l ptn, In (key, l) lk -> In ptn l -> S ptn.

(** The score as the specification words it: a candidate without mismatch
    ranks above every candidate with one, by its number of matches; the
    others rank by matches minus mismatches. *)
Definition claimed_score (row ptnB : tuple) : Z :=
  let '(match_, mismatch) := compatible row ptnB in
  if Nat.eqb mismatch 0 then (Z.of_nat match_ + Z.of_nat (length row))%Z
  else (Z.of_nat match_ - Z.of_nat mismatch)%Z.

(** The fallback as the specification words it: the candidates are
    gathered over all non-missing positions of the query, every one of them
    is scored, the target of the best is returned, and the missing
    sentinel when none was found. *)
Definition claimed_fallback (c : classifier) (row : tuple) : option Z :=
  match keep_first (flat_map (bucket (ptnlkp c) row) (seq 0 (length row))) with
  | [] => Some 0%Z
  | found =>
      ptn <- best_of (map (fun p => (p, claimed_score row p)) found) ;;
      dget (predictions c) ptn
  end.

(** A training set with two rules whose source patterns start alike. *)
Definition near_X : list (list Z) := [[1; 9; 0]; [1; 0; 0]; [1; 8; 7]; [1; 8; 0]]%Z.
Definition near_y : list Z := [5; 5; 6; 6]%Z.

(** Its two maximal cliques. *)
Definition near_cliques : list (list tuple) :=
  [[[1; 9; 0; 5]; [1; 0; 0; 5]]; [[1; 8; 7; 6]; [1; 8; 0; 6]]]%Z.

(** A cell other than the gap symbol. *)
Definition nongap (cell : string) : bool := negb (String.eqb cell "-").

(** The cells of [row] (whose first cell is column [j]) without the gap
    cells of the merged columns. *)
Fixpoint surviving (merges : list nat) (j : nat) (row : list string) : list string :=
  match row with
  | [] => []
  | cell :: row' =>
      if mem_nat j merges && String.eqb cell "-" then surviving merges (S j) row'
      else cell :: surviving merges (S j) row'
  end.

(** The pairs of [zip(ptA, ptB)] that [compatible] counts as a match and
    as a mismatch. *)
Definition both_known (ab : Z * Z) : bool :=
  negb (Z.eqb (fst ab) 0 || Z.eqb (snd ab) 0).

Definition is_match (ab : Z * Z) : bool := both_known ab && Z.eqb (fst ab) (snd ab).

Definition is_mismatch (ab : Z * Z) : bool :=
  both_known ab && negb (Z.eqb (fst ab) (snd ab)).

(** Two tuples without a mismatch. *)
Definition agree (a b : tuple) : Prop := snd (compatible a b) = 0.

(** The answer [t] for [row] is fixed in [c]: it is in the prediction
    table, or the row has no entry and no fallback candidate and [t] is 0. *)
Definition settled (c : classifier) (row : tuple) (t : Z) : Prop :=
  dget (predictions c) row = Some t \/
  (dget (predictions c) row = None /\ fst (search (ptnlkp c) row) = [] /\ t = 0%Z).

(** What the loop over the pairs keeps true of the graph. *)
Definition graph_sound (threshold : Z) (items : list (tuple * list nat)) (g : graph) : Prop :=
  NoDup (map fst (g_nodes g)) /\
  (forall a b w, In (a, b, w) (g_edges g) ->
                 compatible a b = (w, 0) /\ (threshold <= Z.of_nat w)%Z /\
                 exists vA vB, In ((a, vA), (b, vB)) (combinations2 items)) /\
  (forall p f, In (p, f) (g_nodes g) ->
               (exists v, In (p, v) items /\ f = length v) /\
               exists q w, In (p, q, w) (g_edges g) \/ In (q, p, w) (g_edges g)).

(** The form of a language in a cognate set is attested: it is there,
    not empty and not the query mark. *)
Definition attested (data : list (string * list string)) (language : string) : bool :=
  match dget data language with
  | Some form => nonempty form && negb (is_query form)
  | None => false
  end.

(** The form of a language in a cognate set is the query mark. *)
Definition queried (data : list (string * list string)) (language : string) : bool :=
  match dget data language with
  | Some form => nonempty form && is_query form
  | None => false
  end.

Definition form_of (data : list (string * list string)) (language : string) : list string :=
  dget_or data language [].

(** The leave-one-out instance of a cognate set for a language: the other
    attested languages in the order of the data set, then the language
    itself, each with its form. *)
Definition leave_one_out (languages : list string)
  (row : string * list (string * list string)) (language : string) : instance :=
  let langs := filter (fun lang => negb (String.eqb lang language))
                      (filter (attested (snd row)) languages) ++ [language] in
  (fst row, langs, map (form_of (snd row)) langs).

(** One instance per cognate set in which the language is attested, in
    the order of the table. *)
Definition instances_of (languages : list string) (data : cognate_table) (language : string)
  : list instance :=
  flat_map (fun row => if attested (snd row) language
                       then [leave_one_out languages row language] else [])
           data.

(** The queried languages of the rows filed under a cognate set. *)
Definition queries_of (languages : list string) (data : cognate_table) (cogid : string)
  : list string :=
  flat_map (fun row => if String.eqb (fst row) cogid
                       then filter (queried (snd row)) languages else [])
           data.

(** What the pipeline relies on from the alignment primitive: one aligned
    row per sequence, all rows of one length. *)
Definition aligns_to_rows (align_seqs : aligner) : Prop :=
  forall seqs, seqs <> [] ->
               length (align_seqs seqs) = length seqs /\
               exists n, Forall (fun row => length row = n) (align_seqs seqs).

(** The patterns collected so far have one cell per other language, and
    their symbols and targets are in the set of sounds. *)
Definition patterns_wf (width : nat) (st : fit_state) : Prop :=
  forall language occ ptn by_target,
    In (language, occ) (fst st) -> In (ptn, by_target) occ ->
    length ptn = width - 1 /\
    Forall (fun s => In s (snd st)) ptn /\
    forall t vals, In (t, vals) by_target -> In t (snd st).

(** A training instance that [simple_align] accepts. *)
Definition instance_ok (all_languages : list string) (inst : instance) : Prop :=
  snd (fst inst) <> [] /\
  length (snd inst) = length (snd (fst inst)) /\
  incl (snd (fst inst)) all_languages.

(** A training set of one width with one target per row. *)
Definition training_ok (width : nat) (Xy : list (list Z) * list Z) : Prop :=
  length (fst Xy) = length (snd Xy) /\
  Forall (fun row => length row = width) (fst Xy).

(** The targets of a training set are the indices of observed sounds. *)
Definition targets_from (sound2idx : list (string * Z)) (sounds : list string) (y : list Z)
  : Prop :=
  Forall (fun t => exists s, In s sounds /\ dget sound2idx s = Some t) y.

(** A classifier that can answer: its indexed rules all have a prediction,
    and its predictions are values of [V]. *)
Definition answers_in (V : Z -> Prop) (c : classifier) : Prop :=
  indexed_rules_known c /\ forall k t, dget (predictions c) k = Some t -> V t.

(** The index of the missing symbol or of an observed sound. *)
Definition sound_index (sound2idx : list (string * Z)) (sounds : list string) (t : Z) : Prop :=
  t = 0%Z \/ exists s, In s sounds /\ dget sound2idx s = Some t.

(** A fitted model that can answer queries for every language. *)
Definition fitted_ready (languages : list string) (missing gap : string) (f : fitted) : Prop :=
  b_languages (f_base f) = languages /\
  NoDup (f_sounds f) /\
  f_sound2idx f = make_sound2idx (f_sounds f) gap missing /\
  f_idx2sound f = make_idx2sound (f_sound2idx f) /\
  forall L, In L languages ->
            exists c, dget (f_classifiers f) L = Some c /\
                      answers_in (sound_index (f_sound2idx f) (f_sounds f)) c.

(** A cognate set and a language have a prediction. *)
Definition predicted (preds : predictions_t) (cogid target : string) : Prop :=
  exists out, dget (dget_or preds cogid []) target = Some out.

(** The training matrices of a language: for each of its instances, the
    matrix that [Baseline.fit] gets from [simple_align]. *)
Definition training_matrices (align_seqs : aligner) (b : baseline) (language : string)
  : list (list (list string)) :=
  flat_map (fun inst : instance =>
              match simple_align align_seqs (snd inst) (snd (fst inst)) (b_languages b)
                                 true default_missing default_gap with
              | Some matrix => [matrix]
              | None => []
              end)
           (dget_or (b_alignments b) language []).

(** A symbol observed in the training corpus: a cell of a training matrix
    of some language of the data set. *)
Definition training_symbol (align_seqs : aligner) (b : baseline) (s : string) : Prop :=
  exists language matrix row,
    In language (b_languages b) /\
    In matrix (training_matrices align_seqs b language) /\
    In row matrix /\ In s row.








(** A training set in which the cliques of sizes 5 and 3 have the same
    consensus (2, 1, 1) -> 8, and a clique of size 4 the consensus
    (2, 1, 1) -> 7. *)
Definition resized_X : list (list Z) :=
  [[2; 1; 0]; [2; 0; 1]; [0; 0; 1]; [2; 0; 0]; [2; 0; 0]; [2; 1; 1]; [2; 1; 0]]%Z.
Definition resized_y : list Z := [0; 0; 0; 0; 7; 8; 8]%Z.

(** Its three maximal cliques. *)
Definition resized_cliques : list (list tuple) :=
  [[[2; 1; 0; 0]; [2; 0; 1; 0]; [2; 0; 0; 0]; [2; 0; 0; 7]];
   [[2; 1; 0; 0]; [2; 0; 1; 0]; [2; 0; 0; 0]; [2; 1; 1; 8]; [2; 1; 0; 8]];
   [[2; 0; 1; 0]; [2; 1; 1; 8]; [0; 0; 1; 0]]]%Z.

(** An alignment primitive that only inserts gaps: on sequences without
    gap symbols it returns one row per sequence, all rows of one length,
    and each row spells its sequence once its gaps are left out. *)
Definition aligns_by_gaps (align_seqs : aligner) : Prop :=
  forall seqs,
    seqs <> [] ->
    Forall (Forall (fun s => nongap s = true)) seqs ->
    (exists n, Forall (fun row => length row = n) (align_seqs seqs)) /\
    Forall2 (fun seq row => filter nongap row = seq) seqs (align_seqs seqs).

(* ================================================================= *)
(** * Part II: properties *)
(* ================================================================= *)

(** ** Keys and dictionaries *)

#[global] Instance nat_key_spec : KeySpec nat.
Proof. intros x y. apply Nat.eqb_eq. Qed.

#[global] Instance Z_key_spec : KeySpec Z.
Proof. intros x y. apply Z.eqb_eq. Qed.

#[global] Instance string_key_spec : KeySpec string.
Proof. intros x y. apply String.eqb_eq. Qed.

#[global] Instance list_key_spec {A : Type} `{KeySpec A} : KeySpec (list A).
Proof.
  intros x. induction x as [|a x IH]; intros [|b y]; simpl; split; intros E;
    try discriminate; try reflexivity.
  - unfold key_eqb, list_key in E. simpl in E.
    apply andb_true_iff in E. destruct E as [E1 E2].
    apply key_eqb_eq in E1. apply IH in E2. congruence.
  - injection E as -> ->. unfold key_eqb, list_key. simpl.
    apply andb_true_iff. split; [now apply key_eqb_eq | now apply IH].
Qed.

#[global] Instance pair_key_spec {A B : Type} `{KeySpec A} `{KeySpec B} : KeySpec (A * B).
Proof.
  intros [a b] [a' b']. unfold key_eqb, pair_key. simpl.
  rewrite andb_true_iff, !key_eqb_eq. split; [intros [-> ->]; reflexivity|].
  intros E; injection E as -> ->. split; reflexivity.
Qed.

Section Dict.
Context {K V : Type} `{KeySpec K}.

Lemma key_eqb_refl (k : K) : key_eqb k k = true.
Proof. now apply key_eqb_eq. Qed.

Lemma key_eqb_neq (k k' : K) : k <> k' -> key_eqb k k' = false.
Proof.
  intros N. destruct (key_eqb k k') eqn:E; [|reflexivity].
  apply key_eqb_eq in E. contradiction.
Qed.

Lemma key_eq_dec (k k' : K) : k = k' \/ k <> k'.
Proof.
  destruct (key_eqb k k') eqn:E.
  - left. now apply key_eqb_eq.
  - right. intros ->. rewrite key_eqb_refl in E. discriminate.
Qed.

Lemma mem_In (x : K) (l : list K) : mem x l = true <-> In x l.
Proof.
  unfold mem. rewrite existsb_exists. split.
  - intros [y [Hy E]]. apply key_eqb_eq in E. now subst.
  - intros HIn. exists x. split; [assumption | apply key_eqb_refl].
Qed.

Lemma mem_false (x : K) (l : list K) : mem x l = false <-> ~ In x l.
Proof.
  rewrite <- mem_In. destruct (mem x l); split; intros; easy.
Qed.

Lemma dget_dset_same (d : list (K * V)) (k : K) (v : V) : dget (dset d k v) k = Some v.
Proof.
  induction d as [|[k' v'] d IH]; simpl.
  - now rewrite key_eqb_refl.
  - destruct (key_eqb k k') eqn:E; simpl; rewrite E; [reflexivity | exact IH].
Qed.

Lemma dget_dset_other (d : list (K * V)) (k k' : K) (v : V) :
  k <> k' -> dget (dset d k v) k' = dget d k'.
Proof.
  intros N. induction d as [|[k0 v0] d IH]; simpl.
  - rewrite (key_eqb_neq k' k); [reflexivity | congruence].
  - destruct (key_eqb k k0) eqn:E; simpl.
    + apply key_eqb_eq in E. subst k0.
      rewrite (key_eqb_neq k' k); [reflexivity | congruence].
    + destruct (key_eqb k' k0); [reflexivity | exact IH].
Qed.

Lemma dget_Some_In (d : list (K * V)) (k : K) (v : V) :
  dget d k = Some v -> In (k, v) d.
Proof.
  induction d as [|[k' v'] d IH]; simpl; [discriminate|].
  destruct (key_eqb k k') eqn:E.
  - apply key_eqb_eq in E. intros [= ->]. left. now subst.
  - intros G0. right. now apply IH.
Qed.

Lemma dget_None_iff (d : list (K * V)) (k : K) :
  dget d k = None <-> ~ In k (map fst d).
Proof.
  induction d as [|[k' v'] d IH]; simpl; [tauto|].
  destruct (key_eqb k k') eqn:E.
  - apply key_eqb_eq in E. subst. split; [discriminate | intros N; exfalso; auto].
  - rewrite IH. split; [|tauto]. intros N [E'|HIn]; [|auto].
    subst. rewrite key_eqb_refl in E. discriminate.
Qed.

Lemma dget_In_keys (d : list (K * V)) (k : K) :
  In k (map fst d) -> exists v, dget d k = Some v.
Proof.
  intros HIn. destruct (dget d k) eqn:E; [eauto|].
  apply dget_None_iff in E. contradiction.
Qed.

Lemma keys_dset (d : list (K * V)) (k : K) (v : V) :
  map fst (dset d k v) = if mem k (map fst d) then map fst d else map fst d ++ [k].
Proof.
  induction d as [|[k' v'] d IH]; simpl; [reflexivity|].
  unfold mem in *. simpl. destruct (key_eqb k k') eqn:E; simpl; [reflexivity|].
  rewrite IH. now destruct (existsb (key_eqb k) (map fst d)).
Qed.

Lemma In_keys_dset (d : list (K * V)) (k k' : K) (v : V) :
  In k' (map fst (dset d k v)) <-> k' = k \/ In k' (map fst d).
Proof.
  rewrite keys_dset. destruct (mem k (map fst d)) eqn:E.
  - apply mem_In in E. split; [tauto|]. intros [->|]; assumption.
  - rewrite in_app_iff. simpl. split; [intros [|[|[]]]; auto | intros [|]; auto].
Qed.

End Dict.

(** ** The proto-gap merge *)

Lemma mem_nat_true (i : nat) (l : list nat) : mem_nat i l = true <-> In i l.
Proof. exact (mem_In i l). Qed.

Lemma mem_str_true (x : string) (l : list string) : mem_str x l = true <-> In x l.
Proof. exact (mem_In x l). Qed.

Lemma update_last_app (f : string -> string) (l : list string) (c : string) :
  update_last f (l ++ [c]) = Some (l ++ [f c]).
Proof.
  induction l as [|x l IH]; simpl; [reflexivity|].
  rewrite IH. destruct l; reflexivity.
Qed.

Lemma update_last_total (f : string -> string) (l : list string) :
  l <> [] -> exists a, update_last f l = Some a /\ length a = length l.
Proof.
  intros N. destruct (exists_last N) as [l' [c ->]].
  rewrite update_last_app. eexists. split; [reflexivity|].
  now rewrite !length_app.
Qed.

Lemma merge_step_shape (merges : list nat) (st : row_state) (j : nat) (cell : string) :
  ready st ->
  exists st', merge_step merges st j cell = Some st' /\
              shape st' = step_shape merges (shape st) j /\ ready st'.
Proof.
  intros R. unfold merge_step, step_shape, shape, ready in *.
  destruct st as [cells mi sta]; simpl in *.
  destruct (mem_nat j merges || mi) eqn:E.
  - destruct sta; simpl.
    + eexists. split; [reflexivity|]. simpl. split; [|discriminate].
      now rewrite length_app, Nat.add_1_r.
    + destruct (String.eqb cell "-").
      * eexists. split; [reflexivity|]. simpl. auto.
      * destruct (update_last_total (join_cell cell) cells (R eq_refl)) as [a [Ea La]].
        rewrite Ea. simpl. eexists. split; [reflexivity|]. simpl.
        split; [now rewrite La|]. intros _ ->. simpl in La.
        destruct cells; [now apply R | discriminate].
  - eexists. split; [reflexivity|]. simpl. split.
    + now rewrite length_app, Nat.add_1_r.
    + intros _. now destruct cells.
Qed.

Lemma merge_row_from_shape (merges : list nat) (row : list string) :
  forall (j : nat) (st : row_state),
    ready st ->
    exists st', merge_row_from merges j row st = Some st' /\
                shape st' = row_shape merges j (length row) (shape st) /\ ready st'.
Proof.
  induction row as [|cell row IH]; intros j st R.
  - exists st. simpl. auto.
  - destruct (merge_step_shape merges st j cell R) as [st1 [E1 [S1 R1]]].
    destruct (IH (S j) st1 R1) as [st2 [E2 [S2 R2]]].
    exists st2. cbn [merge_row_from length row_shape]. rewrite E1, <- S1. auto.
Qed.

Lemma row_shape_bound (merges : list nat) (width : nat) :
  forall j sh, fst (fst (row_shape merges j width sh)) <= fst (fst sh) + width.
Proof.
  induction width as [|w IH]; intros j sh; simpl; [lia|].
  specialize (IH (S j) (step_shape merges sh j)).
  destruct sh as [[cells mi] sta]. unfold step_shape in *. simpl in *.
  destruct (mem_nat j merges || mi); [destruct sta|]; simpl in *; lia.
Qed.

Lemma fill_gaps_length (cells : list string) : length (fill_gaps cells) = length cells.
Proof. apply length_map. Qed.

(** The number of cells of a merged row is a function of the merged
    columns and of the row's length. *)
Lemma merge_row_length (merges : list nat) (row : list string) :
  exists r, merge_row merges row = Some r /\
            length r = fst (fst (row_shape merges 0 (length row) (0, false, true))).
Proof.
  unfold merge_row.
  destruct (merge_row_from_shape merges row 0 initial_row_state) as [st [E [S _]]].
  { unfold ready. simpl. discriminate. }
  rewrite E. simpl. eexists. split; [reflexivity|].
  rewrite fill_gaps_length. unfold shape in S. simpl in S. rewrite <- S. reflexivity.
Qed.

Lemma merge_rows_spec (merges : list nat) (n : nat) (alignment : list (list string)) :
  Forall (fun row => length row = n) alignment ->
  exists out, merge_rows merges alignment = Some out /\
              Forall2 (fun row r => merge_row merges row = Some r) alignment out /\
              Forall (fun r => length r = fst (fst (row_shape merges 0 n (0, false, true)))) out.
Proof.
  induction 1 as [|row rows L _ IH]; simpl.
  - exists []. auto.
  - destruct (merge_row_length merges row) as [r [E Lr]]. rewrite E.
    destruct IH as [out [E' [F2 F]]]. rewrite E'. simpl.
    exists (r :: out). repeat split; auto.
    constructor; [|assumption]. now rewrite L in Lr.
Qed.

Lemma column_total (j n : nat) (alignment : list (list string)) :
  Forall (fun row => length row = n) alignment -> j < n ->
  exists col, column j alignment = Some col /\ length col = length alignment /\
              forall i row, nth_error alignment i = Some row ->
                            nth_error col i = nth_error row j.
Proof.
  intros F Hj. induction F as [|row rows L _ IH]; simpl.
  - exists []. repeat split; auto. intros [|i] row; discriminate.
  - destruct (nth_error row j) as [site|] eqn:E.
    2:{ apply nth_error_None in E. lia. }
    destruct IH as [col [Ec [Lc Hc]]]. rewrite Ec. simpl.
    exists (site :: col). repeat split; [simpl; congruence|].
    intros [|i] row' Hr; simpl in *; [congruence | now apply Hc].
Qed.

Lemma enumerate_from_nth {A : Type} (l : list A) :
  forall (i k : nat) (x : A),
    In (k, x) (enumerate_from i l) <-> i <= k /\ nth_error l (k - i) = Some x.
Proof.
  induction l as [|y l IH]; intros i k x; simpl.
  - split; [tauto|]. intros [_ E]. destruct (k - i); discriminate.
  - rewrite IH. split.
    + intros [E|[Hle E]].
      * injection E as -> ->. rewrite Nat.sub_diag. auto.
      * split; [lia|]. replace (k - i) with (S (k - S i)) by lia. exact E.
    + intros [Hle E]. destruct (k - i) as [|d] eqn:D.
      * left. simpl in E. injection E as ->. f_equal. lia.
      * right. split; [lia|]. simpl in E. replace (k - S i) with d by lia. exact E.
Qed.

Lemma In_col_rest (pidxs : list nat) (col : list string) (x : string) :
  In x (col_rest pidxs col) <->
  exists i, mem_nat i pidxs = false /\ nth_error col i = Some x.
Proof.
  unfold col_rest, enumerate. rewrite in_map_iff. split.
  - intros [[i y] [E HIn]]. simpl in E. subst y.
    apply filter_In in HIn. destruct HIn as [HIn Hp]. simpl in Hp.
    apply enumerate_from_nth in HIn. rewrite Nat.sub_0_r in HIn.
    exists i. split; [now apply negb_true_iff | tauto].
  - intros [i [Hp E]]. exists (i, x). split; [reflexivity|].
    apply filter_In. split; [|simpl; now rewrite Hp].
    apply enumerate_from_nth. rewrite Nat.sub_0_r. split; [lia | assumption].
Qed.

Lemma nodup_single (l : list string) (z : string) :
  l <> [] -> (forall x, In x l -> x = z) -> nodup string_dec l = [z].
Proof.
  induction l as [|x l IH]; intros N All; [contradiction|]. simpl.
  destruct l as [|y l].
  - simpl. f_equal. apply All. now left.
  - destruct (in_dec string_dec x (y :: l)) as [_|NI].
    + apply IH; [discriminate|]. intros w Hw. apply All. now right.
    + exfalso. apply NI. left. rewrite (All x), (All y); simpl; auto.
Qed.

Lemma mergeable_spec (rest : list string) :
  mergeable rest = true <-> rest <> [] /\ forall x, In x rest -> x = "-".
Proof.
  unfold mergeable. rewrite andb_true_iff, mem_str_true, Nat.eqb_eq. split.
  - intros [HIn L]. split; [intros ->; contradiction|].
    destruct (nodup string_dec rest) as [|z [|? ?]] eqn:E; try discriminate.
    assert (Hz : forall x, In x rest -> x = z).
    { intros x Hx. apply (nodup_In string_dec) in Hx. rewrite E in Hx.
      destruct Hx as [<-|[]]. reflexivity. }
    intros x Hx. rewrite (Hz x Hx). symmetry. now apply Hz.
  - intros [N All]. rewrite (nodup_single rest "-" N All). split; [|reflexivity].
    destruct rest as [|x rest]; [contradiction|]. left. apply All. now left.
Qed.

(** A column is merged exactly when it is a gap column of the rows outside
    the reference language. *)
Lemma mergeable_column (pidxs : list nat) (alignment : list (list string)) (n j : nat)
  (col : list string) :
  Forall (fun row => length row = n) alignment -> j < n ->
  column j alignment = Some col ->
  (mergeable (col_rest pidxs col) = true <-> gap_column pidxs alignment j).
Proof.
  intros F Hj Ec.
  destruct (column_total j n alignment F Hj) as [col' [Ec' [Lc Hc]]].
  rewrite Ec in Ec'. injection Ec' as <-.
  rewrite mergeable_spec. unfold gap_column. split.
  - intros [N All]. split.
    + destruct (col_rest pidxs col) as [|x rest] eqn:E; [contradiction|].
      assert (Hx : In x (col_rest pidxs col)) by (rewrite E; now left).
      apply In_col_rest in Hx. destruct Hx as [i [Hp Hx]].
      assert (Hi : i < length alignment).
      { rewrite <- Lc. apply nth_error_Some. congruence. }
      destruct (nth_error alignment i) as [row|] eqn:Er.
      * eauto.
      * apply nth_error_None in Er. lia.
    + intros i row Hp Er. rewrite <- (Hc i row Er).
      destruct (nth_error col i) as [x|] eqn:Ex.
      * f_equal. apply All. apply In_col_rest. eauto.
      * apply nth_error_None in Ex.
        assert (i < length alignment) by (apply nth_error_Some; congruence). lia.
  - intros [[i [row [Hp Er]]] All]. split.
    + intros E. assert (HIn : In "-" (col_rest pidxs col)).
      { apply In_col_rest. exists i. split; [assumption|].
        rewrite (Hc i row Er). now apply (All i row). }
      rewrite E in HIn. contradiction.
    + intros x Hx. apply In_col_rest in Hx. destruct Hx as [k [Hp' Ex]].
      assert (Hk : k < length alignment).
      { rewrite <- Lc. apply nth_error_Some. congruence. }
      destruct (nth_error alignment k) as [row'|] eqn:Er'.
      * rewrite (Hc k row' Er') in Ex. rewrite (All k row' Hp' Er') in Ex. congruence.
      * apply nth_error_None in Er'. lia.
Qed.

Lemma find_merges_spec (pidxs : list nat) (alignment : list (list string)) (n : nat)
  (cols : list nat) :
  Forall (fun row => length row = n) alignment ->
  Forall (fun j => j < n) cols ->
  exists ms, find_merges pidxs alignment cols = Some ms /\
             forall j, In j ms <-> In j cols /\ gap_column pidxs alignment j.
Proof.
  intros F Hc. induction Hc as [|j cols Hj _ IH]; simpl.
  - exists []. split; [reflexivity|]. simpl. tauto.
  - destruct (column_total j n alignment F Hj) as [col [Ec _]]. rewrite Ec.
    destruct IH as [ms [Em Hm]]. rewrite Em.
    pose proof (mergeable_column pidxs alignment n j col F Hj Ec) as M.
    eexists. split; [reflexivity|]. intros k.
    destruct (mergeable (col_rest pidxs col)) eqn:E.
    + simpl. rewrite Hm. split.
      * intros [<-|[H1 H2]]; [|tauto]. split; [now left | now apply M].
      * intros [[<-|H1] H2]; [now left | right; tauto].
    + rewrite Hm. split; [tauto|]. intros [[<-|H1] H2]; [|tauto].
      apply M in H2. congruence.
Qed.

Lemma seq_below (n : nat) : Forall (fun j => j < n) (seq 0 n).
Proof. apply Forall_forall. intros j Hj. apply in_seq in Hj. lia. Qed.

(** C10: on a rectangular alignment the merge returns as many rows, row
    [i] of the result being computed from row [i] of the input, and the
    rows of the result have one common length, at most the input's. *)
Theorem ungap_keeps_rectangular :
  forall (alignment : list (list string)) (languages : list string) (proto : string)
         (n : nat),
    rectangular alignment n ->
    exists (out : list (list string)) (m : nat),
      ungap alignment languages proto = Some out /\
      length out = length alignment /\
      m <= n /\
      Forall (fun row => length row = m) out /\
      (out = alignment \/
       exists merges,
         Forall2 (fun row r => merge_row merges row = Some r) alignment out).
Proof.
  intros alignment languages proto n [N F].
  destruct alignment as [|row0 rows]; [contradiction|].
  assert (L0 : length row0 = n) by (inversion F; assumption).
  unfold ungap. rewrite L0.
  destruct (find_merges_spec (pidxs_of languages proto) (row0 :: rows) n (seq 0 n) F
                             (seq_below n)) as [ms [Em _]].
  rewrite Em. destruct ms as [|j ms].
  - exists (row0 :: rows), n. repeat split; auto.
  - destruct (merge_rows_spec (j :: ms) n (row0 :: rows) F) as [out [Eo [F2 Fl]]].
    exists out, (fst (fst (row_shape (j :: ms) 0 n (0, false, true)))).
    split; [exact Eo|]. split; [symmetry; exact (Forall2_length F2)|].
    split; [|split; [exact Fl | right; eauto]].
    pose proof (row_shape_bound (j :: ms) n 0 (0, false, true)) as B. simpl in B. lia.
Qed.

Lemma ungap_keeps_rectangular_witness :
  rectangular [["b";"-";"-";"d"];["b";"-";"-";"d"];["b";"c";"e";"d"]] 4 /\
  exists (out : list (list string)) (m : nat),
    ungap [["b";"-";"-";"d"];["b";"-";"-";"d"];["b";"c";"e";"d"]] ["A";"B";"P"] "P"
      = Some out /\
    length out = 3 /\ m <= 4 /\ Forall (fun row => length row = m) out /\
    (out = [["b";"-";"-";"d"];["b";"-";"-";"d"];["b";"c";"e";"d"]] \/
     exists merges,
       Forall2 (fun row r => merge_row merges row = Some r)
               [["b";"-";"-";"d"];["b";"-";"-";"d"];["b";"c";"e";"d"]] out).
Proof.
  assert (R : rectangular [["b";"-";"-";"d"];["b";"-";"-";"d"];["b";"c";"e";"d"]] 4).
  { split; [discriminate | repeat constructor]. }
  split; [exact R|].
  exact (ungap_keeps_rectangular _ ["A";"B";"P"] "P" 4 R).
Defined.

(** The merged example of the module: the two gap columns of the
    daughters collapse into the preceding column. *)
Example ungap_collapses_inner_run :
  ungap [["b";"-";"-";"d"];["b";"-";"-";"d"];["b";"c";"e";"d"]] ["A";"B";"P"] "P"
  = Some [["b";"d"];["b";"d"];["b.c.e";"d"]].
Proof. reflexivity. Qed.

(** C3: with a mergeable first column nothing is collapsed: the input
    [[- b -], [- b -], [a b c]] (reference language last), whose columns 0
    and 2 are mergeable, comes back with its three columns, column 2 not
    merged into column 1. *)
Theorem ungap_leading_gap_column_blocks_merging :
  ungap [["-";"b";"-"];["-";"b";"-"];["a";"b";"c"]] ["A";"B";"P"] "P"
  = Some [["-";"b";"-"];["-";"b";"-"];["a";"b";"c"]].
Proof. reflexivity. Qed.

(** The same input without its first column is merged. *)
Example ungap_without_leading_gap_column :
  ungap [["b";"-"];["b";"-"];["b";"c"]] ["A";"B";"P"] "P"
  = Some [["b"];["b"];["b.c"]].
Proof. reflexivity. Qed.

(** *** Idempotence *)

Lemma merge_row_from_leading (merges : list nat) (row : list string) :
  forall (j : nat) (st : row_state),
    mergeit st = true -> started st = true ->
    merge_row_from merges j row st
    = Some (mk_row_state (new_alm st ++ map degap row) true true).
Proof.
  induction row as [|cell row IH]; intros j [cells mi sta] M S; simpl in *; subst.
  - now rewrite app_nil_r.
  - unfold merge_step. simpl. rewrite orb_true_r. simpl.
    rewrite IH by reflexivity. simpl. now rewrite <- app_assoc.
Qed.

Lemma fill_gaps_degap (row : list string) :
  Forall (fun cell => cell <> "") row -> fill_gaps (map degap row) = row.
Proof.
  induction 1 as [|cell row N _ IH]; simpl; [reflexivity|]. rewrite IH. f_equal.
  unfold degap. destruct (String.eqb cell "-") eqn:E.
  - apply String.eqb_eq in E. now subst.
  - destruct (String.eqb cell "") eqn:E'; [|reflexivity].
    apply String.eqb_eq in E'. contradiction.
Qed.

(** With a mergeable first column every cell is a cell of its own. *)
Lemma merge_row_leading (merges : list nat) (row : list string) :
  mem_nat 0 merges = true -> Forall (fun cell => cell <> "") row ->
  merge_row merges row = Some row.
Proof.
  intros M F. unfold merge_row. destruct row as [|cell row]; [reflexivity|].
  cbn [merge_row_from]. unfold merge_step, initial_row_state. simpl.
  rewrite M. simpl. rewrite merge_row_from_leading by reflexivity. simpl.
  f_equal. exact (fill_gaps_degap (cell :: row) F).
Qed.

Lemma merge_row_from_keep (merges : list nat) (row : list string) :
  forall (j : nat) (st : row_state),
    mergeit st = false -> started st = false ->
    (forall i c, nth_error row i = Some c -> mem_nat (j + i) merges = true -> c = "-") ->
    merge_row_from merges j row st
    = Some (mk_row_state (new_alm st ++ keep_cells merges j row) false false).
Proof.
  induction row as [|cell row IH]; intros j [cells mi sta] M S Hg; simpl in *; subst.
  - now rewrite app_nil_r.
  - unfold merge_step. simpl. rewrite orb_false_r.
    assert (Hg' : forall i c, nth_error row i = Some c ->
                              mem_nat (S j + i) merges = true -> c = "-").
    { intros i c Hc Hm. apply (Hg (S i) c Hc). now rewrite Nat.add_succ_r. }
    destruct (mem_nat j merges) eqn:E; simpl.
    + rewrite (Hg 0 cell eq_refl) by (now rewrite Nat.add_0_r). simpl.
      now rewrite IH.
    + rewrite IH by auto. simpl. now rewrite <- app_assoc.
Qed.

Lemma keep_cells_incl (merges : list nat) (row : list string) :
  forall j c, In c (keep_cells merges j row) -> In c row.
Proof.
  induction row as [|cell row IH]; intros j c; simpl; [tauto|].
  destruct (mem_nat j merges); simpl; intros HIn.
  - right. now apply (IH (S j)).
  - destruct HIn as [->|HIn]; [now left | right; now apply (IH (S j))].
Qed.

Lemma fill_gaps_id (cells : list string) :
  Forall (fun cell => cell <> "") cells -> fill_gaps cells = cells.
Proof.
  induction 1 as [|cell cells N _ IH]; simpl; [reflexivity|]. rewrite IH. f_equal.
  destruct (String.eqb cell "") eqn:E; [|reflexivity].
  apply String.eqb_eq in E. contradiction.
Qed.

(** Outside the reference language, and when the first column is not
    merged, a row loses its merged columns and nothing else. *)
Lemma merge_row_keep (merges : list nat) (row : list string) :
  mem_nat 0 merges = false ->
  (forall j, mem_nat j merges = true -> j < length row -> nth_error row j = Some "-") ->
  Forall (fun cell => cell <> "") row ->
  merge_row merges row = Some (keep_cells merges 0 row).
Proof.
  intros M Hg F. unfold merge_row. destruct row as [|cell row]; [reflexivity|].
  cbn [merge_row_from keep_cells]. unfold merge_step, initial_row_state. simpl.
  rewrite M. simpl. rewrite merge_row_from_keep; simpl; auto.
  - f_equal. apply (fill_gaps_id (cell :: keep_cells merges 1 row)).
    inversion F; subst. constructor; [assumption|].
    apply Forall_forall. intros c Hc. apply keep_cells_incl in Hc.
    rewrite Forall_forall in H2. now apply H2.
  - intros i c Hc Hm. specialize (Hg (S i) Hm). simpl in Hg.
    assert (i < length row) by (apply nth_error_Some; congruence).
    rewrite Hc in Hg. specialize (Hg ltac:(lia)). congruence.
Qed.

Lemma kept_index_range (merges : list nat) (width : nat) :
  forall j k j', kept_index merges j width k = Some j' ->
                 j <= j' < j + width /\ mem_nat j' merges = false.
Proof.
  induction width as [|w IH]; intros j k j'; simpl; [discriminate|].
  destruct (mem_nat j merges) eqn:E.
  - intros Hk. apply IH in Hk. split; [lia | tauto].
  - destruct k as [|k].
    + intros [= <-]. split; [lia | assumption].
    + intros Hk. apply IH in Hk. split; [lia | tauto].
Qed.

Lemma keep_cells_nth (merges : list nat) (row : list string) :
  forall j k,
    nth_error (keep_cells merges j row) k
    = match kept_index merges j (length row) k with
      | Some j' => nth_error row (j' - j)
      | None => None
      end.
Proof.
  induction row as [|cell row IH]; intros j k; simpl.
  - now destruct k.
  - destruct (mem_nat j merges) eqn:E.
    + rewrite IH. destruct (kept_index merges (S j) (length row) k) as [j'|] eqn:Ek;
        [|reflexivity].
      apply kept_index_range in Ek.
      replace (j' - j) with (S (j' - S j)) by lia. reflexivity.
    + destruct k as [|k]; simpl; [now rewrite Nat.sub_diag|].
      rewrite IH. destruct (kept_index merges (S j) (length row) k) as [j'|] eqn:Ek;
        [|reflexivity].
      apply kept_index_range in Ek.
      replace (j' - j) with (S (j' - S j)) by lia. reflexivity.
Qed.

Lemma Forall2_nth_left {A B : Type} (R : A -> B -> Prop) (l1 : list A) (l2 : list B) :
  Forall2 R l1 l2 ->
  forall i a, nth_error l1 i = Some a -> exists b, nth_error l2 i = Some b /\ R a b.
Proof.
  induction 1 as [|x y l1 l2 Hxy _ IH]; intros [|i] a E; simpl in *; try discriminate.
  - injection E as <-. eauto.
  - now apply IH.
Qed.

Lemma Forall2_nth_right {A B : Type} (R : A -> B -> Prop) (l1 : list A) (l2 : list B) :
  Forall2 R l1 l2 ->
  forall i b, nth_error l2 i = Some b -> exists a, nth_error l1 i = Some a /\ R a b.
Proof.
  induction 1 as [|x y l1 l2 Hxy _ IH]; intros [|i] b E; simpl in *; try discriminate.
  - injection E as <-. eauto.
  - now apply IH.
Qed.

Lemma Forall2_eq_Some {A : Type} (f : A -> option A) (l1 l2 : list A) :
  Forall2 (fun a b => f a = Some b) l1 l2 ->
  Forall (fun a => f a = Some a) l1 -> l2 = l1.
Proof.
  induction 1 as [|x y l1 l2 Hxy _ IH]; intros F; [reflexivity|].
  inversion F; subst. f_equal; [congruence | now apply IH].
Qed.

(** X3: Whenever the first column is mergeable, the alignment comes back as
    it is, whatever other columns are mergeable. *)
Lemma ungap_leading_gap_column_returns_input (alignment : list (list string))
  (languages : list string) (proto : string) (n : nat) :
  rectangular alignment n ->
  no_empty_cell alignment ->
  gap_column (pidxs_of languages proto) alignment 0 ->
  ungap alignment languages proto = Some alignment.
Proof.
  intros [N F] NE G0.
  destruct alignment as [|row0 rows]; [contradiction|].
  assert (L0 : length row0 = n) by (inversion F; assumption).
  destruct (find_merges_spec (pidxs_of languages proto) (row0 :: rows) n (seq 0 n) F
                             (seq_below n)) as [ms [Em Hm]].
  assert (Hn : 0 < n).
  { destruct G0 as [[i [row [Hp Er]]] Hg]. specialize (Hg i row Hp Er).
    assert (Hr : In row (row0 :: rows)) by (eapply nth_error_In; eauto).
    rewrite Forall_forall in F. rewrite <- (F row Hr).
    apply nth_error_Some. congruence. }
  assert (M0 : mem_nat 0 ms = true).
  { apply mem_nat_true, Hm. split; [apply in_seq; lia | assumption]. }
  unfold ungap. rewrite L0, Em. destruct ms as [|j ms]; [reflexivity|].
  destruct (merge_rows_spec (j :: ms) n (row0 :: rows) F) as [out [Eo [F2 _]]].
  rewrite Eo. f_equal.
  apply (Forall2_eq_Some (merge_row (j :: ms))); [exact F2|].
  unfold no_empty_cell in NE. rewrite Forall_forall in NE |- *.
  intros row Hr. apply merge_row_leading; auto.
Qed.

(** Why the cells are asked not to be the empty string: on an alignment
    with an empty-string cell, which [simple_align] never passes (its
    cells are tokens of [str.split] and gap symbols), the first pass turns
    the empty cells of column 1 into gaps, which makes that column
    mergeable for a second pass. *)
Lemma ungap_twice_differs_with_empty_cell :
  rectangular [["a";"";"-"];["a";"";"-"];["a";"b";"c"]] 3 /\
  ungap [["a";"";"-"];["a";"";"-"];["a";"b";"c"]] ["A";"B";"P"] "P"
  = Some [["a";"-"];["a";"-"];["a";"b.c"]] /\
  ungap [["a";"-"];["a";"-"];["a";"b.c"]] ["A";"B";"P"] "P"
  = Some [["a"];["a"];["a.b.c"]] /\
  [["a"];["a"];["a.b.c"]] <> [["a";"-"];["a";"-"];["a";"b.c"]].
Proof.
  split; [split; [discriminate | repeat constructor]|].
  split; [reflexivity|]. split; [reflexivity | discriminate].
Qed.

(** C7: on a rectangular alignment, whose cells are tokens or gap symbols
    and so never the empty string, the merge returns a result, and the
    merge of that result is the result itself. *)
Theorem ungap_idempotent :
  forall (alignment : list (list string)) (languages : list string) (proto : string)
         (n : nat),
    rectangular alignment n ->
    no_empty_cell alignment ->
    exists out : list (list string),
      ungap alignment languages proto = Some out /\
      ungap out languages proto = Some out.
Proof.
  intros alignment languages proto n [N F] NE.
  destruct alignment as [|row0 rows]; [contradiction|].
  assert (L0 : length row0 = n) by (inversion F; assumption).
  set (pidxs := pidxs_of languages proto).
  destruct (find_merges_spec pidxs (row0 :: rows) n (seq 0 n) F (seq_below n))
    as [ms [Em Hm]].
  assert (U : forall out, match ms with [] => Some (row0 :: rows)
                                   | _ => merge_rows ms (row0 :: rows) end = Some out ->
                          ungap (row0 :: rows) languages proto = Some out).
  { intros out E. unfold ungap. fold pidxs. rewrite L0, Em. exact E. }
  destruct ms as [|j0 ms0] eqn:Hms.
  { exists (row0 :: rows). split; apply U; reflexivity. }
  rewrite <- Hms in *. assert (Nms : ms <> []) by (rewrite Hms; discriminate).
  assert (U' : forall out, merge_rows ms (row0 :: rows) = Some out ->
                           ungap (row0 :: rows) languages proto = Some out).
  { intros out E. apply U. rewrite Hms in *. exact E. }
  clear U Hms j0 ms0.
  destruct (merge_rows_spec ms n (row0 :: rows) F) as [out [Eo [F2 Fl]]].
  exists out. split; [now apply U'|].
  destruct (mem_nat 0 ms) eqn:M0.
  - (* the first column is merged: every row comes back as it is *)
    assert (out = row0 :: rows) as ->.
    { apply (Forall2_eq_Some (merge_row ms)); [exact F2|].
      unfold no_empty_cell in NE. rewrite Forall_forall in NE |- *.
      intros row Hr. apply merge_row_leading; auto. }
    now apply U'.
  - (* the rows outside the reference language lose the merged columns *)
    assert (K : forall i row r, mem_nat i pidxs = false ->
                                nth_error (row0 :: rows) i = Some row ->
                                nth_error out i = Some r ->
                                r = keep_cells ms 0 row /\ length row = n).
    { intros i row r Hp Er Eout.
      destruct (Forall2_nth_left _ _ _ F2 i row Er) as [r' [Er' Mr]].
      rewrite Eout in Er'. injection Er' as <-.
      assert (Hin : In row (row0 :: rows)) by (eapply nth_error_In; eauto).
      assert (Lr : length row = n) by (rewrite Forall_forall in F; now apply F).
      split; [|exact Lr].
      rewrite merge_row_keep in Mr; [congruence | exact M0 | |].
      - intros j Hj Hlt. apply mem_nat_true in Hj. apply Hm in Hj.
        destruct Hj as [_ [_ Hg]]. now apply (Hg i row).
      - unfold no_empty_cell in NE. rewrite Forall_forall in NE. now apply NE. }
    destruct out as [|r0 outs]; [inversion F2|].
    set (m := fst (fst (row_shape ms 0 n (0, false, true)))) in *.
    assert (Lr0 : length r0 = m) by (inversion Fl; assumption).
    destruct (find_merges_spec pidxs (r0 :: outs) m (seq 0 m) Fl (seq_below m))
      as [ms' [Em' Hm']].
    assert (ms' = []) as ->.
    { destruct ms' as [|k ms']; [reflexivity|]. exfalso.
      destruct (proj1 (Hm' k) (or_introl eq_refl)) as [_ [[i [r [Hp Er]]] Hg]].
      destruct (Forall2_nth_right _ _ _ F2 i r Er) as [row [Erow _]].
      destruct (K i row r Hp Erow Er) as [-> Lrow].
      pose proof (Hg i _ Hp Er) as Hk. rewrite keep_cells_nth, Lrow in Hk.
      destruct (kept_index ms 0 n k) as [j'|] eqn:Ek; [|discriminate].
      destruct (kept_index_range ms n 0 k j' Ek) as [Hr Hnot].
      assert (Hj' : In j' ms).
      { apply Hm. split; [apply in_seq; lia|]. split; [eauto|].
        intros i2 row2 Hp2 Erow2.
        destruct (Forall2_nth_left _ _ _ F2 i2 row2 Erow2) as [r2 [Er2 _]].
        destruct (K i2 row2 r2 Hp2 Erow2 Er2) as [-> Lrow2].
        pose proof (Hg i2 _ Hp2 Er2) as Hk2.
        rewrite keep_cells_nth, Lrow2, Ek, Nat.sub_0_r in Hk2. exact Hk2. }
      apply mem_nat_true in Hj'. congruence. }
    unfold ungap. fold pidxs. rewrite Lr0, Em'. reflexivity.
Qed.

Lemma ungap_idempotent_witness :
  rectangular [["b";"-";"-";"d"];["b";"-";"-";"d"];["b";"c";"e";"d"]] 4 /\
  no_empty_cell [["b";"-";"-";"d"];["b";"-";"-";"d"];["b";"c";"e";"d"]] /\
  exists out : list (list string),
    ungap [["b";"-";"-";"d"];["b";"-";"-";"d"];["b";"c";"e";"d"]] ["A";"B";"P"] "P"
      = Some out /\
    ungap out ["A";"B";"P"] "P" = Some out.
Proof.
  assert (R : rectangular [["b";"-";"-";"d"];["b";"-";"-";"d"];["b";"c";"e";"d"]] 4).
  { split; [discriminate | repeat constructor]. }
  assert (E : no_empty_cell [["b";"-";"-";"d"];["b";"-";"-";"d"];["b";"c";"e";"d"]]).
  { repeat constructor; discriminate. }
  split; [exact R|]. split; [exact E|].
  exact (ungap_idempotent _ ["A";"B";"P"] "P" 4 R E).
Defined.

(** ** The sound alphabet *)

(** *** The lexicographic order of strings *)

Lemma ascii_compare_refl (a : ascii) : Ascii.compare a a = Eq.
Proof. unfold Ascii.compare. apply N.compare_refl. Qed.

Lemma ascii_compare_lt_trans (a b c : ascii) :
  Ascii.compare a b = Lt -> Ascii.compare b c = Lt -> Ascii.compare a c = Lt.
Proof.
  unfold Ascii.compare. rewrite !N.compare_lt_iff. apply N.lt_trans.
Qed.

Lemma string_compare_refl (s : string) : String.compare s s = Eq.
Proof.
  induction s as [|a s IH]; simpl; [reflexivity|]. now rewrite ascii_compare_refl.
Qed.

Lemma string_compare_lt_trans (s1 : string) :
  forall s2 s3, String.compare s1 s2 = Lt -> String.compare s2 s3 = Lt ->
                String.compare s1 s3 = Lt.
Proof.
  induction s1 as [|a s1 IH]; intros [|b s2] [|c s3]; simpl; try congruence.
  destruct (Ascii.compare a b) eqn:Eab; try discriminate;
    destruct (Ascii.compare b c) eqn:Ebc; try discriminate.
  - apply Ascii.compare_eq_iff in Eab, Ebc. subst. rewrite ascii_compare_refl.
    apply IH.
  - apply Ascii.compare_eq_iff in Eab. subst. now rewrite Ebc.
  - apply Ascii.compare_eq_iff in Ebc. subst. now rewrite Eab.
  - now rewrite (ascii_compare_lt_trans a b c Eab Ebc).
Qed.

Lemma lt_str_trans (x y z : string) : lt_str x y -> lt_str y z -> lt_str x z.
Proof.
  unfold lt_str, String.ltb. intros Hxy Hyz.
  destruct (String.compare x y) eqn:Exy; try discriminate.
  destruct (String.compare y z) eqn:Eyz; try discriminate.
  now rewrite (string_compare_lt_trans x y z Exy Eyz).
Qed.

Lemma lt_str_irrefl (x : string) : ~ lt_str x x.
Proof. unfold lt_str, String.ltb. now rewrite string_compare_refl. Qed.

Lemma lt_str_asym (x y : string) : lt_str x y -> ~ lt_str y x.
Proof. intros Hxy Hyx. exact (lt_str_irrefl x (lt_str_trans x y x Hxy Hyx)). Qed.

Lemma leb_true_lt (x y : string) : String.leb x y = true -> x <> y -> lt_str x y.
Proof.
  unfold lt_str, String.leb, String.ltb. intros L N.
  destruct (String.compare x y) eqn:E; try discriminate; [|reflexivity].
  apply String.compare_eq_iff in E. contradiction.
Qed.

Lemma leb_false_lt (x y : string) : String.leb x y = false -> lt_str y x.
Proof.
  unfold lt_str, String.leb, String.ltb. rewrite (String.compare_antisym y x).
  destruct (String.compare x y); simpl; congruence.
Qed.

(** *** Sorting *)

Lemma insert_str_In (x y : string) (l : list string) :
  In y (insert_str x l) <-> y = x \/ In y l.
Proof.
  induction l as [|z l IH]; simpl; [intuition|].
  destruct (String.leb x z); simpl; [intuition | rewrite IH; intuition].
Qed.

Lemma insert_str_length (x : string) (l : list string) :
  length (insert_str x l) = S (length l).
Proof.
  induction l as [|z l IH]; simpl; [reflexivity|].
  destruct (String.leb x z); simpl; [reflexivity | now rewrite IH].
Qed.

Lemma insert_str_sorted (x : string) (l : list string) :
  ~ In x l -> StronglySorted lt_str l -> StronglySorted lt_str (insert_str x l).
Proof.
  intros NI S. induction S as [|z l S IH F]; simpl.
  - constructor; constructor.
  - destruct (String.leb x z) eqn:E.
    + assert (Hxz : lt_str x z).
      { apply leb_true_lt; [assumption|]. intros ->. apply NI. now left. }
      constructor; [constructor; assumption|].
      constructor; [assumption|].
      rewrite Forall_forall in F |- *. intros w Hw.
      apply (lt_str_trans x z w Hxz). now apply F.
    + constructor.
      * apply IH. intros HIn. apply NI. now right.
      * rewrite Forall_forall in F |- *. intros w Hw.
        apply insert_str_In in Hw. destruct Hw as [->|Hw]; [|now apply F].
        now apply leb_false_lt.
Qed.

Lemma sorted_str_In (l : list string) (y : string) : In y (sorted_str l) <-> In y l.
Proof.
  induction l as [|x l IH]; simpl; [tauto|]. rewrite insert_str_In, IH. intuition.
Qed.

Lemma sorted_str_length (l : list string) : length (sorted_str l) = length l.
Proof.
  induction l as [|x l IH]; simpl; [reflexivity|]. now rewrite insert_str_length, IH.
Qed.

Lemma sorted_str_sorted (l : list string) :
  NoDup l -> StronglySorted lt_str (sorted_str l).
Proof.
  induction 1 as [|x l NI _ IH]; simpl; [constructor|].
  apply insert_str_sorted; [|assumption]. now rewrite sorted_str_In.
Qed.

Lemma sorted_NoDup (l : list string) : StronglySorted lt_str l -> NoDup l.
Proof.
  induction 1 as [|x l _ IH F]; constructor; [|assumption].
  intros HIn. rewrite Forall_forall in F. exact (lt_str_irrefl x (F x HIn)).
Qed.

(** A set has one sorted listing. *)
Lemma sorted_unique (l1 : list string) :
  forall l2, StronglySorted lt_str l1 -> StronglySorted lt_str l2 ->
             (forall x, In x l1 <-> In x l2) -> l1 = l2.
Proof.
  induction l1 as [|x l1 IH]; intros [|y l2] S1 S2 Same.
  - reflexivity.
  - exfalso. apply (proj2 (Same y)). now left.
  - exfalso. apply (proj1 (Same x)). now left.
  - inversion S1 as [|? ? S1' F1]; inversion S2 as [|? ? S2' F2]; subst.
    rewrite Forall_forall in F1, F2.
    assert (x = y) as ->.
    { destruct (proj1 (Same x) (or_introl eq_refl)) as [->|Hx]; [reflexivity|].
      destruct (proj2 (Same y) (or_introl eq_refl)) as [->|Hy]; [reflexivity|].
      exfalso. exact (lt_str_asym x y (F1 y Hy) (F2 x Hx)). }
    f_equal. apply IH; try assumption. intros w. split; intros Hw.
    + destruct (proj1 (Same w) (or_intror Hw)) as [->|]; [|assumption].
      exfalso. exact (lt_str_irrefl w (F1 w Hw)).
    + destruct (proj2 (Same w) (or_intror Hw)) as [->|]; [|assumption].
      exfalso. exact (lt_str_irrefl w (F2 w Hw)).
Qed.

Lemma filter_none {A : Type} (f : A -> bool) (l : list A) :
  (forall y, In y l -> f y = false) -> filter f l = [].
Proof.
  induction l as [|x l IH]; intros Hf; simpl; [reflexivity|].
  rewrite (Hf x (or_introl eq_refl)). apply IH. intros y Hy. apply Hf. now right.
Qed.

(** In a sorted listing the position of a member is the number of members
    before it in the order. *)
Lemma sorted_position (l : list string) :
  StronglySorted lt_str l ->
  forall i s, nth_error l i = Some s -> rank_of s l = i.
Proof.
  unfold rank_of. induction 1 as [|x l S IH F]; intros [|i] s E; simpl in *;
    try discriminate.
  - injection E as ->. destruct (String.ltb s s) eqn:Es.
    + exfalso. exact (lt_str_irrefl s Es).
    + rewrite Forall_forall in F.
      assert (filter (fun y => String.ltb y s) l = []) as ->; [|reflexivity].
      apply filter_none. intros y Hy.
      destruct (String.ltb y s) eqn:Ey; [|reflexivity].
      exfalso. exact (lt_str_asym s y (F y Hy) Ey).
  - rewrite Forall_forall in F.
    assert (Hx : lt_str x s) by (apply F; eapply nth_error_In; eauto).
    unfold lt_str in Hx. rewrite Hx. simpl. f_equal. now apply IH.
Qed.

Lemma rank_of_Permutation (s : string) (l1 l2 : list string) :
  Permutation l1 l2 -> rank_of s l1 = rank_of s l2.
Proof.
  unfold rank_of. induction 1; simpl; try congruence.
  - destruct (String.ltb x s); simpl; congruence.
  - destruct (String.ltb x s), (String.ltb y s); reflexivity.
Qed.

Lemma sorted_str_Permutation (l : list string) : NoDup l -> Permutation (sorted_str l) l.
Proof.
  intros ND. apply NoDup_Permutation; [|assumption|apply sorted_str_In].
  apply sorted_NoDup. now apply sorted_str_sorted.
Qed.

(** *** Dictionaries with distinct keys *)

Section DictNoDup.
Context {K V : Type} `{KeySpec K}.

Lemma dset_fresh (d : list (K * V)) (k : K) (v : V) :
  ~ In k (map fst d) -> dset d k v = d ++ [(k, v)].
Proof.
  induction d as [|[k' v'] d IH]; simpl; intros NI; [reflexivity|].
  rewrite key_eqb_neq by (intros ->; apply NI; now left).
  f_equal. apply IH. intros HIn. apply NI. now right.
Qed.

Lemma dict_fold_NoDup (pairs : list (K * V)) :
  forall acc, NoDup (map fst (acc ++ pairs)) ->
              fold_left (fun d kv => dset d (fst kv) (snd kv)) pairs acc = acc ++ pairs.
Proof.
  induction pairs as [|[k v] pairs IH]; intros acc ND; simpl.
  - now rewrite app_nil_r.
  - rewrite dset_fresh.
    + rewrite IH; rewrite <- app_assoc; [reflexivity | exact ND].
    + rewrite map_app in ND. simpl in ND. apply NoDup_remove_2 in ND.
      intros HIn. apply ND. apply in_or_app. now left.
Qed.

Lemma dict_of_NoDup (pairs : list (K * V)) :
  NoDup (map fst pairs) -> dict_of pairs = pairs.
Proof. intros ND. unfold dict_of. now rewrite dict_fold_NoDup. Qed.

Lemma In_dget (d : list (K * V)) (k : K) (v : V) :
  NoDup (map fst d) -> In (k, v) d -> dget d k = Some v.
Proof.
  induction d as [|[k' v'] d IH]; simpl; intros ND HIn; [contradiction|].
  inversion ND as [|? ? NI ND']; subst. destruct HIn as [E|HIn].
  - injection E as -> ->. now rewrite key_eqb_refl.
  - rewrite key_eqb_neq; [now apply IH|].
    intros ->. apply NI. apply in_map_iff. exists (k', v). auto.
Qed.

Lemma NoDup_keys_dset (d : list (K * V)) (k : K) (v : V) :
  NoDup (map fst d) -> NoDup (map fst (dset d k v)).
Proof.
  intros ND. rewrite keys_dset. destruct (mem k (map fst d)) eqn:E; [assumption|].
  apply mem_false in E. apply NoDup_app; [assumption | repeat constructor; auto |].
  intros x Hx [<-|[]]. contradiction.
Qed.

Lemma In_values_dset (d : list (K * V)) (k : K) (v v' : V) :
  In v' (map snd (dset d k v)) -> v' = v \/ In v' (map snd d).
Proof.
  induction d as [|[k0 v0] d IH]; simpl.
  - intros [<-|[]]. now left.
  - destruct (key_eqb k k0); simpl.
    + intros [<-|HIn]; auto.
    + intros [<-|HIn]; auto. destruct (IH HIn); auto.
Qed.

Lemma NoDup_values_dset (d : list (K * V)) (k : K) (v : V) :
  NoDup (map snd d) -> ~ In v (map snd d) -> NoDup (map snd (dset d k v)).
Proof.
  induction d as [|[k0 v0] d IH]; simpl; intros ND NI.
  - repeat constructor. auto.
  - inversion ND as [|? ? NI0 ND0]; subst. destruct (key_eqb k k0); simpl.
    + constructor; [|assumption]. intros HIn. apply NI. now right.
    + constructor.
      * intros HIn. apply In_values_dset in HIn. destruct HIn as [->|HIn]; [|auto].
        apply NI. now left.
      * apply IH; [assumption|]. intros HIn. apply NI. now right.
Qed.

End DictNoDup.

Lemma map_fst_combine {A B : Type} (l1 : list A) :
  forall l2 : list B, length l1 = length l2 -> map fst (combine l1 l2) = l1.
Proof.
  induction l1 as [|a l1 IH]; intros [|b l2] L; simpl in *; try discriminate;
    [reflexivity|]. f_equal. apply IH. lia.
Qed.

Lemma map_snd_combine {A B : Type} (l1 : list A) :
  forall l2 : list B, length l1 = length l2 -> map snd (combine l1 l2) = l2.
Proof.
  induction l1 as [|a l1 IH]; intros [|b l2] L; simpl in *; try discriminate;
    [reflexivity|]. f_equal. apply IH. lia.
Qed.

Lemma In_combine_nth {A B : Type} (l1 : list A) :
  forall (l2 : list B) (i : nat) (a : A) (b : B),
    nth_error l1 i = Some a -> nth_error l2 i = Some b -> In (a, b) (combine l1 l2).
Proof.
  induction l1 as [|x l1 IH]; intros [|y l2] [|i] a b E1 E2; simpl in *;
    try discriminate.
  - injection E1 as ->. injection E2 as ->. now left.
  - right. now apply (IH l2 i).
Qed.

(** *** The table that [fit] builds *)

Lemma ranked_keys (sounds : list string) : map fst (ranked sounds) = sorted_str sounds.
Proof.
  unfold ranked. apply map_fst_combine.
  now rewrite length_map, length_seq, sorted_str_length.
Qed.

Lemma ranked_values (sounds : list string) :
  map snd (ranked sounds) = map Z.of_nat (seq 2 (length sounds)).
Proof.
  unfold ranked. apply map_snd_combine.
  now rewrite length_map, length_seq, sorted_str_length.
Qed.

Lemma ranked_NoDup_keys (sounds : list string) :
  NoDup sounds -> NoDup (map fst (ranked sounds)).
Proof.
  intros ND. rewrite ranked_keys. apply sorted_NoDup. now apply sorted_str_sorted.
Qed.

Lemma ranked_values_ge (sounds : list string) (v : Z) :
  In v (map snd (ranked sounds)) -> (2 <= v)%Z.
Proof.
  rewrite ranked_values, in_map_iff. intros [n [<- Hn]]. apply in_seq in Hn. lia.
Qed.

Lemma ranked_NoDup_values (sounds : list string) : NoDup (map snd (ranked sounds)).
Proof.
  rewrite ranked_values. apply Finite.Injective_map_NoDup; [|apply seq_NoDup].
  intros a b E. now apply Nat2Z.inj.
Qed.

Lemma ranked_get (sounds : list string) (s : string) :
  NoDup sounds -> In s sounds ->
  dget (ranked sounds) s = Some (Z.of_nat (2 + rank_of s sounds)).
Proof.
  intros ND HIn. apply In_dget; [now apply ranked_NoDup_keys|].
  apply sorted_str_In in HIn. apply In_nth_error in HIn. destruct HIn as [i Ei].
  pose proof (sorted_position _ (sorted_str_sorted sounds ND) i s Ei) as R.
  rewrite (rank_of_Permutation s _ _ (sorted_str_Permutation sounds ND)) in R.
  rewrite R. unfold ranked. apply (In_combine_nth _ _ i); [assumption|].
  assert (Hi : i < length sounds).
  { rewrite <- sorted_str_length. apply nth_error_Some. congruence. }
  rewrite nth_error_map, nth_error_seq.
  destruct (Nat.ltb_spec i (length sounds)); [reflexivity | lia].
Qed.

Lemma make_sound2idx_eq (sounds : list string) (gap missing : string) :
  NoDup sounds ->
  make_sound2idx sounds gap missing = dset (dset (ranked sounds) gap 1%Z) missing 0%Z.
Proof.
  intros ND. unfold make_sound2idx. fold (ranked sounds).
  now rewrite (dict_of_NoDup (ranked sounds) (ranked_NoDup_keys sounds ND)).
Qed.

Lemma sound2idx_keys (sounds : list string) (gap missing s : string) :
  NoDup sounds ->
  (In s (map fst (make_sound2idx sounds gap missing)) <->
   s = missing \/ s = gap \/ In s sounds).
Proof.
  intros ND. rewrite make_sound2idx_eq by assumption.
  rewrite !In_keys_dset, ranked_keys, sorted_str_In. tauto.
Qed.

Lemma sound2idx_NoDup_keys (sounds : list string) (gap missing : string) :
  NoDup sounds -> NoDup (map fst (make_sound2idx sounds gap missing)).
Proof.
  intros ND. rewrite make_sound2idx_eq by assumption.
  apply NoDup_keys_dset, NoDup_keys_dset. now apply ranked_NoDup_keys.
Qed.

(** No two symbols share an index. *)
Lemma sound2idx_NoDup_values (sounds : list string) (gap missing : string) :
  NoDup sounds -> NoDup (map snd (make_sound2idx sounds gap missing)).
Proof.
  intros ND. rewrite make_sound2idx_eq by assumption.
  apply NoDup_values_dset.
  - apply NoDup_values_dset; [apply ranked_NoDup_values|].
    intros HIn. apply ranked_values_ge in HIn. lia.
  - intros HIn. apply In_values_dset in HIn. destruct HIn as [E|HIn]; [discriminate|].
    apply ranked_values_ge in HIn. lia.
Qed.

(** C5, as stated, fails once the gap symbol or the missing sentinel is
    itself among the observed symbols: they take part in the ranking.  The
    table [A = a], [B = a b] gives the observed symbols [a], [-], [b] and
    [a.b]; the three symbols other than the gap are numbered 3, 4, 5 and
    not 2, 3, 4. *)
Lemma sound_alphabet_ranks_gap :
  exists f : fitted,
    (b <- baseline_init ["A";"B"] (load_table ["A";"B"] [("1", [["a"];["a";"b"]])])
                        "Ø" "-" 1 ;;
     @baseline_fit exhaustive_cliques pad_alignment b) = Some f /\
    f_sounds f = ["a"; "-"; "b"; "a.b"] /\
    encode (f_sound2idx f) "a" = 3%Z /\
    claimed_index (f_sounds f) "-" "Ø" "a" = 2%Z /\
    encode (f_sound2idx f) "a.b" = 4%Z /\
    claimed_index (f_sounds f) "-" "Ø" "a.b" = 3%Z /\
    encode (f_sound2idx f) "b" = 5%Z /\
    claimed_index (f_sounds f) "-" "Ø" "b" = 4%Z.
Proof. eexists. split; [vm_compute; reflexivity|]. repeat split. Qed.

(** The indices of the table built from a set of observed symbols. *)
Lemma sound2idx_indices (sounds : list string) (gap missing : string) :
  NoDup sounds ->
  encode (make_sound2idx sounds gap missing) missing = 0%Z /\
  (gap <> missing -> encode (make_sound2idx sounds gap missing) gap = 1%Z) /\
  (forall s, In s sounds -> s <> gap -> s <> missing ->
             encode (make_sound2idx sounds gap missing) s
             = Z.of_nat (2 + rank_of s sounds)) /\
  (forall sounds', NoDup sounds' -> (forall x, In x sounds' <-> In x sounds) ->
                   make_sound2idx sounds' gap missing = make_sound2idx sounds gap missing).
Proof.
  intros ND. unfold encode, dget_or.
  rewrite (make_sound2idx_eq sounds gap missing ND). repeat split.
  - now rewrite dget_dset_same.
  - intros N. rewrite dget_dset_other by congruence. now rewrite dget_dset_same.
  - intros s HIn Ng Nm. rewrite !dget_dset_other by congruence.
    now rewrite ranked_get.
  - intros sounds' ND' Same. rewrite (make_sound2idx_eq sounds' gap missing ND').
    assert (ranked sounds' = ranked sounds) as ->; [|reflexivity].
    unfold ranked. f_equal.
    + apply sorted_unique; try (now apply sorted_str_sorted).
      intros x. rewrite !sorted_str_In. apply Same.
    + f_equal. f_equal. apply Permutation_length. now apply NoDup_Permutation.
Qed.

Lemma idx2sound_eq (sounds : list string) (gap missing : string) :
  NoDup sounds ->
  make_idx2sound (make_sound2idx sounds gap missing)
  = map (fun kv => (snd kv, fst kv)) (make_sound2idx sounds gap missing).
Proof.
  intros ND. unfold make_idx2sound. apply dict_of_NoDup.
  rewrite map_map. simpl. now apply sound2idx_NoDup_values.
Qed.

(** The two tables built from a set of observed symbols are inverse to
    each other. *)
Lemma sound2idx_round_trip :
  forall (sounds : list string) (gap missing unknown : string),
    NoDup sounds ->
    (forall s, In s sounds ->
               decode (make_idx2sound (make_sound2idx sounds gap missing)) unknown
                      (encode (make_sound2idx sounds gap missing) s) = s) /\
    (forall s, ~ In s sounds -> s <> gap -> s <> missing ->
               encode (make_sound2idx sounds gap missing) s = 0%Z) /\
    (forall i, (forall s, dget (make_sound2idx sounds gap missing) s <> Some i) ->
               decode (make_idx2sound (make_sound2idx sounds gap missing)) unknown i
               = unknown).
Proof.
  intros sounds gap missing unknown ND.
  pose proof (sound2idx_NoDup_keys sounds gap missing ND) as NK.
  pose proof (sound2idx_NoDup_values sounds gap missing ND) as NV.
  rewrite (idx2sound_eq sounds gap missing ND).
  set (s2i := make_sound2idx sounds gap missing) in *.
  assert (NK' : NoDup (map fst (map (fun kv : string * Z => (snd kv, fst kv)) s2i))).
  { rewrite map_map. exact NV. }
  unfold encode, decode, dget_or. repeat split.
  - intros s HIn.
    destruct (dget_In_keys s2i s) as [v Ev].
    { apply sound2idx_keys; auto. }
    rewrite Ev. apply dget_Some_In in Ev.
    rewrite (In_dget _ v s NK'); [reflexivity|].
    apply in_map_iff. exists (s, v). auto.
  - intros s NI Ng Nm.
    assert (E : dget s2i s = None).
    { apply dget_None_iff. intros HIn. apply sound2idx_keys in HIn; [|assumption].
      tauto. }
    now rewrite E.
  - intros i Hi.
    assert (E : dget (map (fun kv : string * Z => (snd kv, fst kv)) s2i) i = None).
    { apply dget_None_iff. rewrite map_map. simpl. intros HIn.
      apply in_map_iff in HIn. destruct HIn as [[s v] [E HIn]]. simpl in E. subst v.
      apply (Hi s). now apply In_dget. }
    now rewrite E.
Qed.

(** ** The classifier *)

(** *** The reference enumeration meets the interface *)

Lemma sublists_incl {A : Type} (l : list A) :
  forall c x, In c (sublists l) -> In x c -> In x l.
Proof.
  induction l as [|a l IH]; intros c x Hc Hx; simpl in *.
  - destruct Hc as [<-|[]]. contradiction.
  - apply in_app_or in Hc. destruct Hc as [Hc|Hc].
    + apply in_map_iff in Hc. destruct Hc as [c' [<- Hc']].
      destruct Hx as [->|Hx]; [now left | right; eauto].
    + right. eauto.
Qed.

#[global] Instance exhaustive_cliques_laws : @CliqueEnumerationLaws exhaustive_cliques.
Proof.
  split; unfold find_cliques, exhaustive_cliques, maximal_cliques.
  - intros g E. rewrite E. reflexivity.
  - intros g c Hc ->. apply filter_In in Hc. destruct Hc as [_ Hc]. discriminate.
  - intros g c p Hc Hp. apply filter_In in Hc. destruct Hc as [Hc _].
    eapply sublists_incl; eauto.
Qed.

(** *** Degenerate training sets *)

Lemma group_rows_single (t : tuple) (y : list Z) (X : list (list Z)) :
  forall (i : nat) (P : list (tuple * list nat)),
    (forall k row, nth_error X k = Some row ->
                   exists v, nth_error y (i + k) = Some v /\ row ++ [v] = t) ->
    (P = [] \/ exists l, P = [(t, l)]) ->
    exists P', group_rows (enumerate_from i X) y P = Some P' /\
               (P' = [] \/ exists l, P' = [(t, l)]).
Proof.
  induction X as [|row X IH]; intros i P Hrows HP; simpl.
  - eauto.
  - destruct (Hrows 0 row eq_refl) as [v [Ev Et]]. rewrite Nat.add_0_r in Ev.
    rewrite Ev. simpl. rewrite Et. apply IH.
    + intros k row' Hk. destruct (Hrows (S k) row' Hk) as [v' [Ev' Et']].
      exists v'. split; [|assumption]. now rewrite Nat.add_succ_comm.
    + right. destruct HP as [->|[l ->]]; simpl.
      * eauto.
      * rewrite (key_eqb_refl t). eauto.
Qed.

Lemma search_no_index (row : tuple) : search [] row = ([], []).
Proof.
  unfold search. generalize (seq 0 (length row - 1)). intros l.
  induction l as [|i l IH]; simpl; [reflexivity|].
  unfold search_position at 2. destruct (nth_error row i) as [v|]; [|exact IH].
  destruct (Z.eqb v 0); exact IH.
Qed.

(** C9: a training set with at most one distinct (pattern, target) tuple,
    the empty one included, is fitted without error to an empty graph and
    an empty prediction table, and every later prediction returns 0, the
    missing sentinel, for every row. *)
Theorem fit_degenerate :
  forall (H : CliqueEnumeration) (HL : CliqueEnumerationLaws)
         (threshold : Z) (X : list (list Z)) (y : list Z),
    length X = length y ->
    (forall t t', In t (tuples X y) -> In t' (tuples X y) -> t = t') ->
    exists c : classifier,
      fit (new_classifier threshold) X y = Some c /\
      G c = empty_graph /\
      predictions c = [] /\
      forall matrix : list tuple,
        predict c matrix = Some (map (fun _ => 0%Z) matrix, c).
Proof.
  intros H HL threshold X y L One.
  set (t := match X, y with row :: _, v :: _ => row ++ [v] | _, _ => [] end).
  destruct (group_rows_single t y X 0 []) as [P [EP HP]]; [|now left|].
  { intros k row Hk. simpl.
    assert (Hlt : k < length y) by (rewrite <- L; apply nth_error_Some; congruence).
    destruct (nth_error y k) as [v|] eqn:Ev; [|apply nth_error_None in Ev; lia].
    exists v. split; [reflexivity|].
    assert (HIn : In (row ++ [v]) (tuples X y)).
    { unfold tuples. apply in_map_iff. exists (row, v). split; [reflexivity|].
      now apply (In_combine_nth X y k). }
    apply (One _ _ HIn). unfold tuples, t.
    destruct X as [|row0 X]; [destruct k; discriminate|].
    destruct y as [|v0 y]; [destruct k; discriminate|]. simpl. now left. }
  exists (mk_classifier empty_graph threshold [] [] [] []).
  assert (Ec : combinations2 P = []).
  { destruct HP as [->|[l ->]]; reflexivity. }
  split.
  - unfold fit, enumerate. rewrite EP. simpl. rewrite Ec. simpl.
    rewrite find_cliques_empty by reflexivity. reflexivity.
  - split; [reflexivity|]. split; [reflexivity|].
    induction matrix as [|row matrix IH]; simpl; [reflexivity|].
    unfold predict_row. simpl. rewrite search_no_index. simpl.
    rewrite IH. reflexivity.
Qed.

Lemma fit_degenerate_witness :
  length [[6; 6]; [6; 6]]%Z = length [3; 3]%Z /\
  (forall t t', In t (tuples [[6; 6]; [6; 6]]%Z [3; 3]%Z) ->
                In t' (tuples [[6; 6]; [6; 6]]%Z [3; 3]%Z) -> t = t') /\
  exists c : classifier,
    @fit exhaustive_cliques (new_classifier 1) [[6; 6]; [6; 6]]%Z [3; 3]%Z = Some c /\
    G c = empty_graph /\
    predictions c = [] /\
    forall matrix : list tuple,
      predict c matrix = Some (map (fun _ => 0%Z) matrix, c).
Proof.
  assert (One : forall t t', In t (tuples [[6; 6]; [6; 6]]%Z [3; 3]%Z) ->
                             In t' (tuples [[6; 6]; [6; 6]]%Z [3; 3]%Z) -> t = t').
  { simpl. intuition congruence. }
  split; [reflexivity|]. split; [exact One|].
  exact (fit_degenerate exhaustive_cliques exhaustive_cliques_laws 1
                        [[6; 6]; [6; 6]]%Z [3; 3]%Z eq_refl One).
Defined.

(** Without training data at all. *)
Example fit_without_data :
  exists c : classifier,
    @fit exhaustive_cliques (new_classifier 1) [] [] = Some c /\
    predict c [[6; 6]; [0; 2]]%Z = Some ([0; 0]%Z, c).
Proof. eexists. split; reflexivity. Qed.

(** ** The rules of the classifier *)

Ltac inv_bind H :=
  match type of H with
  | obind ?e _ = Some _ =>
      let E := fresh "E" in destruct e eqn:E; simpl in H; [|discriminate H]
  end.

(** *** The first entry of a descending stable sort *)

Lemma hd_insert_desc {A : Type} (key : A -> Z) (x : A) (l : list A) :
  hd_error (insert_desc key x l)
  = match hd_error l with
    | Some y => if (key x <? key y)%Z then Some y else Some x
    | None => Some x
    end.
Proof.
  destruct l as [|y l]; simpl; [reflexivity|]. now destruct (key x <? key y)%Z.
Qed.

Lemma hd_sorted_desc_first_max {A : Type} (key : A -> Z) (l : list A) (x : A) :
  hd_error (sorted_desc key l) = Some x -> first_max key l x.
Proof.
  revert x. induction l as [|a l IH]; intros x E; simpl in E; [discriminate|].
  rewrite hd_insert_desc in E.
  destruct (hd_error (sorted_desc key l)) as [y|] eqn:Ey.
  - destruct (IH y eq_refl) as [before [after [El [Hb Ha]]]].
    destruct (Z.ltb_spec (key a) (key y)).
    + injection E as <-. exists (a :: before), after. rewrite El. split; [reflexivity|].
      split; [|assumption]. intros z [<-|Hz]; [assumption | now apply Hb].
    + injection E as <-. exists [], l. split; [reflexivity|].
      split; [intros ? []|]. intros z Hz. rewrite El in Hz.
      apply in_app_or in Hz. destruct Hz as [Hz|[<-|Hz]].
      * specialize (Hb z Hz). lia.
      * assumption.
      * specialize (Ha z Hz). lia.
  - injection E as <-. destruct l as [|b l].
    + exists [], []. split; [reflexivity|]. split; intros ? [].
    + exfalso. simpl in Ey. rewrite hd_insert_desc in Ey.
      destruct (hd_error (sorted_desc key l)); [destruct (key b <? key _)%Z|];
        discriminate.
Qed.

Lemma hd_sorted_desc_total {A : Type} (key : A -> Z) (l : list A) :
  l <> [] -> exists x, hd_error (sorted_desc key l) = Some x.
Proof.
  destruct l as [|a l]; [contradiction|]. intros _. simpl. rewrite hd_insert_desc.
  destruct (hd_error (sorted_desc key l)) as [y|]; [|eauto].
  destruct (key a <? key y)%Z; eauto.
Qed.

Lemma hd_error_map {A B : Type} (f : A -> B) (l : list A) :
  hd_error (map f l) = option_map f (hd_error l).
Proof. now destruct l. Qed.

Lemma best_of_first_max {A : Type} (items : list (A * Z)) (k : A) :
  best_of items = Some k -> exists v, first_max snd items (k, v).
Proof.
  unfold best_of. rewrite hd_error_map.
  destruct (hd_error (sorted_desc snd items)) as [[k' v]|] eqn:E; [|discriminate].
  simpl. intros [= <-]. exists v. now apply hd_sorted_desc_first_max.
Qed.

Lemma best_of_total {A : Type} (items : list (A * Z)) :
  items <> [] -> exists k, best_of items = Some k.
Proof.
  intros N. destruct (hd_sorted_desc_total snd items N) as [[k v] E].
  exists k. unfold best_of. now rewrite hd_error_map, E.
Qed.

Lemma first_max_In {A : Type} (score : A -> Z) (l : list A) (x : A) :
  first_max score l x -> In x l.
Proof. intros [b [a [-> _]]]. apply in_or_app. right. now left. Qed.

Lemma best_of_In {A : Type} (items : list (A * Z)) (k : A) :
  best_of items = Some k -> In k (map fst items).
Proof.
  intros E. destruct (best_of_first_max items k E) as [v F].
  apply first_max_In in F. apply in_map_iff. exists (k, v). auto.
Qed.

Lemma weighted_keys {A : Type} (inner : list (A * nat)) :
  map fst (weighted inner) = map fst inner.
Proof. unfold weighted. rewrite map_map. reflexivity. Qed.

Lemma weighted_nil {A : Type} (inner : list (A * nat)) : weighted inner = [] -> inner = [].
Proof. now destruct inner. Qed.

(** *** More on dictionaries *)

Section DictEntries.
Context {K V : Type} `{KeySpec K}.

Lemma In_dset (d : list (K * V)) (k k' : K) (v v' : V) :
  In (k', v') (dset d k v) -> v' = v \/ In (k', v') d.
Proof.
  induction d as [|[k0 v0] d IH]; simpl.
  - intros [E|[]]. injection E as <- <-. now left.
  - destruct (key_eqb k k0); simpl.
    + intros [E|HIn]; [injection E as <- <-; now left | right; now right].
    + intros [E|HIn]; [right; now left|]. destruct (IH HIn); [now left | right; now right].
Qed.

Lemma dset_not_nil (d : list (K * V)) (k : K) (v : V) : dset d k v <> [].
Proof.
  destruct d as [|[k0 v0] d]; simpl; [discriminate|].
  destruct (key_eqb k k0); discriminate.
Qed.

Lemma dget_or_dset_same (d : list (K * V)) (k : K) (v dflt : V) :
  dget_or (dset d k v) k dflt = v.
Proof. unfold dget_or. now rewrite dget_dset_same. Qed.

Lemma dget_or_dset_other (d : list (K * V)) (k k' : K) (v dflt : V) :
  k <> k' -> dget_or (dset d k v) k' dflt = dget_or d k' dflt.
Proof. intros N. unfold dget_or. now rewrite dget_dset_other. Qed.


Lemma keys_dset_set_add (d : list (K * V)) (k : K) (v : V) :
  map fst (dset d k v) = set_add (map fst d) k.
Proof. rewrite keys_dset. reflexivity. Qed.

End DictEntries.

Lemma keep_first_snoc {K : Type} `{Key K} (l : list K) (x : K) :
  keep_first (l ++ [x]) = set_add (keep_first l) x.
Proof. unfold keep_first. now rewrite fold_left_app. Qed.

Lemma set_add_In {K : Type} `{KeySpec K} (s : list K) (x y : K) :
  In y (set_add s x) <-> y = x \/ In y s.
Proof.
  unfold set_add. destruct (mem x s) eqn:E.
  - apply mem_In in E. split; [tauto|]. intros [->|]; assumption.
  - rewrite in_app_iff. simpl. intuition.
Qed.

Lemma set_add_NoDup {K : Type} `{KeySpec K} (s : list K) (x : K) :
  NoDup s -> NoDup (set_add s x).
Proof.
  intros ND. unfold set_add. destruct (mem x s) eqn:E; [assumption|].
  apply mem_false in E. apply NoDup_app; [assumption | repeat constructor; auto |].
  intros y Hy [<-|[]]. contradiction.
Qed.

Lemma fold_set_add_NoDup {K : Type} `{KeySpec K} (l s : list K) :
  NoDup s -> NoDup (fold_left set_add l s).
Proof.
  revert s. induction l as [|x l IH]; intros s ND; simpl; [assumption|].
  apply IH. now apply set_add_NoDup.
Qed.

Lemma fold_set_add_In {K : Type} `{KeySpec K} (l s : list K) (y : K) :
  In y (fold_left set_add l s) <-> In y s \/ In y l.
Proof.
  revert s. induction l as [|x l IH]; intros s; simpl; [tauto|].
  rewrite IH, set_add_In. intuition.
Qed.

Lemma keep_first_In {K : Type} `{KeySpec K} (l : list K) (y : K) :
  In y (keep_first l) <-> In y l.
Proof. unfold keep_first. rewrite fold_set_add_In. simpl. tauto. Qed.

Lemma keep_first_NoDup {K : Type} `{KeySpec K} (l : list K) : NoDup (keep_first l).
Proof. apply fold_set_add_NoDup. constructor. Qed.

(** *** What the clique loop records *)

Lemma rules_of_snoc (rules : list (tuple * Z * nat)) (r : tuple * Z * nat) (p : tuple) :
  rules_of (rules ++ [r]) p
  = if key_eqb (rule_source r) p then rules_of rules p ++ [r] else rules_of rules p.
Proof.
  unfold rules_of. rewrite filter_app. simpl.
  destruct (key_eqb (rule_source r) p); [reflexivity | now rewrite app_nil_r].
Qed.

Lemma targets_of_snoc (rules : list (tuple * Z * nat)) (r : tuple * Z * nat) (p : tuple) :
  targets_of (rules ++ [r]) p
  = if key_eqb (rule_source r) p then set_add (targets_of rules p) (rule_target r)
    else targets_of rules p.
Proof.
  unfold targets_of. rewrite rules_of_snoc.
  destruct (key_eqb (rule_source r) p); [|reflexivity].
  rewrite map_app. cbn [map]. apply keep_first_snoc.
Qed.

Lemma recorded_opt_snoc (rules : list (tuple * Z * nat)) (r : tuple * Z * nat)
  (p : tuple) (t : Z) :
  recorded_opt (rules ++ [r]) p t
  = if key_eqb (rule_source r) p && key_eqb (rule_target r) t then Some (rule_size r)
    else recorded_opt rules p t.
Proof.
  unfold recorded_opt. rewrite rev_app_distr. simpl.
  now destruct (key_eqb (rule_source r) p && key_eqb (rule_target r) t).
Qed.

(** The table [self.patterns] after the clique loop. *)
Lemma patterns_of_rules (rules : list (tuple * Z * nat)) :
  NoDup (map fst (fold_left add_rule rules [])) /\
  (forall p, In p (map fst (fold_left add_rule rules [])) <->
             In p (map rule_source rules)) /\
  (forall p, map fst (dget_or (fold_left add_rule rules []) p [])
             = targets_of rules p) /\
  (forall p t, dget (dget_or (fold_left add_rule rules []) p []) t
               = recorded_opt rules p t) /\
  (forall p inner, In (p, inner) (fold_left add_rule rules []) -> inner <> []).
Proof.
  induction rules as [|r rules IH] using rev_ind.
  - simpl. repeat split; try constructor; try tauto; intros; try reflexivity.
  - destruct IH as [ND [Keys [Tg [Rec NE]]]]. rewrite fold_left_app. simpl.
    set (pt := fold_left add_rule rules []) in *. unfold add_rule.
    split; [now apply NoDup_keys_dset|].
    split.
    { intros p. rewrite In_keys_dset, Keys, map_app, in_app_iff. simpl.
      intuition. }
    split.
    { intros p. rewrite targets_of_snoc.
      destruct (key_eqb (rule_source r) p) eqn:E.
      - apply key_eqb_eq in E. subst p. rewrite dget_or_dset_same.
        now rewrite keys_dset_set_add, Tg.
      - rewrite dget_or_dset_other; [apply Tg|].
        intros <-. now rewrite key_eqb_refl in E. }
    split.
    { intros p t. rewrite recorded_opt_snoc.
      destruct (key_eqb (rule_source r) p) eqn:E; simpl.
      - apply key_eqb_eq in E. subst p. rewrite dget_or_dset_same.
        destruct (key_eqb (rule_target r) t) eqn:Et.
        + apply key_eqb_eq in Et. subst t. apply dget_dset_same.
        + rewrite dget_dset_other; [apply Rec|].
          intros <-. now rewrite key_eqb_refl in Et.
      - rewrite dget_or_dset_other; [apply Rec|].
        intros <-. now rewrite key_eqb_refl in E. }
    intros p inner HIn. apply In_dset in HIn. destruct HIn as [->|HIn].
    + apply dset_not_nil.
    + now apply (NE p).
Qed.

(** *** The two loops that fill [self.predictions] *)

Lemma direct_rules_spec (items : patterns_t) :
  forall preds : list (tuple * Z),
    (forall p inner, In (p, inner) items -> inner <> []) ->
    exists preds',
      direct_rules items preds = Some preds' /\
      (forall p, In p (map fst preds') <-> In p (map fst preds) \/ In p (map fst items)) /\
      (forall p, ~ In p (map fst items) -> dget preds' p = dget preds p) /\
      (NoDup (map fst items) ->
       forall p inner, In (p, inner) items ->
                       exists t, best_of (weighted inner) = Some t /\ dget preds' p = Some t).
Proof.
  induction items as [|[q inner0] items IH]; intros preds NE; simpl.
  - exists preds. split; [reflexivity|]. split; [tauto|]. split; [reflexivity|].
    intros _ p inner [].
  - destruct (best_of_total (weighted inner0)) as [t0 Et0].
    { intros E. apply weighted_nil in E. revert E. apply (NE q). now left. }
    rewrite Et0. simpl.
    destruct (IH (dset preds q t0)) as [preds' [E [Keys [Out Hit]]]].
    { intros p inner HIn. apply (NE p). now right. }
    exists preds'. split; [exact E|]. split.
    { intros p. rewrite Keys, In_keys_dset. intuition. }
    split.
    { intros p NI. rewrite Out by tauto. apply dget_dset_other. intros ->. tauto. }
    intros ND p inner [HIn|HIn].
    + injection HIn as -> ->. exists t0. split; [assumption|].
      inversion ND; subst. rewrite Out by assumption. apply dget_dset_same.
    + inversion ND; subst. now apply Hit.
Qed.

Lemma resolve_lookup_spec (items : lookup_t) :
  forall preds : list (tuple * Z),
    (forall q inner, In (q, inner) items ->
                     inner <> [] /\ forall s, In s (map fst inner) -> In s (map fst preds)) ->
    exists preds',
      resolve_lookup items preds = Some preds' /\
      (forall p, In p (map fst preds) -> In p (map fst preds')) /\
      (forall p, ~ In p (map fst items) -> dget preds' p = dget preds p).
Proof.
  induction items as [|[q inner0] items IH]; intros preds WF; simpl.
  - exists preds. auto.
  - destruct (WF q inner0 (or_introl eq_refl)) as [NE Sub].
    destruct (best_of_total (weighted inner0)) as [s Es].
    { intros E. apply weighted_nil in E. contradiction. }
    rewrite Es. simpl.
    destruct (dget_In_keys preds s) as [t Et].
    { apply Sub. rewrite <- weighted_keys. now apply best_of_In. }
    rewrite Et. simpl.
    destruct (IH (dset preds q t)) as [preds' [E [Keys Out]]].
    { intros q' inner HIn. destruct (WF q' inner (or_intror HIn)) as [NE' Sub'].
      split; [assumption|]. intros s' Hs'. apply In_keys_dset. right. now apply Sub'. }
    exists preds'. split; [exact E|]. split.
    + intros p Hp. apply Keys. apply In_keys_dset. now right.
    + intros p NI. rewrite Out by tauto. apply dget_dset_other. intros ->. tauto.
Qed.

(** *** [fit] runs to its end on rows of one width *)

Lemma group_rows_total (w : nat) (y : list Z) (X : list (list Z)) :
  forall (i : nat) (P : list (tuple * list nat)),
    (forall k, k < length X -> i + k < length y) ->
    Forall (fun row => length row = w) X ->
    (forall key, In key (map fst P) -> length key = S w) ->
    exists P', group_rows (enumerate_from i X) y P = Some P' /\
               (forall key, In key (map fst P') -> length key = S w).
Proof.
  induction X as [|row X IH]; intros i P Hy F HP; simpl.
  - eauto.
  - inversion F as [|? ? Lrow F']; subst.
    destruct (nth_error y i) as [t|] eqn:Et.
    2:{ apply nth_error_None in Et. specialize (Hy 0). simpl in Hy. lia. }
    simpl. apply IH; [|assumption|].
    + intros k Hk. specialize (Hy (S k)). simpl in Hy. lia.
    + intros key HIn. apply In_keys_dset in HIn. destruct HIn as [->|HIn]; [|auto].
      rewrite length_app. simpl. lia.
Qed.

Lemma combinations2_In {A : Type} (l : list A) (a b : A) :
  In (a, b) (combinations2 l) -> In a l /\ In b l.
Proof.
  induction l as [|x l IH]; simpl; [tauto|]. intros HIn.
  apply in_app_or in HIn. destruct HIn as [HIn|HIn].
  - apply in_map_iff in HIn. destruct HIn as [z [E Hz]]. injection E as -> ->. auto.
  - destruct (IH HIn). auto.
Qed.

Lemma add_node_nodes (g : graph) (q : tuple) (freq : nat) (p : tuple) :
  In p (map fst (g_nodes (add_node g q freq))) -> p = q \/ In p (map fst (g_nodes g)).
Proof.
  unfold add_node. destruct (mem q (map fst (g_nodes g))); simpl; [auto|].
  rewrite map_app, in_app_iff. simpl. intuition.
Qed.

Lemma add_pair_nodes (th : Z) (g : graph) (ab : (tuple * list nat) * (tuple * list nat))
  (p : tuple) :
  In p (map fst (g_nodes (add_pair th g ab))) ->
  In p (map fst (g_nodes g)) \/ p = fst (fst ab) \/ p = fst (snd ab).
Proof.
  unfold add_pair. destruct ab as [[pA vA] [pB vB]]. simpl.
  destruct (compatible pA pB) as [m mm].
  destruct (Nat.eqb mm 0 && (th <=? Z.of_nat m)%Z); [|auto].
  unfold add_edge. simpl. intros HIn.
  apply add_node_nodes in HIn. destruct HIn as [->|HIn]; [auto|].
  apply add_node_nodes in HIn. destruct HIn as [->|HIn]; auto.
Qed.

Lemma fold_add_pair_nodes (th : Z) (pairs : list ((tuple * list nat) * (tuple * list nat))) :
  forall (g : graph) (p : tuple),
    In p (map fst (g_nodes (fold_left (add_pair th) pairs g))) ->
    In p (map fst (g_nodes g)) \/
    exists ab, In ab pairs /\ (p = fst (fst ab) \/ p = fst (snd ab)).
Proof.
  induction pairs as [|ab pairs IH]; intros g p HIn; simpl in *; [auto|].
  apply IH in HIn. destruct HIn as [HIn|[ab' [Hab Hp]]].
  - apply add_pair_nodes in HIn. destruct HIn as [HIn|Hp]; [auto|].
    right. exists ab. auto.
  - right. exists ab'. auto.
Qed.

Lemma first_known_total (n i : nat) (nodes : list tuple) :
  Forall (fun node => length node = n) nodes -> i < n ->
  exists r, first_known i nodes = Some r.
Proof.
  intros F Hi. induction F as [|node nodes L _ IH]; simpl; [eauto|].
  destruct (nth_error node i) as [v|] eqn:E.
  - simpl. destruct (Z.eqb v 0); eauto.
  - apply nth_error_None in E. lia.
Qed.

Lemma consensus_at_total (n : nat) (nodes : list tuple) (positions : list nat) :
  Forall (fun node => length node = n) nodes ->
  Forall (fun i => i < n) positions ->
  exists cons, consensus_at nodes positions = Some cons /\
               length cons = length positions.
Proof.
  intros F Hp. induction Hp as [|i positions Hi _ IH]; simpl; [eauto|].
  destruct (first_known_total n i nodes F Hi) as [r Er]. rewrite Er. simpl.
  destruct IH as [cons [Ec Lc]]. rewrite Ec. simpl. eexists. split; [reflexivity|].
  simpl. now rewrite Lc.
Qed.

Lemma last_opt_total {A : Type} (l : list A) : l <> [] -> exists x, last_opt l = Some x.
Proof.
  induction l as [|a l IH]; [contradiction|]. intros _. simpl.
  destruct l as [|b l]; [eauto|]. apply IH. discriminate.
Qed.

Lemma clique_rule_total (w : nat) (nodes : list tuple) :
  nodes <> [] -> Forall (fun node => length node = S w) nodes ->
  exists r, clique_rule nodes = Some r.
Proof.
  intros N F. unfold clique_rule, consensus.
  destruct nodes as [|node0 nodes]; [contradiction|]. simpl.
  assert (L0 : length node0 = S w) by (inversion F; assumption).
  destruct (consensus_at_total (S w) (node0 :: nodes) (seq 0 (length node0)) F)
    as [cons [Ec Lc]].
  { rewrite L0. apply seq_below. }
  rewrite Ec. simpl.
  destruct (last_opt_total cons) as [t Et].
  { intros ->. rewrite length_seq, L0 in Lc. discriminate. }
  rewrite Et. simpl. eauto.
Qed.

Lemma clique_rules_total (w : nat) (cliques : list (list tuple)) :
  Forall (fun nodes => nodes <> [] /\ Forall (fun node => length node = S w) nodes) cliques ->
  exists rules, clique_rules cliques = Some rules.
Proof.
  induction 1 as [|nodes cliques [N F] _ [rules IH]]; simpl; [eauto|].
  destruct (clique_rule_total w nodes N F) as [r Er]. rewrite Er, IH. simpl. eauto.
Qed.

Lemma record_clique_rule (st : patterns_t * lookup_t) (nodes : list tuple) :
  record_clique st nodes
  = (r <- clique_rule nodes ;;
     Some (add_rule (fst st) r,
           fold_left (lookup_add (rule_source r) (rule_size r)) nodes (snd st))).
Proof.
  unfold record_clique, clique_rule.
  destruct (consensus nodes) as [cons|]; simpl; [|reflexivity].
  destruct (last_opt cons) as [t|]; reflexivity.
Qed.

Lemma lookup_add_spec (S : tuple -> Prop) (src : tuple) (n : nat) (nodes : list tuple) :
  S src ->
  forall lk : lookup_t,
    lookup_entries_in S lk ->
    lookup_entries_in S (fold_left (lookup_add src n) nodes lk) /\
    (forall q, In q (map fst (fold_left (lookup_add src n) nodes lk)) <->
               In q (map fst lk) \/ In q (map (@removelast Z) nodes)).
Proof.
  intros HS. induction nodes as [|node nodes IH]; intros lk WF; simpl.
  - split; [assumption | tauto].
  - destruct (IH (lookup_add src n lk node)) as [WF' Keys].
    + unfold lookup_add. intros q inner HIn. apply In_dset in HIn.
      destruct HIn as [->|HIn]; [|now apply (WF q)].
      split; [apply dset_not_nil|]. intros s Hs. apply In_keys_dset in Hs.
      destruct Hs as [->|Hs]; [assumption|].
      unfold dget_or in Hs.
      destruct (dget lk (removelast node)) as [inner0|] eqn:E; [|contradiction].
      apply dget_Some_In in E. now apply (WF _ _ E).
    + split; [assumption|]. intros q. rewrite Keys. unfold lookup_add.
      rewrite In_keys_dset. intuition.
Qed.

Lemma record_cliques_spec (S : tuple -> Prop) (cliques : list (list tuple)) :
  forall (rules : list (tuple * Z * nat)) (st : patterns_t * lookup_t),
    clique_rules cliques = Some rules ->
    (forall r, In r rules -> S (rule_source r)) ->
    lookup_entries_in S (snd st) ->
    exists st',
      record_cliques cliques st = Some st' /\
      fst st' = fold_left add_rule rules (fst st) /\
      lookup_entries_in S (snd st') /\
      (forall q, In q (map fst (snd st')) <->
                 In q (map fst (snd st)) \/ In q (member_sources cliques)).
Proof.
  induction cliques as [|nodes cliques IH]; intros rules st E HS WF; simpl in *.
  - injection E as <-. exists st. split; [reflexivity|]. split; [reflexivity|].
    split; [assumption|]. intros q. unfold member_sources. simpl. tauto.
  - inv_bind E. inv_bind E. injection E as <-.
    rewrite record_clique_rule, E0. simpl.
    destruct (lookup_add_spec S (rule_source p) (rule_size p) nodes
                              (HS p (or_introl eq_refl)) (snd st) WF) as [WF1 K1].
    assert (HS' : forall r, In r l -> S (rule_source r)) by (intros r Hr; apply HS; now right).
    destruct (IH l (add_rule (fst st) p,
                    fold_left (lookup_add (rule_source p) (rule_size p)) nodes (snd st))
                 eq_refl HS' WF1) as [st' [Er [Ef [WF' K']]]].
    exists st'. split; [exact Er|]. split; [exact Ef|]. split; [exact WF'|].
    intros q. rewrite K'. simpl. rewrite K1. unfold member_sources. simpl.
    rewrite map_app, in_app_iff. tauto.
Qed.



(** The pattern (5, 0) is the consensus source of one clique only, with
    target 7, and it is also the source pattern of members of two larger
    cliques whose consensus source is (5, 6).  Its final entry is 8 whatever
    the order in which the three cliques and their members are enumerated. *)
Example rule_target_overwritten_in_every_order :
  forallb (fun cliques =>
             match @fit (fun _ => cliques) (new_classifier 1) overlap_X overlap_y with
             | Some c => match dget (predictions c) [5; 0]%Z with
                         | Some t => Z.eqb t 8
                         | None => false
                         end
             | None => false
             end)
          (enumerations overlap_cliques) = true /\
  length (enumerations overlap_cliques) = 432.
Proof. split; vm_compute; reflexivity. Qed.

(** ** The fallback search *)

Lemma scored_app (row : tuple) (l1 l2 : list tuple) :
  scored row (l1 ++ l2) = scored row l1 ++ scored row l2.
Proof. unfold scored. apply flat_map_app. Qed.

(** The loop over one index entry adds the patterns not yet visited. *)
Lemma visit_bucket (row : tuple) (B : list tuple) :
  forall V : list tuple,
    fold_left (visit row) B (scored row V, V)
    = (scored row (fold_left set_add B V), fold_left set_add B V).
Proof.
  induction B as [|p B IH]; intros V; simpl; [reflexivity|].
  unfold visit at 2. simpl. unfold set_add at 2 4.
  destruct (mem p V); [apply IH|].
  rewrite <- IH. f_equal. f_equal. rewrite scored_app. unfold scored at 3. simpl.
  destruct (score row p); [reflexivity | now rewrite app_nil_r].
Qed.

Lemma search_position_bucket (lk : ptnlkp_t) (row : tuple) (st : search_state) (i : nat) :
  search_position lk row st i = fold_left (visit row) (bucket lk row i) st.
Proof.
  unfold search_position, bucket. destruct (nth_error row i) as [v|]; [|reflexivity].
  now destruct (Z.eqb v 0).
Qed.

Lemma search_positions (lk : ptnlkp_t) (row : tuple) (positions : list nat) :
  forall V : list tuple,
    fold_left (search_position lk row) positions (scored row V, V)
    = (scored row (fold_left set_add (flat_map (bucket lk row) positions) V),
       fold_left set_add (flat_map (bucket lk row) positions) V).
Proof.
  induction positions as [|i positions IH]; intros V; simpl; [reflexivity|].
  rewrite search_position_bucket, visit_bucket, IH, fold_left_app. reflexivity.
Qed.

(** The nested loops of the search visit, each once and in the order of
    their first listing, the patterns that the index lists under the
    non-missing positions of the query before the last one. *)
Lemma search_spec (lk : ptnlkp_t) (row : tuple) :
  search lk row
  = (scored row (keep_first (flat_map (bucket lk row) (seq 0 (length row - 1)))),
     keep_first (flat_map (bucket lk row) (seq 0 (length row - 1)))).
Proof. unfold search. apply (search_positions lk row _ []). Qed.

Lemma compatible_step_bound (acc : nat * nat) (ab : Z * Z) :
  fst (compatible_step acc ab) + snd (compatible_step acc ab) <= S (fst acc + snd acc).
Proof.
  unfold compatible_step. destruct (Z.eqb (fst ab) 0 || Z.eqb (snd ab) 0); [lia|].
  destruct (Z.eqb (fst ab) (snd ab)); simpl; lia.
Qed.

Lemma compatible_fold_bound (l : list (Z * Z)) :
  forall acc, fst (fold_left compatible_step l acc) + snd (fold_left compatible_step l acc)
              <= fst acc + snd acc + length l.
Proof.
  induction l as [|ab l IH]; intros acc; simpl; [lia|].
  specialize (IH (compatible_step acc ab)).
  pose proof (compatible_step_bound acc ab). lia.
Qed.

(** Matches and mismatches are counted over positions of the query. *)
Lemma compatible_bound (ptA ptB : tuple) :
  fst (compatible ptA ptB) + snd (compatible ptA ptB) <= length ptA.
Proof.
  unfold compatible. pose proof (compatible_fold_bound (combine ptA ptB) (0, 0)) as B.
  simpl in B. rewrite length_combine in B. lia.
Qed.

(** The two scoring branches, and the candidates that are dropped. *)
Lemma score_cases (row ptnB : tuple) (s : Z) :
  score row ptnB = Some s <->
  (0 < fst (compatible row ptnB) /\ snd (compatible row ptnB) = 0 /\
   s = (Z.of_nat (fst (compatible row ptnB)) + Z.of_nat (length row))%Z) \/
  (snd (compatible row ptnB) <> 0 /\
   fst (compatible row ptnB) <> snd (compatible row ptnB) /\
   s = (Z.of_nat (fst (compatible row ptnB)) - Z.of_nat (snd (compatible row ptnB)))%Z).
Proof.
  unfold score. destruct (compatible row ptnB) as [m mm]. cbn [fst snd].
  destruct (negb (Nat.eqb m 0) && Nat.eqb mm 0) eqn:C1.
  - apply andb_true_iff in C1. destruct C1 as [C1 C2].
    apply negb_true_iff, Nat.eqb_neq in C1. apply Nat.eqb_eq in C2. split.
    + intros [= <-]. left. repeat split; [lia | assumption].
    + intros [[_ [_ ->]]|[? _]]; [reflexivity | contradiction].
  - assert (C : m = 0 \/ mm <> 0).
    { apply andb_false_iff in C1. destruct C1 as [C1|C1].
      - left. apply negb_false_iff in C1. now apply Nat.eqb_eq.
      - right. now apply Nat.eqb_neq. }
    destruct (Z.eqb_spec (Z.of_nat m - Z.of_nat mm) 0) as [E|E]; cbn [negb].
    + split; [discriminate|]. intros [[? [? _]]|[_ [? _]]]; lia.
    + split.
      * intros [= <-]. right. repeat split; lia.
      * intros [[? [? _]]|[_ [_ ->]]]; [lia | reflexivity].
Qed.

(** A candidate without mismatch outscores every candidate with one. *)
Lemma exact_candidate_preferred (row p q : tuple) (s s' : Z) :
  score row p = Some s -> score row q = Some s' ->
  snd (compatible row p) = 0 -> snd (compatible row q) <> 0 -> (s' < s)%Z.
Proof.
  intros Ep Eq Zp Nq. apply score_cases in Ep, Eq.
  pose proof (compatible_bound row q) as B.
  destruct Ep as [[Hm [_ ->]]|[N _]]; [|contradiction].
  destruct Eq as [[_ [Z0 _]]|[_ [_ ->]]]; [contradiction|]. lia.
Qed.

Lemma In_scored (row : tuple) (found : list tuple) (p : tuple) (s : Z) :
  In (p, s) (scored row found) <-> In p found /\ score row p = Some s.
Proof.
  unfold scored. rewrite in_flat_map. split.
  - intros [q [Hq HIn]]. destruct (score row q) as [s0|] eqn:E; [|contradiction].
    destruct HIn as [[= <- <-]|[]]. auto.
  - intros [Hp E]. exists p. split; [assumption|]. rewrite E. now left.
Qed.

Lemma In_bucket (lk : ptnlkp_t) (row : tuple) (i : nat) (p : tuple) :
  In p (bucket lk row i) ->
  exists v, nth_error row i = Some v /\ v <> 0%Z /\ In p (dget_or lk (i, v) []).
Proof.
  unfold bucket. destruct (nth_error row i) as [v|]; [|contradiction].
  destruct (Z.eqb_spec v 0); [contradiction|]. eauto.
Qed.

(** *** The fallback index names known rules *)

Lemma direct_rules_keys (items : patterns_t) :
  forall preds preds' : list (tuple * Z),
    direct_rules items preds = Some preds' ->
    forall p, In p (map fst preds) \/ In p (map fst items) -> In p (map fst preds').
Proof.
  induction items as [|[q inner] items IH]; intros preds preds' E p Hp; simpl in *.
  - injection E as <-. tauto.
  - inv_bind E. apply (IH _ _ E). rewrite In_keys_dset. intuition.
Qed.

Lemma resolve_lookup_keys (items : lookup_t) :
  forall preds preds' : list (tuple * Z),
    resolve_lookup items preds = Some preds' ->
    forall p, In p (map fst preds) -> In p (map fst preds').
Proof.
  induction items as [|[q inner] items IH]; intros preds preds' E p Hp; simpl in *.
  - now injection E as <-.
  - inv_bind E. inv_bind E. apply (IH _ _ E). rewrite In_keys_dset. now right.
Qed.

Lemma index_values_entries (S : tuple -> Prop) (ptn : tuple) (ivs : list (nat * Z)) :
  S ptn ->
  forall lk, index_entries_in S lk ->
             index_entries_in S (fold_left (index_value ptn) ivs lk).
Proof.
  intros HS. induction ivs as [|iv ivs IH]; intros lk WF; simpl; [assumption|].
  apply IH. unfold index_value. destruct (Z.eqb (snd iv) 0); [assumption|].
  intros key l x HIn Hx. apply In_dset in HIn. destruct HIn as [->|HIn].
  - apply in_app_or in Hx. destruct Hx as [Hx|[<-|[]]]; [|assumption].
    unfold dget_or in Hx. destruct (dget lk iv) as [l0|] eqn:E; [|contradiction].
    apply dget_Some_In in E. exact (WF _ _ _ E Hx).
  - exact (WF _ _ _ HIn Hx).
Qed.

Lemma index_patterns_entries (S : tuple -> Prop) (ptns : list tuple) :
  (forall ptn, In ptn ptns -> S ptn) ->
  forall lk, index_entries_in S lk ->
             index_entries_in S (fold_left index_pattern ptns lk).
Proof.
  induction ptns as [|ptn ptns IH]; intros HS lk WF; simpl; [assumption|].
  apply IH; [intros x Hx; apply HS; now right|].
  unfold index_pattern. apply index_values_entries; [apply HS; now left | assumption].
Qed.

Lemma build_ptnlkp_In (pt : patterns_t) (key : nat * Z) (ptn : tuple) :
  In ptn (dget_or (build_ptnlkp pt) key []) -> In ptn (map fst pt).
Proof.
  intros HIn. unfold dget_or in HIn.
  destruct (dget (build_ptnlkp pt) key) as [l|] eqn:E; [|contradiction].
  apply dget_Some_In in E.
  assert (WF : index_entries_in (fun x => In x (map fst pt)) (build_ptnlkp pt)).
  { unfold build_ptnlkp. apply index_patterns_entries; [auto|]. intros ? ? ? []. }
  exact (WF _ _ _ E HIn).
Qed.

(** After [fit], every pattern of the fallback index has a prediction. *)
Lemma fit_indexed_rules_known (H : CliqueEnumeration) (c0 c : classifier)
  (X : list (list Z)) (y : list Z) :
  fit c0 X y = Some c -> indexed_rules_known c.
Proof.
  unfold fit. intros E. inv_bind E. inv_bind E. inv_bind E. inv_bind E.
  injection E as <-. intros key ptn HIn. simpl in *.
  apply build_ptnlkp_In in HIn. apply dget_In_keys.
  apply (resolve_lookup_keys _ _ _ E3). apply (direct_rules_keys _ _ _ E2). now right.
Qed.

(** Caching a fallback result keeps it so. *)
Lemma cache_indexed_rules_known (c : classifier) (row : tuple) (t : Z) :
  indexed_rules_known c -> indexed_rules_known (cache c row t).
Proof.
  intros WF key ptn HIn. simpl in *. destruct (WF key ptn HIn) as [t' E].
  apply dget_In_keys. apply In_keys_dset. right.
  apply dget_Some_In in E. apply in_map_iff. exists (ptn, t'). auto.
Qed.

(** C6, as stated, fails on the classifier fitted to [near_X], [near_y],
    whose rules are (1, 9, 0) -> 5 and (1, 8, 7) -> 6.  For the query
    (1, 2, 3) both rules are found; the first has one match and one
    mismatch, the second one match and two mismatches; the first is
    dropped and the target 6 of the second is returned, where the claimed
    preference returns 5.  For the query (0, 0, 7) the index lists the
    second rule under the last position, which is not searched: the
    missing sentinel is returned, where the claimed search returns 6. *)
Lemma fallback_differs_from_claim :
  exists c : classifier,
    @fit exhaustive_cliques (new_classifier 1) near_X near_y = Some c /\
    dget (predictions c) [1; 2; 3]%Z = None /\
    keep_first (flat_map (bucket (ptnlkp c) [1; 2; 3]%Z) (seq 0 3))
    = [[1; 9; 0]; [1; 8; 7]]%Z /\
    compatible [1; 2; 3]%Z [1; 9; 0]%Z = (1, 1) /\
    compatible [1; 2; 3]%Z [1; 8; 7]%Z = (1, 2) /\
    claimed_fallback c [1; 2; 3]%Z = Some 5%Z /\
    option_map fst (predict_row c [1; 2; 3]%Z) = Some 6%Z /\
    dget (predictions c) [0; 0; 7]%Z = None /\
    bucket (ptnlkp c) [0; 0; 7]%Z 2 = [[1; 8; 7]%Z] /\
    claimed_fallback c [0; 0; 7]%Z = Some 6%Z /\
    option_map fst (predict_row c [0; 0; 7]%Z) = Some 0%Z.
Proof. eexists. split; [vm_compute; reflexivity|]. repeat split. Qed.

(** Both results are the same whatever the order in which the two cliques
    and their members are enumerated. *)
Example fallback_differs_in_every_order :
  forallb (fun cliques =>
             match @fit (fun _ => cliques) (new_classifier 1) near_X near_y with
             | Some c =>
                 match predict c [[1; 2; 3]; [0; 0; 7]]%Z, claimed_fallback c [1; 2; 3]%Z,
                       claimed_fallback c [0; 0; 7]%Z with
                 | Some (out, _), Some t1, Some t2 =>
                     list_eqb Z.eqb out [6; 0]%Z && Z.eqb t1 5 && Z.eqb t2 6
                 | _, _, _ => false
                 end
             | None => false
             end)
          (enumerations near_cliques) = true /\
  length (enumerations near_cliques) = 8.
Proof. split; vm_compute; reflexivity. Qed.

(** C6, amended: for a query that misses the prediction table, [predict]
    finds, each once and in the order of their first listing, the patterns
    that the fallback index lists under the non-missing positions of the
    query before the last one (what is listed under the last position is
    left open); a found pattern with a match and no mismatch scores its
    matches plus the query width, one whose matches and mismatches differ
    in number scores matches minus mismatches, and one with as many matches
    as mismatches is dropped; the target of the first candidate with the
    greatest score is returned and cached under the query; without a
    candidate the missing sentinel is returned and nothing is cached. *)
Theorem predict_fallback :
  forall (c : classifier) (row : tuple),
    indexed_rules_known c ->
    dget (predictions c) row = None ->
    exists extra found : list tuple,
      incl extra (bucket (ptnlkp c) row (length row - 1)) /\
      found = keep_first (flat_map (bucket (ptnlkp c) row) (seq 0 (length row - 1))
                          ++ extra) /\
      NoDup found /\
      (forall p s, In (p, s) (scored row found) <->
                   In p found /\
                   ((0 < fst (compatible row p) /\ snd (compatible row p) = 0 /\
                     s = (Z.of_nat (fst (compatible row p)) + Z.of_nat (length row))%Z) \/
                    (snd (compatible row p) <> 0 /\
                     fst (compatible row p) <> snd (compatible row p) /\
                     s = (Z.of_nat (fst (compatible row p))
                          - Z.of_nat (snd (compatible row p)))%Z))) /\
      match scored row found with
      | [] => predict_row c row = Some (0%Z, c)
      | _ :: _ =>
          exists ptn s t,
            first_max snd (scored row found) (ptn, s) /\
            dget (predictions c) ptn = Some t /\
            predict_row c row = Some (t, cache c row t)
      end.
Proof.
  intros c row WF Miss.
  exists [], (keep_first (flat_map (bucket (ptnlkp c) row) (seq 0 (length row - 1)))).
  split; [intros ? []|]. split; [now rewrite app_nil_r|].
  split; [apply keep_first_NoDup|].
  split; [intros p s; rewrite In_scored, score_cases; reflexivity|].
  set (found := keep_first (flat_map (bucket (ptnlkp c) row) (seq 0 (length row - 1)))).
  unfold predict_row. rewrite Miss, search_spec. fold found. cbn [fst].
  destruct (scored row found) as [|cand cands] eqn:Es; [reflexivity|].
  destruct (best_of_total (cand :: cands)) as [ptn Eb]; [discriminate|].
  destruct (best_of_first_max _ _ Eb) as [s FM].
  assert (Hp : In ptn found).
  { apply first_max_In in FM. rewrite <- Es in FM. now apply In_scored in FM. }
  unfold found in Hp. apply keep_first_In, in_flat_map in Hp.
  destruct Hp as [i [_ Hp]]. apply In_bucket in Hp. destruct Hp as [v [_ [_ Hp]]].
  destruct (WF _ _ Hp) as [t Et].
  exists ptn, s, t. split; [exact FM|]. split; [exact Et|].
  rewrite Eb. simpl. rewrite Et. reflexivity.
Qed.

Lemma predict_fallback_witness :
  exists c : classifier,
    @fit exhaustive_cliques (new_classifier 1) near_X near_y = Some c /\
    indexed_rules_known c /\
    dget (predictions c) [1; 2; 3]%Z = None /\
    exists extra found : list tuple,
      incl extra (bucket (ptnlkp c) [1; 2; 3]%Z (length [1; 2; 3]%Z - 1)) /\
      found = keep_first (flat_map (bucket (ptnlkp c) [1; 2; 3]%Z)
                                   (seq 0 (length [1; 2; 3]%Z - 1)) ++ extra) /\
      NoDup found /\
      (forall p s, In (p, s) (scored [1; 2; 3]%Z found) <->
                   In p found /\
                   ((0 < fst (compatible [1; 2; 3]%Z p) /\
                     snd (compatible [1; 2; 3]%Z p) = 0 /\
                     s = (Z.of_nat (fst (compatible [1; 2; 3]%Z p))
                          + Z.of_nat (length [1; 2; 3]%Z))%Z) \/
                    (snd (compatible [1; 2; 3]%Z p) <> 0 /\
                     fst (compatible [1; 2; 3]%Z p) <> snd (compatible [1; 2; 3]%Z p) /\
                     s = (Z.of_nat (fst (compatible [1; 2; 3]%Z p))
                          - Z.of_nat (snd (compatible [1; 2; 3]%Z p)))%Z))) /\
      match scored [1; 2; 3]%Z found with
      | [] => predict_row c [1; 2; 3]%Z = Some (0%Z, c)
      | _ :: _ =>
          exists ptn s t,
            first_max snd (scored [1; 2; 3]%Z found) (ptn, s) /\
            dget (predictions c) ptn = Some t /\
            predict_row c [1; 2; 3]%Z = Some (t, cache c [1; 2; 3]%Z t)
      end.
Proof.
  eexists. split; [vm_compute; reflexivity|].
  match goal with
  | |- indexed_rules_known ?c /\ _ =>
      assert (WF : indexed_rules_known c)
  end.
  { apply (fit_indexed_rules_known exhaustive_cliques (new_classifier 1) _ near_X near_y).
    vm_compute. reflexivity. }
  split; [exact WF|]. split; [reflexivity|].
  exact (predict_fallback _ [1; 2; 3]%Z WF eq_refl).
Defined.

(** ** The orchestrator *)

(** C1: for the target language A of the table [A = a, B = b, C = c] the
    instance lists the sources B and C and then A, yet the accumulated pair
    has the values of A and B as its pattern and the value of C, the last
    language of the table, as its target; the pattern of the sources would
    be (b, c) and the target a. *)
Theorem training_pair_of_first_language :
  exists f : fitted,
    one_set_model = Some f /\
    dget (b_alignments (f_base f)) "A"
    = Some [("1", ["B"; "C"; "A"], [["b"]; ["c"]; ["a"]])] /\
    dget (f_patterns f) "A" = Some [(["a"; "b"], [("c", [("1", 0)])])].
Proof. eexists. split; [vm_compute; reflexivity|]. split; reflexivity. Qed.

(** For the last language of the table the pair is the one of the claim. *)
Example training_pair_of_last_language :
  exists f : fitted,
    one_set_model = Some f /\
    dget (b_alignments (f_base f)) "C"
    = Some [("1", ["A"; "B"; "C"], [["a"]; ["b"]; ["c"]])] /\
    dget (f_patterns f) "C" = Some [(["a"; "b"], [("c", [("1", 0)])])].
Proof. eexists. split; [vm_compute; reflexivity|]. split; reflexivity. Qed.

(** The prediction entry point takes its columns from the languages other
    than the target, so a query for A is encoded over B and C. *)
Example query_columns_of_first_language :
  simple_align pad_alignment [["b"]; ["c"]] ["B"; "C"]
               (filter (fun l => negb (String.eqb l "A")) abc) false
               default_missing default_gap
  = Some [["b"; "c"]].
Proof. reflexivity. Qed.

(** C2, as stated, fails: the prediction for the query is not [g u]. *)
Lemma end_to_end_is_not_g_u :
  exists (f f' : fitted) (out : list string),
    voicing_model = Some f /\
    baseline_predict pad_alignment f ["A"; "B"] [["k"; "u"]; ["k"; "u"]] "C" "?"
    = Some (out, f') /\
    out <> ["g"; "u"].
Proof.
  eexists. eexists. eexists. split; [vm_compute; reflexivity|].
  split; [vm_compute; reflexivity | discriminate].
Qed.

(** C2, amended: on the two training rows the classifier of C is fitted to
    an empty prediction table and an empty fallback index, the query
    symbols [k] and [u] encode to 0, and the prediction for the query is
    the missing sentinel in both columns, with nothing cached. *)
Theorem end_to_end_prediction :
  exists (f : fitted) (c : classifier),
    voicing_model = Some f /\
    dget (f_classifiers f) "C" = Some c /\
    predictions c = [] /\ ptnlkp c = [] /\
    encode (f_sound2idx f) "k" = 0%Z /\ encode (f_sound2idx f) "u" = 0%Z /\
    baseline_predict pad_alignment f ["A"; "B"] [["k"; "u"]; ["k"; "u"]] "C" "?"
    = Some (["Ø"; "Ø"], f).
Proof.
  eexists. eexists. split; [vm_compute; reflexivity|].
  split; [vm_compute; reflexivity|]. repeat split.
Qed.

(** *** The alphabet of the fitted model *)

Lemma add_rows_NoDup (width : nat) (language cogid : string)
  (rows : list (nat * list string)) :
  forall st st' : fit_state,
    add_rows width language cogid rows st = Some st' ->
    NoDup (snd st) -> NoDup (snd st').
Proof.
  induction rows as [|irow rows IH]; intros st st' E ND; simpl in E.
  - now injection E as <-.
  - inv_bind E. apply (IH _ _ E). unfold add_row in E0.
    inv_bind E0. inv_bind E0. injection E0 as <-. simpl.
    apply set_add_NoDup. now apply fold_set_add_NoDup.
Qed.

Lemma add_language_NoDup (align_seqs : aligner) (all_languages : list string)
  (language : string) (insts : list instance) :
  forall st st' : fit_state,
    add_language align_seqs all_languages language insts st = Some st' ->
    NoDup (snd st) -> NoDup (snd st').
Proof.
  induction insts as [|[[cogid languages] alms] insts IH]; intros st st' E ND;
    simpl in E.
  - now injection E as <-.
  - inv_bind E. inv_bind E. apply (IH _ _ E). now apply (add_rows_NoDup _ _ _ _ _ _ E1).
Qed.

Lemma collect_NoDup (align_seqs : aligner) (b : baseline) (langs : list string) :
  forall st st' : fit_state,
    collect align_seqs b langs st = Some st' -> NoDup (snd st) -> NoDup (snd st').
Proof.
  induction langs as [|language langs IH]; intros st st' E ND; simpl in E.
  - now injection E as <-.
  - inv_bind E. inv_bind E. apply (IH _ _ E).
    now apply (add_language_NoDup _ _ _ _ _ _ E1).
Qed.

(** [Baseline.fit] builds its two tables from the set of the symbols of
    the training matrices. *)
Lemma baseline_fit_alphabet (H : CliqueEnumeration) (align_seqs : aligner)
  (b : baseline) (f : fitted) :
  baseline_fit align_seqs b = Some f ->
  NoDup (f_sounds f) /\
  f_sound2idx f = make_sound2idx (f_sounds f) (b_gap b) (b_missing b) /\
  f_idx2sound f = make_idx2sound (f_sound2idx f).
Proof.
  unfold baseline_fit. intros E.
  destruct (collect align_seqs b (b_languages b)
                    (dict_of (map (fun l => (l, [])) (b_languages b)), []))
    as [[pats sounds]|] eqn:E0; [|discriminate E].
  simpl in E. inv_bind E. injection E as <-. simpl. split; [|split; reflexivity].
  apply (collect_NoDup _ _ _ _ _ E0). constructor.
Qed.

(** The symbols of the end-to-end example and their indices. *)
Example voicing_alphabet :
  exists f : fitted,
    voicing_model = Some f /\
    f_sounds f = ["p"; "b"; "a"; "t"; "d"; "i"] /\
    f_sound2idx f = [("a", 2); ("b", 3); ("d", 4); ("i", 5); ("p", 6); ("t", 7);
                     ("-", 1); ("Ø", 0)]%Z.
Proof. eexists. split; [vm_compute; reflexivity|]. split; reflexivity. Qed.

(* ================================================================= *)
(** * Part III: further properties of the code *)
(* ================================================================= *)

(** ** [ungap]: errors, unchanged results, and what a merge keeps *)

Lemma column_None_iff (j : nat) (alignment : list (list string)) :
  column j alignment = None <-> Exists (fun row => length row <= j) alignment.
Proof.
  induction alignment as [|row rows IH]; simpl.
  - split; [discriminate | intros E; inversion E].
  - destruct (nth_error row j) as [site|] eqn:E.
    + assert (Hlt : j < length row) by (apply nth_error_Some; congruence).
      destruct (column j rows) as [col|]; simpl.
      * split; [discriminate|]. intros Ex. inversion Ex; subst; [lia|].
        apply IH in H0. discriminate.
      * split; [|reflexivity]. intros _. right. now apply IH.
    + apply nth_error_None in E. split; [|reflexivity]. intros _. now left.
Qed.

Lemma find_merges_None_iff (pidxs : list nat) (alignment : list (list string))
  (cols : list nat) :
  find_merges pidxs alignment cols = None <->
  Exists (fun j => column j alignment = None) cols.
Proof.
  induction cols as [|j cols IH]; simpl.
  - split; [discriminate | intros E; inversion E].
  - destruct (column j alignment) as [col|] eqn:E.
    + destruct (find_merges pidxs alignment cols) as [ms|].
      * split; [discriminate|]. intros Ex. inversion Ex; subst; [congruence|].
        apply IH in H0. discriminate.
      * split; [|reflexivity]. intros _. right. now apply IH.
    + split; [|reflexivity]. intros _. now left.
Qed.

Lemma merge_rows_total (merges : list nat) (alignment : list (list string)) :
  exists out, merge_rows merges alignment = Some out /\
              Forall2 (fun row r => merge_row merges row = Some r) alignment out.
Proof.
  induction alignment as [|row rows [out [E F2]]]; simpl; [eauto|].
  destruct (merge_row_length merges row) as [r [Er _]]. rewrite Er, E. simpl. eauto.
Qed.

(** X1: [ungap] raises exactly when the alignment has no row or has a row
    shorter than its first row; longer rows are accepted. *)
Theorem ungap_raises_iff :
  forall (alignment : list (list string)) (languages : list string) (proto : string),
    ungap alignment languages proto = None <->
    alignment = [] \/
    Exists (fun row => length row < length (hd [] alignment)) alignment.
Proof.
  intros alignment languages proto. destruct alignment as [|row0 rows].
  - simpl. split; auto.
  - cbn [hd]. unfold ungap.
    destruct (find_merges (pidxs_of languages proto) (row0 :: rows)
                          (seq 0 (length row0))) as [ms|] eqn:E.
    + split.
      * destruct ms as [|j ms]; [discriminate|].
        destruct (merge_rows_total (j :: ms) (row0 :: rows)) as [out [Eo _]].
        rewrite Eo. discriminate.
      * intros [Hnil|Ex]; [discriminate|]. exfalso.
        apply Exists_exists in Ex. destruct Ex as [row [Hr Hlt]].
        assert (N : find_merges (pidxs_of languages proto) (row0 :: rows)
                                (seq 0 (length row0)) = None).
        { apply find_merges_None_iff. apply Exists_exists.
          exists (length row). split; [apply in_seq; lia|].
          apply column_None_iff. apply Exists_exists. exists row. split; [assumption | lia]. }
        congruence.
    + split; [|reflexivity]. intros _. right.
      apply find_merges_None_iff, Exists_exists in E. destruct E as [j [Hj Ec]].
      apply in_seq in Hj. apply column_None_iff, Exists_exists in Ec.
      destruct Ec as [row [Hr Hle]]. apply Exists_exists. exists row.
      split; [assumption | lia].
Qed.

(** The three ways in which [ungap] ends on a rectangular alignment
    without empty cells. *)
Lemma ungap_cases (alignment : list (list string)) (languages : list string)
  (proto : string) (n : nat) :
  rectangular alignment n ->
  no_empty_cell alignment ->
  exists ms,
    find_merges (pidxs_of languages proto) alignment (seq 0 n) = Some ms /\
    (forall j, In j ms <-> j < n /\ gap_column (pidxs_of languages proto) alignment j) /\
    (((ms = [] \/ mem_nat 0 ms = true) /\ ungap alignment languages proto = Some alignment) \/
     (ms <> [] /\ mem_nat 0 ms = false /\
      exists out, ungap alignment languages proto = Some out /\
                  Forall2 (fun row r => merge_row ms row = Some r) alignment out)).
Proof.
  intros [N F] NE. destruct alignment as [|row0 rows]; [contradiction|].
  assert (L0 : length row0 = n) by (inversion F; assumption).
  destruct (find_merges_spec (pidxs_of languages proto) (row0 :: rows) n (seq 0 n) F
                             (seq_below n)) as [ms [Em Hm]].
  exists ms. split; [exact Em|]. split.
  { intros j. rewrite Hm, in_seq. intuition lia. }
  unfold ungap. rewrite L0, Em. destruct ms as [|j0 ms0] eqn:Hms; [left; auto|].
  rewrite <- Hms in *.
  destruct (merge_rows_total ms (row0 :: rows)) as [out [Eo F2]].
  replace (merge_rows (j0 :: ms0) (row0 :: rows)) with (merge_rows ms (row0 :: rows))
    by (now rewrite Hms).
  destruct (mem_nat 0 ms) eqn:M0.
  - left. split; [now right|]. rewrite Eo. f_equal.
    apply (Forall2_eq_Some (merge_row ms)); [exact F2|].
    unfold no_empty_cell in NE. rewrite Forall_forall in NE |- *.
    intros row Hr. apply merge_row_leading; auto.
  - right. split; [rewrite Hms; discriminate|]. split; [reflexivity|]. eauto.
Qed.

(** X2: When no column is mergeable the alignment is returned as it is. *)
Theorem ungap_without_gap_column :
  forall (alignment : list (list string)) (languages : list string) (proto : string)
         (n : nat),
    rectangular alignment n ->
    (forall j, j < n -> ~ gap_column (pidxs_of languages proto) alignment j) ->
    ungap alignment languages proto = Some alignment.
Proof.
  intros alignment languages proto n [N F] NG.
  destruct alignment as [|row0 rows]; [contradiction|].
  assert (L0 : length row0 = n) by (inversion F; assumption).
  destruct (find_merges_spec (pidxs_of languages proto) (row0 :: rows) n (seq 0 n) F
                             (seq_below n)) as [ms [Em Hm]].
  unfold ungap. rewrite L0, Em. destruct ms as [|j ms]; [reflexivity|]. exfalso.
  destruct (proj1 (Hm j) (or_introl eq_refl)) as [Hj Hg].
  apply in_seq in Hj. apply (NG j); [lia | assumption].
Qed.

Lemma ungap_without_gap_column_witness :
  rectangular [["b"; "-"]; ["b"; "a"]; ["b"; "c"]] 2 /\
  (forall j, j < 2 ->
             ~ gap_column (pidxs_of ["A"; "B"; "P"] "P")
                          [["b"; "-"]; ["b"; "a"]; ["b"; "c"]] j) /\
  ungap [["b"; "-"]; ["b"; "a"]; ["b"; "c"]] ["A"; "B"; "P"] "P"
  = Some [["b"; "-"]; ["b"; "a"]; ["b"; "c"]].
Proof.
  assert (R : rectangular [["b"; "-"]; ["b"; "a"]; ["b"; "c"]] 2).
  { split; [discriminate | repeat constructor]. }
  assert (NG : forall j, j < 2 ->
                         ~ gap_column (pidxs_of ["A"; "B"; "P"] "P")
                                      [["b"; "-"]; ["b"; "a"]; ["b"; "c"]] j).
  { intros j Hj [_ Hg].
    destruct j as [|[|j]]; [| |lia].
    - specialize (Hg 0 ["b"; "-"] eq_refl eq_refl). discriminate.
    - specialize (Hg 1 ["b"; "a"] eq_refl eq_refl). discriminate. }
  split; [exact R|]. split; [exact NG|].
  exact (ungap_without_gap_column _ ["A"; "B"; "P"] "P" 2 R NG).
Defined.

Lemma ungap_leading_gap_column_returns_input_witness :
  rectangular [["-"; "b"; "-"]; ["-"; "b"; "-"]; ["a"; "b"; "c"]] 3 /\
  no_empty_cell [["-"; "b"; "-"]; ["-"; "b"; "-"]; ["a"; "b"; "c"]] /\
  gap_column (pidxs_of ["A"; "B"; "P"] "P")
             [["-"; "b"; "-"]; ["-"; "b"; "-"]; ["a"; "b"; "c"]] 0 /\
  ungap [["-"; "b"; "-"]; ["-"; "b"; "-"]; ["a"; "b"; "c"]] ["A"; "B"; "P"] "P"
  = Some [["-"; "b"; "-"]; ["-"; "b"; "-"]; ["a"; "b"; "c"]].
Proof.
  assert (R : rectangular [["-"; "b"; "-"]; ["-"; "b"; "-"]; ["a"; "b"; "c"]] 3).
  { split; [discriminate | repeat constructor]. }
  assert (E : no_empty_cell [["-"; "b"; "-"]; ["-"; "b"; "-"]; ["a"; "b"; "c"]]).
  { repeat constructor; discriminate. }
  assert (G0 : gap_column (pidxs_of ["A"; "B"; "P"] "P")
                          [["-"; "b"; "-"]; ["-"; "b"; "-"]; ["a"; "b"; "c"]] 0).
  { split.
    - exists 0, ["-"; "b"; "-"]. split; reflexivity.
    - intros i row Hp Hr. destruct i as [|[|[|i]]]; simpl in Hr.
      + injection Hr as <-. reflexivity.
      + injection Hr as <-. reflexivity.
      + discriminate Hp.
      + destruct i; discriminate Hr. }
  split; [exact R|]. split; [exact E|]. split; [exact G0|].
  exact (ungap_leading_gap_column_returns_input _ ["A"; "B"; "P"] "P" 3 R E G0).
Defined.

Lemma keep_cells_nongap (merges : list nat) (row : list string) :
  forall j,
    (forall i c, nth_error row i = Some c -> mem_nat (j + i) merges = true -> c = "-") ->
    filter nongap (keep_cells merges j row) = filter nongap row.
Proof.
  induction row as [|cell row IH]; intros j Hg; simpl; [reflexivity|].
  assert (Hg' : forall i c, nth_error row i = Some c ->
                            mem_nat (S j + i) merges = true -> c = "-").
  { intros i c Hc Hm. apply (Hg (S i) c Hc). now rewrite Nat.add_succ_r. }
  destruct (mem_nat j merges) eqn:E.
  - rewrite (Hg 0 cell eq_refl) by (now rewrite Nat.add_0_r). simpl. now apply IH.
  - simpl. rewrite IH by assumption. reflexivity.
Qed.

(** X4: On a rectangular alignment without empty cells, every row outside
    the reference language keeps its symbols other than the gap, in their
    order: a merge takes gap cells away from it and nothing else. *)
Theorem ungap_keeps_daughter_symbols :
  forall (alignment : list (list string)) (languages : list string) (proto : string)
         (n : nat),
    rectangular alignment n ->
    no_empty_cell alignment ->
    exists out : list (list string),
      ungap alignment languages proto = Some out /\
      forall i row,
        mem_nat i (pidxs_of languages proto) = false ->
        nth_error alignment i = Some row ->
        exists r, nth_error out i = Some r /\ filter nongap r = filter nongap row.
Proof.
  intros alignment languages proto n R NE.
  destruct (ungap_cases alignment languages proto n R NE)
    as [ms [_ [Hm [[_ E]|[_ [M0 [out [E F2]]]]]]]].
  - exists alignment. split; [exact E|]. intros i row _ Er. eauto.
  - exists out. split; [exact E|]. intros i row Hp Er.
    destruct (Forall2_nth_left _ _ _ F2 i row Er) as [r [Eo Mr]].
    exists r. split; [exact Eo|].
    assert (Hg : forall j, mem_nat j ms = true -> j < length row ->
                           nth_error row j = Some "-").
    { intros j Hj _. apply mem_nat_true, Hm in Hj. destruct Hj as [_ [_ Hg]].
      now apply (Hg i row). }
    rewrite merge_row_keep in Mr; [| exact M0 | exact Hg |].
    + injection Mr as <-. apply keep_cells_nongap. intros k c Hc Hk. simpl in Hk.
      assert (Hlt : k < length row) by (apply nth_error_Some; congruence).
      specialize (Hg k Hk Hlt). congruence.
    + unfold no_empty_cell in NE. rewrite Forall_forall in NE. apply NE.
      eapply nth_error_In; eauto.
Qed.

Lemma ungap_keeps_daughter_symbols_witness :
  rectangular [["b"; "-"; "-"; "d"]; ["b"; "-"; "-"; "d"]; ["b"; "c"; "e"; "d"]] 4 /\
  no_empty_cell [["b"; "-"; "-"; "d"]; ["b"; "-"; "-"; "d"]; ["b"; "c"; "e"; "d"]] /\
  exists out : list (list string),
    ungap [["b"; "-"; "-"; "d"]; ["b"; "-"; "-"; "d"]; ["b"; "c"; "e"; "d"]]
          ["A"; "B"; "P"] "P" = Some out /\
    forall i row,
      mem_nat i (pidxs_of ["A"; "B"; "P"] "P") = false ->
      nth_error [["b"; "-"; "-"; "d"]; ["b"; "-"; "-"; "d"]; ["b"; "c"; "e"; "d"]] i
      = Some row ->
      exists r, nth_error out i = Some r /\ filter nongap r = filter nongap row.
Proof.
  assert (R : rectangular [["b"; "-"; "-"; "d"]; ["b"; "-"; "-"; "d"];
                           ["b"; "c"; "e"; "d"]] 4).
  { split; [discriminate | repeat constructor]. }
  assert (E : no_empty_cell [["b"; "-"; "-"; "d"]; ["b"; "-"; "-"; "d"];
                             ["b"; "c"; "e"; "d"]]).
  { repeat constructor; discriminate. }
  split; [exact R|]. split; [exact E|].
  exact (ungap_keeps_daughter_symbols _ ["A"; "B"; "P"] "P" 4 R E).
Defined.

(** *** The joined content of a row *)

Lemma str_app_assoc (a b c : string) : ((a ++ b) ++ c)%string = (a ++ b ++ c)%string.
Proof. induction a as [|x a IH]; simpl; [reflexivity | now rewrite IH]. Qed.

Lemma str_app_not_empty (a b : string) : a <> "" -> (a ++ b)%string <> "".
Proof. destruct a; [contradiction | discriminate]. Qed.

Lemma concat_cons (sep x : string) (l : list string) :
  l <> [] -> String.concat sep (x :: l) = (x ++ sep ++ String.concat sep l)%string.
Proof. destruct l; [contradiction | reflexivity]. Qed.

Lemma concat_merge_last (l : list string) (c x : string) (rest : list string) :
  String.concat "." (l ++ (c ++ "." ++ x)%string :: rest)
  = String.concat "." (l ++ c :: x :: rest).
Proof.
  induction l as [|a l IH].
  - cbn [app]. rewrite (concat_cons "." c (x :: rest)) by discriminate.
    destruct rest as [|y rest]; [reflexivity|].
    rewrite (concat_cons "." _ (y :: rest)) by discriminate.
    rewrite (concat_cons "." x (y :: rest)) by discriminate.
    now rewrite !str_app_assoc.
  - cbn [app]. rewrite !concat_cons by (destruct l; discriminate). now rewrite IH.
Qed.

Lemma merge_row_from_content (merges : list nat) (row : list string) :
  forall (j : nat) (st : row_state),
    mergeit st = false -> started st = false ->
    new_alm st <> [] ->
    Forall (fun cell => cell <> "") (new_alm st) ->
    Forall (fun cell => cell <> "") row ->
    exists st',
      merge_row_from merges j row st = Some st' /\
      Forall (fun cell => cell <> "") (new_alm st') /\
      String.concat "." (new_alm st')
      = String.concat "." (new_alm st ++ surviving merges j row).
Proof.
  induction row as [|cell row IH]; intros j [cells mi sta] M S N FA FR;
    simpl in M, S, N, FA; subst.
  - exists (mk_row_state cells false false). simpl. rewrite app_nil_r. auto.
  - inversion FR as [|? ? Ncell FR']; subst.
    cbn [merge_row_from surviving]. unfold merge_step. cbn [mergeit started new_alm].
    rewrite orb_false_r. destruct (mem_nat j merges) eqn:E; cbn [negb andb].
    + destruct (String.eqb cell "-") eqn:Ec.
      * apply (IH (S j) (mk_row_state cells false false)); auto.
      * destruct (exists_last N) as [l [c ->]].
        assert (Nc : c <> "").
        { rewrite Forall_forall in FA. apply FA. apply in_or_app. right. now left. }
        rewrite update_last_app. cbn [option_map]. unfold join_cell.
        rewrite (proj2 (String.eqb_neq c "") Nc).
        destruct (IH (S j) (mk_row_state (l ++ [(c ++ "." ++ cell)%string]) false false))
          as [st' [E' [F' C']]]; auto.
        { cbn [new_alm]. now destruct l. }
        { cbn [new_alm]. apply Forall_app. split.
          - apply Forall_app in FA. tauto.
          - constructor; [|constructor]. now apply str_app_not_empty. }
        exists st'. split; [exact E'|]. split; [exact F'|].
        rewrite C'. cbn [new_alm]. rewrite <- !app_assoc. cbn [app].
        apply concat_merge_last.
    + destruct (IH (S j) (mk_row_state (cells ++ [cell]) false false))
        as [st' [E' [F' C']]]; auto.
      { cbn [new_alm]. now destruct cells. }
      { cbn [new_alm]. apply Forall_app. split; [assumption|]. now repeat constructor. }
      exists st'. split; [exact E'|]. split; [exact F'|].
      rewrite C'. cbn [new_alm]. now rewrite <- app_assoc.
Qed.

Lemma merge_row_content (merges : list nat) (row : list string) :
  mem_nat 0 merges = false ->
  Forall (fun cell => cell <> "") row ->
  exists r, merge_row merges row = Some r /\
            String.concat "." r = String.concat "." (surviving merges 0 row).
Proof.
  intros M F. unfold merge_row. destruct row as [|cell row]; [simpl; eauto|].
  inversion F as [|? ? Ncell F']; subst.
  cbn [merge_row_from surviving]. unfold merge_step, initial_row_state.
  cbn [mergeit started new_alm]. rewrite M. cbn [orb andb app].
  destruct (merge_row_from_content merges row 1 (mk_row_state [cell] false false))
    as [st' [E' [F'' C']]]; auto; try discriminate.
  { now repeat constructor. }
  rewrite E'. cbn [option_map]. eexists. split; [reflexivity|].
  rewrite fill_gaps_id by assumption. exact C'.
Qed.

Lemma surviving_nil (row : list string) : forall j, surviving [] j row = row.
Proof. induction row as [|c row IH]; intros j; simpl; [reflexivity | now rewrite IH]. Qed.

(** X5: When the first column is not mergeable, a merge loses no symbol of
    any row and keeps their order: joined with ['.'], the cells of a
    result row spell what the cells of the input row spell once the gap
    cells of its merged columns are left out. *)
Theorem ungap_keeps_joined_content :
  forall (alignment : list (list string)) (languages : list string) (proto : string)
         (n : nat),
    rectangular alignment n ->
    no_empty_cell alignment ->
    ~ gap_column (pidxs_of languages proto) alignment 0 ->
    exists (merges : list nat) (out : list (list string)),
      find_merges (pidxs_of languages proto) alignment (seq 0 n) = Some merges /\
      ungap alignment languages proto = Some out /\
      Forall2 (fun row r => String.concat "." r
                            = String.concat "." (surviving merges 0 row))
              alignment out.
Proof.
  intros alignment languages proto n R NE N0.
  destruct (ungap_cases alignment languages proto n R NE)
    as [ms [Em [Hm [[[Hnil|M0] E]|[_ [M0 [out [E F2]]]]]]]].
  - subst ms. exists [], alignment. split; [exact Em|]. split; [exact E|].
    clear. induction alignment; constructor; [now rewrite surviving_nil | assumption].
  - exfalso. apply N0. apply mem_nat_true, Hm in M0. tauto.
  - exists ms, out. split; [exact Em|]. split; [exact E|].
    unfold no_empty_cell in NE. clear - F2 NE M0.
    induction F2 as [|row r rows outs Mr _ IH]; constructor.
    + inversion NE; subst.
      destruct (merge_row_content ms row M0) as [r' [Er' C]]; [assumption|]. congruence.
    + apply IH. now inversion NE.
Qed.

Lemma ungap_keeps_joined_content_witness :
  rectangular [["b"; "-"; "-"; "d"]; ["b"; "-"; "-"; "d"]; ["b"; "c"; "e"; "d"]] 4 /\
  no_empty_cell [["b"; "-"; "-"; "d"]; ["b"; "-"; "-"; "d"]; ["b"; "c"; "e"; "d"]] /\
  ~ gap_column (pidxs_of ["A"; "B"; "P"] "P")
               [["b"; "-"; "-"; "d"]; ["b"; "-"; "-"; "d"]; ["b"; "c"; "e"; "d"]] 0 /\
  exists (merges : list nat) (out : list (list string)),
    find_merges (pidxs_of ["A"; "B"; "P"] "P")
                [["b"; "-"; "-"; "d"]; ["b"; "-"; "-"; "d"]; ["b"; "c"; "e"; "d"]]
                (seq 0 4) = Some merges /\
    ungap [["b"; "-"; "-"; "d"]; ["b"; "-"; "-"; "d"]; ["b"; "c"; "e"; "d"]]
          ["A"; "B"; "P"] "P" = Some out /\
    Forall2 (fun row r => String.concat "." r
                          = String.concat "." (surviving merges 0 row))
            [["b"; "-"; "-"; "d"]; ["b"; "-"; "-"; "d"]; ["b"; "c"; "e"; "d"]] out.
Proof.
  assert (R : rectangular [["b"; "-"; "-"; "d"]; ["b"; "-"; "-"; "d"];
                           ["b"; "c"; "e"; "d"]] 4).
  { split; [discriminate | repeat constructor]. }
  assert (E : no_empty_cell [["b"; "-"; "-"; "d"]; ["b"; "-"; "-"; "d"];
                             ["b"; "c"; "e"; "d"]]).
  { repeat constructor; discriminate. }
  assert (N0 : ~ gap_column (pidxs_of ["A"; "B"; "P"] "P")
                 [["b"; "-"; "-"; "d"]; ["b"; "-"; "-"; "d"]; ["b"; "c"; "e"; "d"]] 0).
  { intros [_ Hg]. specialize (Hg 0 ["b"; "-"; "-"; "d"] eq_refl eq_refl). discriminate. }
  split; [exact R|]. split; [exact E|]. split; [exact N0|].
  exact (ungap_keeps_joined_content _ ["A"; "B"; "P"] "P" 4 R E N0).
Defined.

(** ** [compatible] and [consensus] *)

Lemma compatible_fold_counts (l : list (Z * Z)) :
  forall acc,
    fold_left compatible_step l acc
    = (fst acc + length (filter is_match l), snd acc + length (filter is_mismatch l)).
Proof.
  induction l as [|ab l IH]; intros [m mm]; simpl.
  - now rewrite !Nat.add_0_r.
  - rewrite IH. unfold compatible_step, is_match, is_mismatch, both_known.
    destruct (Z.eqb (fst ab) 0 || Z.eqb (snd ab) 0); simpl; [reflexivity|].
    destruct (Z.eqb (fst ab) (snd ab)); simpl; f_equal; lia.
Qed.

Lemma compatible_counts (a b : tuple) :
  compatible a b = (length (filter is_match (combine a b)),
                    length (filter is_mismatch (combine a b))).
Proof. unfold compatible. now rewrite compatible_fold_counts. Qed.

Lemma compatible_step_swap (acc : nat * nat) (x y : Z) :
  compatible_step acc (x, y) = compatible_step acc (y, x).
Proof.
  unfold compatible_step. simpl. rewrite (orb_comm (Z.eqb x 0)), (Z.eqb_sym x y).
  destruct (Z.eqb y 0 || Z.eqb x 0); [reflexivity|]. destruct (Z.eqb_spec y x); [|reflexivity].
  reflexivity.
Qed.

Lemma compatible_fold_swap (a : tuple) :
  forall (b : tuple) (acc : nat * nat),
    fold_left compatible_step (combine a b) acc
    = fold_left compatible_step (combine b a) acc.
Proof.
  induction a as [|x a IH]; intros [|y b] acc; simpl; try reflexivity.
  rewrite compatible_step_swap. apply IH.
Qed.

(** X6: [compatible] does not depend on the order of its two arguments: the
    counts of matches and of mismatches of [ptA] with [ptB] are those of
    [ptB] with [ptA]. *)
Theorem compatible_symmetric :
  forall a b : tuple, compatible a b = compatible b a.
Proof. intros a b. unfold compatible. apply compatible_fold_swap. Qed.

Lemma In_combine_iff {A B : Type} (l1 : list A) :
  forall (l2 : list B) (a : A) (b : B),
    In (a, b) (combine l1 l2) <->
    exists i, nth_error l1 i = Some a /\ nth_error l2 i = Some b.
Proof.
  induction l1 as [|x l1 IH]; intros [|y l2] a b; simpl.
  - split; [tauto|]. intros [[|i] [E _]]; discriminate.
  - split; [tauto|]. intros [[|i] [E _]]; discriminate.
  - split; [tauto|]. intros [[|i] [_ E]]; discriminate.
  - rewrite IH. split.
    + intros [E|[i Hi]]; [injection E as <- <-; exists 0; auto | exists (S i); auto].
    + intros [[|i] [E1 E2]]; simpl in *; [left; congruence | right; eauto].
Qed.

(** Two tuples agree when they hold the same value wherever both hold a
    known one. *)
Lemma agree_iff (a b : tuple) :
  agree a b <->
  forall i x y, nth_error a i = Some x -> nth_error b i = Some y ->
                x <> 0%Z -> y <> 0%Z -> x = y.
Proof.
  unfold agree. rewrite compatible_counts. simpl. rewrite length_zero_iff_nil. split.
  - intros E i x y Ea Eb Nx Ny.
    assert (HIn : In (x, y) (combine a b)) by (apply In_combine_iff; eauto).
    destruct (Z.eqb_spec x y) as [|N]; [assumption|]. exfalso.
    assert (Hf : In (x, y) (filter is_mismatch (combine a b))).
    { apply filter_In. split; [assumption|]. unfold is_mismatch, both_known. simpl.
      rewrite (proj2 (Z.eqb_neq x 0) Nx), (proj2 (Z.eqb_neq y 0) Ny),
        (proj2 (Z.eqb_neq x y) N). reflexivity. }
    rewrite E in Hf. contradiction.
  - intros Hagree. apply filter_none. intros [x y] HIn.
    apply In_combine_iff in HIn. destruct HIn as [i [Ea Eb]].
    unfold is_mismatch, both_known. simpl.
    destruct (Z.eqb_spec x 0); [reflexivity|]. destruct (Z.eqb_spec y 0); [reflexivity|].
    simpl. rewrite (Hagree i x y Ea Eb) by assumption. now rewrite Z.eqb_refl.
Qed.

Lemma first_known_spec (i : nat) (nodes : list tuple) (r : option Z) :
  first_known i nodes = Some r ->
  match r with
  | Some v => v <> 0%Z /\ exists node, In node nodes /\ nth_error node i = Some v
  | None => forall node, In node nodes -> nth_error node i = Some 0%Z
  end.
Proof.
  induction nodes as [|node nodes IH]; simpl.
  - intros [= <-]. intros ? [].
  - destruct (nth_error node i) as [v|] eqn:E; simpl; [|discriminate].
    destruct (Z.eqb_spec v 0) as [->|N].
    + intros Er. specialize (IH Er). destruct r as [w|].
      * destruct IH as [Nw [node' [HIn Ew]]]. split; [assumption|]. eauto.
      * intros node' [<-|HIn]; auto.
    + intros [= <-]. split; [assumption|]. eauto.
Qed.

Lemma consensus_at_nth (nodes : list tuple) (positions : list nat) (cons : tuple) :
  consensus_at nodes positions = Some cons ->
  forall k i, nth_error positions k = Some i ->
              exists r, first_known i nodes = Some r /\
                        nth_error cons k = Some (match r with Some v => v | None => 0%Z end).
Proof.
  revert cons. induction positions as [|j positions IH]; intros cons E k i Hk; simpl in E.
  - destruct k; discriminate.
  - inv_bind E. inv_bind E. injection E as <-. destruct k as [|k]; simpl in *.
    + injection Hk as <-. eauto.
    + now apply (IH t).
Qed.

(** What [consensus] returns on nodes of one length that agree pairwise. *)
Lemma consensus_spec (nodes : list tuple) (n : nat) :
  nodes <> [] ->
  Forall (fun node => length node = n) nodes ->
  (forall a b, In a nodes -> In b nodes -> agree a b) ->
  exists cons,
    consensus nodes = Some cons /\ length cons = n /\
    (forall i v, nth_error cons i = Some v -> v <> 0%Z ->
                 exists node, In node nodes /\ nth_error node i = Some v) /\
    (forall i node v, In node nodes -> nth_error node i = Some v -> v <> 0%Z ->
                      nth_error cons i = Some v).
Proof.
  intros N F Ag. unfold consensus. destruct nodes as [|node0 nodes]; [contradiction|].
  cbn [hd_error obind].
  assert (L0 : length node0 = n) by (inversion F; assumption). rewrite L0.
  destruct (consensus_at_total n (node0 :: nodes) (seq 0 n) F (seq_below n))
    as [cons [Ec Lc]].
  rewrite length_seq in Lc. exists cons. split; [exact Ec|]. split; [exact Lc|].
  assert (Hnth : forall i, i < n ->
                           exists r, first_known i (node0 :: nodes) = Some r /\
                                     nth_error cons i
                                     = Some (match r with Some v => v | None => 0%Z end)).
  { intros i Hi. apply (consensus_at_nth _ _ _ Ec i i).
    rewrite nth_error_seq. destruct (Nat.ltb_spec i n); [reflexivity | lia]. }
  split.
  - intros i v Ei Nv.
    assert (Hi : i < n) by (rewrite <- Lc; apply nth_error_Some; congruence).
    destruct (Hnth i Hi) as [r [Er Ev]]. rewrite Ei in Ev. injection Ev as ->.
    apply first_known_spec in Er. destruct r as [w|]; [tauto | contradiction].
  - intros i node v HIn Ei Nv.
    assert (Hi : i < n).
    { rewrite Forall_forall in F. rewrite <- (F node HIn).
      apply nth_error_Some. congruence. }
    destruct (Hnth i Hi) as [r [Er Ev]]. rewrite Ev. f_equal.
    apply first_known_spec in Er. destruct r as [w|].
    + destruct Er as [Nw [node' [HIn' Ew]]].
      exact (proj1 (agree_iff node' node) (Ag node' node HIn' HIn) i w v Ew Ei Nw Nv).
    + rewrite (Er node HIn) in Ei. congruence.
Qed.

(** X7: The consensus of nodes of one length that agree pairwise, as the
    members of a clique do, agrees with each of them, holds at every
    position the known value of any node that has one, and holds no value
    that no node has. *)
Theorem consensus_agrees_with_members :
  forall (nodes : list tuple) (n : nat),
    nodes <> [] ->
    Forall (fun node => length node = n) nodes ->
    (forall a b, In a nodes -> In b nodes -> agree a b) ->
    exists cons : tuple,
      consensus nodes = Some cons /\ length cons = n /\
      (forall node, In node nodes -> agree cons node) /\
      (forall i v, nth_error cons i = Some v -> v <> 0%Z ->
                   exists node, In node nodes /\ nth_error node i = Some v) /\
      (forall i node v, In node nodes -> nth_error node i = Some v -> v <> 0%Z ->
                        nth_error cons i = Some v).
Proof.
  intros nodes n N F Ag.
  destruct (consensus_spec nodes n N F Ag) as [cons [Ec [Lc [Hfrom Hcov]]]].
  exists cons. split; [exact Ec|]. split; [exact Lc|]. split; [|split; assumption].
  intros node HIn. apply agree_iff. intros i x y Ex Ey Nx Ny.
  rewrite (Hcov i node y HIn Ey Ny) in Ex. congruence.
Qed.

Lemma consensus_agrees_with_members_witness :
  [[5; 0; 8]; [5; 6; 0]; [0; 6; 8]]%Z <> [] /\
  Forall (fun node => length node = 3) [[5; 0; 8]; [5; 6; 0]; [0; 6; 8]]%Z /\
  (forall a b, In a [[5; 0; 8]; [5; 6; 0]; [0; 6; 8]]%Z ->
               In b [[5; 0; 8]; [5; 6; 0]; [0; 6; 8]]%Z -> agree a b) /\
  exists cons : tuple,
    consensus [[5; 0; 8]; [5; 6; 0]; [0; 6; 8]]%Z = Some cons /\ length cons = 3 /\
    (forall node, In node [[5; 0; 8]; [5; 6; 0]; [0; 6; 8]]%Z -> agree cons node) /\
    (forall i v, nth_error cons i = Some v -> v <> 0%Z ->
                 exists node, In node [[5; 0; 8]; [5; 6; 0]; [0; 6; 8]]%Z /\
                              nth_error node i = Some v) /\
    (forall i node v, In node [[5; 0; 8]; [5; 6; 0]; [0; 6; 8]]%Z ->
                      nth_error node i = Some v -> v <> 0%Z ->
                      nth_error cons i = Some v).
Proof.
  assert (N : [[5; 0; 8]; [5; 6; 0]; [0; 6; 8]]%Z <> []) by discriminate.
  assert (F : Forall (fun node : tuple => length node = 3)
                     [[5; 0; 8]; [5; 6; 0]; [0; 6; 8]]%Z) by (repeat constructor).
  assert (Ag : forall a b, In a [[5; 0; 8]; [5; 6; 0]; [0; 6; 8]]%Z ->
                           In b [[5; 0; 8]; [5; 6; 0]; [0; 6; 8]]%Z -> agree a b).
  { intros a b Ha Hb. simpl in Ha, Hb.
    destruct Ha as [<-|[<-|[<-|[]]]]; destruct Hb as [<-|[<-|[<-|[]]]]; reflexivity. }
  split; [exact N|]. split; [exact F|]. split; [exact Ag|].
  exact (consensus_agrees_with_members _ 3 N F Ag).
Defined.

Lemma nth_error_eq {A : Type} (l1 : list A) :
  forall l2, length l1 = length l2 ->
             (forall i, i < length l1 -> nth_error l1 i = nth_error l2 i) -> l1 = l2.
Proof.
  induction l1 as [|x l1 IH]; intros [|y l2] L Hn; simpl in L; try discriminate;
    [reflexivity|].
  f_equal.
  - specialize (Hn 0 ltac:(simpl; lia)). simpl in Hn. congruence.
  - apply IH; [lia|]. intros i Hi. apply (Hn (S i)). simpl. lia.
Qed.

(** X8: For nodes of one length that agree pairwise, the consensus does not
    depend on the order in which the nodes are listed. *)
Theorem consensus_order_independent :
  forall (nodes nodes' : list tuple) (n : nat),
    Permutation nodes nodes' ->
    Forall (fun node => length node = n) nodes ->
    (forall a b, In a nodes -> In b nodes -> agree a b) ->
    consensus nodes = consensus nodes'.
Proof.
  intros nodes nodes' n Perm F Ag.
  destruct nodes as [|node0 nodes].
  { apply Permutation_nil in Perm. now subst. }
  assert (N' : nodes' <> []).
  { intros ->. apply Permutation_sym, Permutation_nil in Perm. discriminate. }
  assert (F' : Forall (fun node => length node = n) nodes').
  { rewrite Forall_forall in F |- *. intros x Hx. apply F.
    now apply (Permutation_in _ (Permutation_sym Perm)). }
  assert (Ag' : forall a b, In a nodes' -> In b nodes' -> agree a b).
  { intros a b Ha Hb.
    apply Ag; now apply (Permutation_in _ (Permutation_sym Perm)). }
  destruct (consensus_spec (node0 :: nodes) n ltac:(discriminate) F Ag)
    as [cons [Ec [Lc [Hfrom Hcov]]]].
  destruct (consensus_spec nodes' n N' F' Ag') as [cons' [Ec' [Lc' [Hfrom' Hcov']]]].
  rewrite Ec, Ec'. f_equal. apply nth_error_eq; [congruence|].
  intros i Hi.
  destruct (nth_error cons i) as [v|] eqn:Ev; [|apply nth_error_None in Ev; lia].
  destruct (nth_error cons' i) as [v'|] eqn:Ev'; [|apply nth_error_None in Ev'; lia].
  f_equal. destruct (Z.eq_dec v 0) as [->|Nv].
  - destruct (Z.eq_dec v' 0) as [->|Nv']; [reflexivity|].
    destruct (Hfrom' i v' Ev' Nv') as [node [HIn En]].
    apply (Permutation_in _ (Permutation_sym Perm)) in HIn.
    rewrite (Hcov i node v' HIn En Nv') in Ev. congruence.
  - destruct (Hfrom i v Ev Nv) as [node [HIn En]].
    apply (Permutation_in _ Perm) in HIn.
    rewrite (Hcov' i node v HIn En Nv) in Ev'. congruence.
Qed.

Lemma consensus_order_independent_witness :
  Permutation [[5; 0; 8]; [5; 6; 0]; [0; 6; 8]]%Z [[0; 6; 8]; [5; 0; 8]; [5; 6; 0]]%Z /\
  Forall (fun node => length node = 3) [[5; 0; 8]; [5; 6; 0]; [0; 6; 8]]%Z /\
  (forall a b, In a [[5; 0; 8]; [5; 6; 0]; [0; 6; 8]]%Z ->
               In b [[5; 0; 8]; [5; 6; 0]; [0; 6; 8]]%Z -> agree a b) /\
  consensus [[5; 0; 8]; [5; 6; 0]; [0; 6; 8]]%Z
  = consensus [[0; 6; 8]; [5; 0; 8]; [5; 6; 0]]%Z.
Proof.
  assert (P : Permutation [[5; 0; 8]; [5; 6; 0]; [0; 6; 8]]%Z
                          [[0; 6; 8]; [5; 0; 8]; [5; 6; 0]]%Z).
  { eapply perm_trans; [apply perm_skip; apply perm_swap | apply perm_swap]. }
  assert (F : Forall (fun node : tuple => length node = 3)
                     [[5; 0; 8]; [5; 6; 0]; [0; 6; 8]]%Z) by (repeat constructor).
  assert (Ag : forall a b, In a [[5; 0; 8]; [5; 6; 0]; [0; 6; 8]]%Z ->
                           In b [[5; 0; 8]; [5; 6; 0]; [0; 6; 8]]%Z -> agree a b).
  { intros a b Ha Hb. simpl in Ha, Hb.
    destruct Ha as [<-|[<-|[<-|[]]]]; destruct Hb as [<-|[<-|[<-|[]]]]; reflexivity. }
  split; [exact P|]. split; [exact F|]. split; [exact Ag|].
  exact (consensus_order_independent _ _ 3 P F Ag).
Defined.

(** ** [predict]: the cache *)

(** The three ways in which one row is answered. *)
Lemma predict_row_inv (c c' : classifier) (row : tuple) (t : Z) :
  predict_row c row = Some (t, c') ->
  (dget (predictions c) row = Some t /\ c' = c) \/
  (dget (predictions c) row = None /\ fst (search (ptnlkp c) row) = [] /\
   t = 0%Z /\ c' = c) \/
  (dget (predictions c) row = None /\ fst (search (ptnlkp c) row) <> [] /\
   c' = cache c row t /\ exists ptn, dget (predictions c) ptn = Some t).
Proof.
  unfold predict_row. destruct (dget (predictions c) row) as [t0|] eqn:E.
  - intros [= <- <-]. now left.
  - destruct (fst (search (ptnlkp c) row)) as [|cand cands] eqn:Es.
    + intros [= <- <-]. right. now left.
    + intros Hb. right. right. inv_bind Hb. inv_bind Hb. injection Hb as <- <-.
      repeat split; [discriminate | eauto].
Qed.

Lemma predict_row_keeps (c c' : classifier) (row : tuple) (t : Z) :
  predict_row c row = Some (t, c') ->
  G c' = G c /\ threshold c' = threshold c /\ patterns c' = patterns c /\
  lookup c' = lookup c /\ ptnlkp c' = ptnlkp c /\
  forall k v, dget (predictions c) k = Some v -> dget (predictions c') k = Some v.
Proof.
  intros E. apply predict_row_inv in E.
  destruct E as [[_ ->]|[[_ [_ [_ ->]]]|[Miss [_ [-> _]]]]]; try (repeat split; auto; fail).
  simpl. repeat split; auto. intros k v Ek.
  rewrite dget_dset_other; [assumption|]. intros ->. congruence.
Qed.

(** X10: [predict] answers every row of the matrix it is given, leaves the
    graph, the threshold and the two rule tables as [fit] made them, and
    only adds to the prediction table: an entry that is there keeps its
    value, and a new entry is filed under a row of the matrix, with a
    value that the table already held before the call. *)
Theorem predict_only_adds_entries :
  forall (c c' : classifier) (matrix : list tuple) (out : list Z),
    predict c matrix = Some (out, c') ->
    length out = length matrix /\
    G c' = G c /\ threshold c' = threshold c /\ patterns c' = patterns c /\
    lookup c' = lookup c /\
    (forall k v, dget (predictions c) k = Some v -> dget (predictions c') k = Some v) /\
    (forall k v, dget (predictions c') k = Some v ->
                 dget (predictions c) k = Some v \/
                 (In k matrix /\ exists ptn, dget (predictions c) ptn = Some v)).
Proof.
  intros c c' matrix. revert c c'.
  induction matrix as [|row matrix IH]; intros c c' out E; simpl in E.
  - injection E as <- <-. repeat split; auto.
  - destruct (predict_row c row) as [[t c1]|] eqn:Er; [|discriminate]. simpl in E.
    destruct (predict c1 matrix) as [[out1 c2]|] eqn:Em; [|discriminate]. simpl in E.
    injection E as <- <-.
    destruct (predict_row_keeps _ _ _ _ Er) as [G1 [T1 [P1 [L1 [_ Grow1]]]]].
    destruct (IH _ _ _ Em) as [Len [G2 [T2 [P2 [L2 [Grow2 New2]]]]]].
    split; [simpl; congruence|]. split; [congruence|]. split; [congruence|].
    split; [congruence|]. split; [congruence|]. split; [auto|].
    assert (New1 : forall k v, dget (predictions c1) k = Some v ->
                               dget (predictions c) k = Some v \/
                               (k = row /\ exists ptn, dget (predictions c) ptn = Some v)).
    { intros k v Hk. apply predict_row_inv in Er.
      destruct Er as [[_ ->]|[[_ [_ [_ ->]]]|[_ [_ [-> Hptn]]]]]; [now left | now left |].
      simpl in Hk. destruct (key_eq_dec row k) as [<-|N].
      - rewrite dget_dset_same in Hk. injection Hk as <-. right. auto.
      - rewrite dget_dset_other in Hk by assumption. now left. }
    intros k v Hk. destruct (New2 k v Hk) as [Hk1|[Hin [ptn Hptn]]].
    + destruct (New1 k v Hk1) as [Hk0|[-> Hptn]]; [now left|].
      right. split; [now left | exact Hptn].
    + right. split; [now right|].
      destruct (New1 ptn v Hptn) as [Hk0|[_ Hptn0]]; [eauto | exact Hptn0].
Qed.

Lemma predict_only_adds_entries_witness :
  exists (c c' : classifier) (out : list Z),
    @fit exhaustive_cliques (new_classifier 1) near_X near_y = Some c /\
    predict c [[1; 2; 3]; [1; 9; 0]]%Z = Some (out, c') /\
    length out = length [[1; 2; 3]; [1; 9; 0]]%Z /\
    G c' = G c /\ threshold c' = threshold c /\ patterns c' = patterns c /\
    lookup c' = lookup c /\
    (forall k v, dget (predictions c) k = Some v -> dget (predictions c') k = Some v) /\
    (forall k v, dget (predictions c') k = Some v ->
                 dget (predictions c) k = Some v \/
                 (In k [[1; 2; 3]; [1; 9; 0]]%Z /\
                  exists ptn, dget (predictions c) ptn = Some v)).
Proof.
  eexists. eexists. eexists. split; [vm_compute; reflexivity|].
  match goal with
  | |- ?pred_eq /\ _ => assert (E : pred_eq) by (vm_compute; reflexivity)
  end.
  split; [exact E|].
  exact (predict_only_adds_entries _ _ _ _ E).
Defined.

Lemma predict_row_settles (c c' : classifier) (row : tuple) (t : Z) :
  predict_row c row = Some (t, c') -> settled c' row t.
Proof.
  intros E. apply predict_row_inv in E. unfold settled.
  destruct E as [[E ->]|[[E [Es [-> ->]]]|[_ [_ [-> _]]]]]; [now left | now right |].
  left. simpl. apply dget_dset_same.
Qed.

Lemma settled_kept_by_row (c c' : classifier) (row row' : tuple) (t t' : Z) :
  settled c row t -> predict_row c row' = Some (t', c') -> settled c' row t.
Proof.
  intros S E. apply predict_row_inv in E.
  destruct E as [[_ ->]|[[_ [_ [_ ->]]]|[Miss [Cands [-> _]]]]]; try assumption.
  unfold settled in *. simpl.
  assert (N : row' <> row).
  { intros ->. destruct S as [S|[_ [S _]]]; congruence. }
  rewrite dget_dset_other by assumption. exact S.
Qed.

Lemma settled_kept (matrix : list tuple) :
  forall (c c' : classifier) (row : tuple) (t : Z) (out : list Z),
    settled c row t -> predict c matrix = Some (out, c') -> settled c' row t.
Proof.
  induction matrix as [|row' matrix IH]; intros c c' row t out S E; simpl in E.
  - now injection E as <- <-.
  - destruct (predict_row c row') as [[t1 c1]|] eqn:Er; [|discriminate]. simpl in E.
    destruct (predict c1 matrix) as [[out1 c2]|] eqn:Em; [|discriminate]. simpl in E.
    injection E as <- <-.
    apply (IH _ _ _ _ _ (settled_kept_by_row _ _ _ _ _ _ S Er) Em).
Qed.

Lemma settled_answer (c : classifier) (row : tuple) (t : Z) :
  settled c row t -> predict_row c row = Some (t, c).
Proof.
  unfold settled, predict_row. intros [E|[E [Es ->]]]; rewrite E; [reflexivity|].
  now rewrite Es.
Qed.

(** X11: Asking again gives the same answers and changes nothing: after
    [predict] has answered a matrix, a second call on that matrix returns
    the same values and leaves the classifier as it is. *)
Theorem predict_again_same_answers :
  forall (c c' : classifier) (matrix : list tuple) (out : list Z),
    predict c matrix = Some (out, c') ->
    predict c' matrix = Some (out, c').
Proof.
  intros c c' matrix. revert c c'.
  induction matrix as [|row matrix IH]; intros c c' out E; simpl in E.
  - injection E as <- <-. reflexivity.
  - destruct (predict_row c row) as [[t c1]|] eqn:Er; [|discriminate]. simpl in E.
    destruct (predict c1 matrix) as [[out1 c2]|] eqn:Em; [|discriminate]. simpl in E.
    injection E as <- <-.
    pose proof (settled_kept _ _ _ _ _ _ (predict_row_settles _ _ _ _ Er) Em) as S.
    simpl. rewrite (settled_answer _ _ _ S). simpl.
    rewrite (IH _ _ _ Em). reflexivity.
Qed.

Lemma predict_again_same_answers_witness :
  exists (c c' : classifier) (out : list Z),
    @fit exhaustive_cliques (new_classifier 1) near_X near_y = Some c /\
    predict c [[1; 2; 3]; [0; 0; 7]; [1; 2; 3]]%Z = Some (out, c') /\
    predict c' [[1; 2; 3]; [0; 0; 7]; [1; 2; 3]]%Z = Some (out, c').
Proof.
  eexists. eexists. eexists. split; [vm_compute; reflexivity|].
  match goal with
  | |- ?pred_eq /\ _ => assert (E : pred_eq) by (vm_compute; reflexivity)
  end.
  split; [exact E|].
  exact (predict_again_same_answers _ _ _ _ E).
Defined.

(** ** [fit]: the groups and the graph *)

Lemma skipn_nth_cons {A : Type} (l : list A) :
  forall i v, nth_error l i = Some v -> skipn i l = v :: skipn (S i) l.
Proof.
  induction l as [|x l IH]; intros [|i] v E; simpl in *; try discriminate.
  - now injection E as ->.
  - now apply IH.
Qed.

Lemma tuples_cons (row : list Z) (X : list (list Z)) (v : Z) (y : list Z) :
  tuples (row :: X) (v :: y) = (row ++ [v]) :: tuples X y.
Proof. reflexivity. Qed.

(** The grouping loop: the keys of [P] are the distinct tuples in the
    order of their first occurrence, and each is filed with as many row
    numbers as it has occurrences. *)
Lemma group_rows_spec (y : list Z) (X : list (list Z)) :
  forall (i : nat) (P P' : list (tuple * list nat)),
    group_rows (enumerate_from i X) y P = Some P' ->
    length X <= length (skipn i y) /\
    map fst P' = fold_left set_add (tuples X (skipn i y)) (map fst P) /\
    forall t, length (dget_or P' t [])
              = length (dget_or P t []) + length (filter (key_eqb t) (tuples X (skipn i y))).
Proof.
  induction X as [|row X IH]; intros i P P' E; simpl in E.
  - injection E as <-. simpl. repeat split; [lia|]. intros t.
    unfold tuples. simpl. lia.
  - destruct (nth_error y i) as [v|] eqn:Ev; [|discriminate]. simpl in E.
    rewrite (skipn_nth_cons y i v Ev). rewrite tuples_cons.
    destruct (IH (S i) _ _ E) as [Len [Keys Cnt]].
    split; [cbn [length]; lia|]. split.
    + rewrite Keys, keys_dset_set_add. reflexivity.
    + intros t. rewrite Cnt. cbn [filter].
      destruct (key_eqb t (row ++ [v])) eqn:Et.
      * apply key_eqb_eq in Et. subst t. rewrite dget_or_dset_same.
        rewrite length_app. simpl. lia.
      * rewrite dget_or_dset_other; [reflexivity|].
        intros <-. now rewrite key_eqb_refl in Et.
Qed.

Lemma group_rows_keys (X : list (list Z)) (y : list Z) (P : list (tuple * list nat)) :
  group_rows (enumerate X) y [] = Some P ->
  NoDup (map fst P) /\
  (forall t, In t (map fst P) <-> In t (tuples X y)) /\
  (forall t v, In (t, v) P -> length v = length (filter (key_eqb t) (tuples X y))).
Proof.
  intros E. destruct (group_rows_spec y X 0 [] P E) as [_ [Keys Cnt]]. simpl in Keys, Cnt.
  assert (ND : NoDup (map fst P)).
  { rewrite Keys. apply fold_set_add_NoDup. constructor. }
  split; [exact ND|]. split.
  - intros t. rewrite Keys, fold_set_add_In. simpl. tauto.
  - intros t v HIn. specialize (Cnt t). unfold dget_or in Cnt at 1.
    rewrite (In_dget P t v ND HIn) in Cnt. exact Cnt.
Qed.

Lemma combinations2_distinct {A B : Type} (f : A -> B) (l : list A) (x y : A) :
  NoDup (map f l) -> In (x, y) (combinations2 l) -> f x <> f y.
Proof.
  induction l as [|a l IH]; simpl; intros ND HIn; [contradiction|].
  inversion ND as [|? ? NI ND']; subst.
  apply in_app_or in HIn. destruct HIn as [HIn|HIn].
  - apply in_map_iff in HIn. destruct HIn as [z [E Hz]]. injection E as -> ->.
    intros E. apply NI. rewrite E. now apply in_map.
  - now apply IH.
Qed.

Lemma combinations2_complete {A : Type} (l : list A) (x y : A) :
  In x l -> In y l -> x <> y ->
  In (x, y) (combinations2 l) \/ In (y, x) (combinations2 l).
Proof.
  induction l as [|a l IH]; simpl; intros Hx Hy N; [contradiction|].
  destruct Hx as [->|Hx]; destruct Hy as [->|Hy].
  - contradiction.
  - left. apply in_or_app. left. now apply in_map.
  - right. apply in_or_app. left. now apply in_map.
  - destruct (IH Hx Hy N); [left | right]; apply in_or_app; now right.
Qed.


Lemma add_node_In (g : graph) (q : tuple) (fq : nat) (p : tuple) (f : nat) :
  In (p, f) (g_nodes (add_node g q fq)) -> In (p, f) (g_nodes g) \/ (p, f) = (q, fq).
Proof.
  unfold add_node. destruct (mem q (map fst (g_nodes g))); simpl; [auto|].
  rewrite in_app_iff. simpl. intuition.
Qed.

Lemma add_node_NoDup (g : graph) (q : tuple) (fq : nat) :
  NoDup (map fst (g_nodes g)) -> NoDup (map fst (g_nodes (add_node g q fq))).
Proof.
  intros ND. unfold add_node. destruct (mem q (map fst (g_nodes g))) eqn:E; [assumption|].
  simpl. rewrite map_app. simpl. apply mem_false in E.
  apply NoDup_app; [assumption | repeat constructor; auto |].
  intros x Hx [<-|[]]. contradiction.
Qed.

Lemma add_node_edges (g : graph) (q : tuple) (fq : nat) :
  g_edges (add_node g q fq) = g_edges g.
Proof. unfold add_node. now destruct (mem q (map fst (g_nodes g))). Qed.

Lemma add_pair_sound (th : Z) (items : list (tuple * list nat)) (g : graph)
  (ab : (tuple * list nat) * (tuple * list nat)) :
  In ab (combinations2 items) ->
  graph_sound th items g -> graph_sound th items (add_pair th g ab).
Proof.
  intros Hab [ND [HE HN]]. unfold add_pair. destruct ab as [[pA vA] [pB vB]].
  destruct (compatible pA pB) as [m mm] eqn:Ec.
  destruct (Nat.eqb mm 0 && (th <=? Z.of_nat m)%Z) eqn:Cond; [|exact (conj ND (conj HE HN))].
  apply andb_true_iff in Cond. destruct Cond as [Cmm Cth].
  apply Nat.eqb_eq in Cmm. subst mm. apply Z.leb_le in Cth.
  destruct (combinations2_In _ _ _ Hab) as [HA HB].
  unfold graph_sound, add_edge. cbn [g_nodes g_edges].
  rewrite !add_node_edges. split; [now apply add_node_NoDup, add_node_NoDup|]. split.
  - intros a b w HIn. apply in_app_or in HIn. destruct HIn as [HIn|[E|[]]].
    + now apply HE.
    + injection E as <- <- <-. repeat split; eauto.
  - intros p f HIn. apply add_node_In in HIn. destruct HIn as [HIn|E].
    + apply add_node_In in HIn. destruct HIn as [HIn|E].
      * destruct (HN p f HIn) as [Hv [q [w Hq]]]. split; [assumption|].
        exists q, w. destruct Hq; [left | right]; apply in_or_app; now left.
      * injection E as -> ->. split; [eauto|].
        exists pB, m. left. apply in_or_app. right. now left.
    + injection E as -> ->. split; [eauto|].
      exists pA, m. right. apply in_or_app. right. now left.
Qed.

Lemma fold_add_pair_sound (th : Z) (items : list (tuple * list nat))
  (pairs : list ((tuple * list nat) * (tuple * list nat))) :
  forall g, incl pairs (combinations2 items) ->
            graph_sound th items g ->
            graph_sound th items (fold_left (add_pair th) pairs g).
Proof.
  induction pairs as [|ab pairs IH]; intros g Hincl S; simpl; [assumption|].
  apply IH; [intros x Hx; apply Hincl; now right|].
  apply add_pair_sound; [apply Hincl; now left | assumption].
Qed.

Lemma add_pair_edges_mono (th : Z) (g : graph)
  (ab : (tuple * list nat) * (tuple * list nat)) (e : tuple * tuple * nat) :
  In e (g_edges g) -> In e (g_edges (add_pair th g ab)).
Proof.
  intros HIn. unfold add_pair. destruct ab as [[pA vA] [pB vB]].
  destruct (compatible pA pB) as [m mm].
  destruct (Nat.eqb mm 0 && (th <=? Z.of_nat m)%Z); [|assumption].
  unfold add_edge. simpl. apply in_or_app. left. now rewrite !add_node_edges.
Qed.

Lemma fold_add_pair_edges (th : Z)
  (pairs : list ((tuple * list nat) * (tuple * list nat))) :
  forall g,
    (forall e, In e (g_edges g) -> In e (g_edges (fold_left (add_pair th) pairs g))) /\
    (forall ab, In ab pairs ->
                snd (compatible (fst (fst ab)) (fst (snd ab))) = 0 ->
                (th <= Z.of_nat (fst (compatible (fst (fst ab)) (fst (snd ab)))))%Z ->
                In (fst (fst ab), fst (snd ab),
                    fst (compatible (fst (fst ab)) (fst (snd ab))))
                   (g_edges (fold_left (add_pair th) pairs g))).
Proof.
  induction pairs as [|ab pairs IH]; intros g; simpl.
  - split; [auto | intros ? []].
  - destruct (IH (add_pair th g ab)) as [Mono Comp]. split.
    + intros e He. apply Mono. now apply add_pair_edges_mono.
    + intros ab' [<-|HIn] Hmm Hth; [|now apply Comp].
      apply Mono. unfold add_pair. destruct ab as [[pA vA] [pB vB]]. simpl in *.
      destruct (compatible pA pB) as [m mm]. simpl in *. subst mm.
      rewrite (proj2 (Z.leb_le th (Z.of_nat m)) Hth). simpl.
      apply in_or_app. right. now left.
Qed.

(** X9: The graph that [fit] builds from a new classifier: an edge joins two
    different training tuples without mismatch whose number of matches is
    its weight and reaches the threshold, and every such pair of tuples is
    joined; a node is a training tuple at the end of some edge, listed
    once, and its [freq] is the number of occurrences of the tuple. *)
Theorem fit_graph :
  forall (H : CliqueEnumeration) (threshold : Z) (X : list (list Z)) (y : list Z)
         (c : classifier),
    fit (new_classifier threshold) X y = Some c ->
    NoDup (map fst (g_nodes (G c))) /\
    (forall a b w, In (a, b, w) (g_edges (G c)) ->
                   a <> b /\ In a (tuples X y) /\ In b (tuples X y) /\
                   compatible a b = (w, 0) /\ (threshold <= Z.of_nat w)%Z) /\
    (forall a b, In a (tuples X y) -> In b (tuples X y) -> a <> b ->
                 agree a b -> (threshold <= Z.of_nat (fst (compatible a b)))%Z ->
                 exists w, In (a, b, w) (g_edges (G c)) \/ In (b, a, w) (g_edges (G c))) /\
    (forall p f, In (p, f) (g_nodes (G c)) ->
                 f = length (filter (key_eqb p) (tuples X y)) /\
                 exists q w, In (p, q, w) (g_edges (G c)) \/ In (q, p, w) (g_edges (G c))).
Proof.
  intros H threshold X y c E. unfold fit in E.
  destruct (group_rows (enumerate X) y []) as [P|] eqn:EP; [|discriminate]. simpl in E.
  inv_bind E. inv_bind E. inv_bind E. injection E as <-. cbn [G].
  destruct (group_rows_keys X y P EP) as [NDP [Keys Cnt]].
  set (g := fold_left (add_pair threshold) (combinations2 P) empty_graph).
  assert (S : graph_sound threshold P g).
  { apply fold_add_pair_sound; [apply incl_refl|].
    split; [constructor|]. split; [intros ? ? ? [] | intros ? ? []]. }
  destruct S as [ND [HE HN]]. split; [exact ND|]. split; [|split].
  - intros a b w HIn. destruct (HE a b w HIn) as [Ec [Hth [vA [vB Hc]]]].
    destruct (combinations2_In _ _ _ Hc) as [HA HB].
    split; [exact (combinations2_distinct fst P _ _ NDP Hc)|].
    split; [apply Keys; now apply (in_map fst P (a, vA))|].
    split; [apply Keys; now apply (in_map fst P (b, vB))|]. auto.
  - intros a b Ha Hb N Ag Hth.
    apply Keys, in_map_iff in Ha. destruct Ha as [[a' vA] [Ea HA]]. simpl in Ea. subst a'.
    apply Keys, in_map_iff in Hb. destruct Hb as [[b' vB] [Eb HB]]. simpl in Eb. subst b'.
    assert (N' : (a, vA) <> (b, vB)) by congruence.
    destruct (fold_add_pair_edges threshold (combinations2 P) empty_graph) as [_ Comp].
    destruct (combinations2_complete P _ _ HA HB N') as [Hc|Hc].
    + exists (fst (compatible a b)). left. exact (Comp _ Hc Ag Hth).
    + exists (fst (compatible b a)). right. apply (Comp _ Hc); simpl.
      * unfold compatible. rewrite compatible_fold_swap. exact Ag.
      * unfold compatible. rewrite compatible_fold_swap. exact Hth.
  - intros node f HIn. destruct (HN node f HIn) as [[v [Hv ->]] Hq].
    split; [now apply Cnt | exact Hq].
Qed.

Lemma fit_graph_witness :
  exists c : classifier,
    @fit exhaustive_cliques (new_classifier 1) overlap_X overlap_y = Some c /\
    NoDup (map fst (g_nodes (G c))) /\
    (forall a b w, In (a, b, w) (g_edges (G c)) ->
                   a <> b /\ In a (tuples overlap_X overlap_y) /\
                   In b (tuples overlap_X overlap_y) /\
                   compatible a b = (w, 0) /\ (1 <= Z.of_nat w)%Z) /\
    (forall a b, In a (tuples overlap_X overlap_y) -> In b (tuples overlap_X overlap_y) ->
                 a <> b -> agree a b -> (1 <= Z.of_nat (fst (compatible a b)))%Z ->
                 exists w, In (a, b, w) (g_edges (G c)) \/ In (b, a, w) (g_edges (G c))) /\
    (forall p f, In (p, f) (g_nodes (G c)) ->
                 f = length (filter (key_eqb p) (tuples overlap_X overlap_y)) /\
                 exists q w, In (p, q, w) (g_edges (G c)) \/ In (q, p, w) (g_edges (G c))).
Proof.
  eexists.
  match goal with
  | |- ?fit_eq /\ _ => assert (E : fit_eq) by (vm_compute; reflexivity)
  end.
  split; [exact E|].
  exact (fit_graph exhaustive_cliques 1 overlap_X overlap_y _ E).
Defined.

(** ** [fit] and [predict] together *)

(** [fit] on rows of one width, step by step. *)
Lemma fit_runs (H : CliqueEnumeration) (HL : CliqueEnumerationLaws)
  (threshold : Z) (X : list (list Z)) (y : list Z) (w : nat) :
  length X = length y ->
  Forall (fun row => length row = w) X ->
  exists P rules lk direct final,
    group_rows (enumerate X) y [] = Some P /\
    clique_rules (find_cliques (fold_left (add_pair threshold) (combinations2 P)
                                          empty_graph)) = Some rules /\
    (forall nodes node,
        In nodes (find_cliques (fold_left (add_pair threshold) (combinations2 P)
                                          empty_graph)) ->
        In node nodes -> length node = S w /\ In node (tuples X y)) /\
    lookup_entries_in (fun s => In s (map rule_source rules)) lk /\
    direct_rules (fold_left add_rule rules []) [] = Some direct /\
    resolve_lookup lk direct = Some final /\
    fit (new_classifier threshold) X y
    = Some (mk_classifier (fold_left (add_pair threshold) (combinations2 P) empty_graph)
                          threshold (fold_left add_rule rules []) lk final
                          (build_ptnlkp (fold_left add_rule rules []))).
Proof.
  intros L F.
  destruct (group_rows_total w y X 0 []) as [P [EP HP]]; auto.
  { intros k Hk. simpl. lia. }
  { intros key []. }
  destruct (group_rows_keys X y P EP) as [_ [Keys _]].
  set (g := fold_left (add_pair threshold) (combinations2 P) empty_graph).
  assert (Hg : forall node, In node (map fst (g_nodes g)) -> In node (map fst P)).
  { intros node Hp. apply fold_add_pair_nodes in Hp.
    destruct Hp as [ [] | [ [a b] [Hab Hp] ] ].
    apply combinations2_In in Hab. destruct Hab as [Ha Hb]. simpl in Hp.
    destruct Hp as [-> | ->]; apply in_map; assumption. }
  assert (Hcl : forall nodes node, In nodes (find_cliques g) -> In node nodes ->
                                   length node = S w /\ In node (tuples X y)).
  { intros nodes node Hn Hnode.
    pose proof (Hg node (find_cliques_nodes g nodes node Hn Hnode)) as HIn.
    split; [now apply HP | now apply Keys]. }
  destruct (clique_rules_total w (find_cliques g)) as [rules Er].
  { apply Forall_forall. intros nodes Hn. split.
    - now apply (find_cliques_inhabited g).
    - apply Forall_forall. intros node Hnode. now apply (Hcl nodes). }
  destruct (record_cliques_spec (fun s => In s (map rule_source rules))
                                (find_cliques g) rules ([], []) Er)
    as [st [Est [Ept [WF Keys']]]].
  { intros r Hr. now apply in_map. }
  { intros q inner []. }
  simpl in Ept.
  destruct (patterns_of_rules rules) as [ND [PK [Tg [Rec NE]]]].
  destruct (direct_rules_spec (fold_left add_rule rules []) [] NE)
    as [direct [Ed [DK [_ Hit]]]].
  destruct (resolve_lookup_spec (snd st) direct) as [final [Ef _]].
  { intros q inner HIn. destruct (WF q inner HIn) as [N Sub]. split; [assumption|].
    intros s Hs. apply DK. right. apply PK. now apply Sub. }
  exists P, rules, (snd st), direct, final.
  split; [exact EP|]. split; [exact Er|]. split; [exact Hcl|]. split; [exact WF|].
  split; [exact Ed|]. split; [exact Ef|].
  unfold fit, enumerate. rewrite EP. simpl. fold g. rewrite Est. simpl.
  rewrite Ept, Ed. simpl. rewrite Ef. reflexivity.
Qed.

Lemma clique_rules_In (cliques : list (list tuple)) :
  forall rules r, clique_rules cliques = Some rules -> In r rules ->
                  exists nodes, In nodes cliques /\ clique_rule nodes = Some r.
Proof.
  induction cliques as [|nodes cliques IH]; intros rules r E HIn; simpl in E.
  - injection E as <-. contradiction.
  - inv_bind E. inv_bind E. injection E as <-. destruct HIn as [<-|HIn].
    + exists nodes. split; [now left | assumption].
    + destruct (IH _ _ eq_refl HIn) as [nodes' [Hn Hr]]. exists nodes'. split; [now right | exact Hr].
Qed.

Lemma last_opt_nth {A : Type} (l : list A) :
  forall w, length l = S w -> last_opt l = nth_error l w.
Proof.
  induction l as [|x l IH]; intros w L; simpl in L; [discriminate|].
  destruct l as [|z l].
  - simpl in L. injection L as <-. reflexivity.
  - destruct w as [|w]; [simpl in L; discriminate|].
    change (last_opt (x :: z :: l)) with (last_opt (z :: l)). simpl nth_error.
    apply IH. simpl in *. lia.
Qed.

(** The target of a rule is 0 or the last value of a member of its clique. *)
Lemma clique_rule_target (w : nat) (nodes : list tuple) (r : tuple * Z * nat) :
  clique_rule nodes = Some r ->
  Forall (fun node => length node = S w) nodes ->
  rule_target r = 0%Z \/
  exists node, In node nodes /\ nth_error node w = Some (rule_target r).
Proof.
  unfold clique_rule, consensus. intros E F.
  destruct nodes as [|node0 nodes]; [discriminate|]. cbn [hd_error obind] in E.
  assert (L0 : length node0 = S w) by (inversion F; assumption). rewrite L0 in E.
  destruct (consensus_at_total (S w) (node0 :: nodes) (seq 0 (S w)) F (seq_below (S w)))
    as [cons [Ec Lc]].
  rewrite Ec in E. cbn [obind] in E. rewrite length_seq in Lc.
  destruct (last_opt cons) as [t|] eqn:Et; [|discriminate]. cbn [obind] in E.
  injection E as <-. unfold rule_target. cbn [fst snd].
  rewrite (last_opt_nth cons w Lc) in Et.
  destruct (consensus_at_nth _ _ _ Ec w w) as [res [Er Ev]].
  { rewrite nth_error_seq. destruct (Nat.ltb_spec w (S w)); [reflexivity | lia]. }
  rewrite Et in Ev. injection Ev as ->.
  apply first_known_spec in Er. destruct res as [v|]; [|now left].
  right. tauto.
Qed.

Lemma tuples_last (X : list (list Z)) (y : list Z) (node : tuple) (w : nat) (v : Z) :
  In node (tuples X y) -> length node = S w -> nth_error node w = Some v -> In v y.
Proof.
  unfold tuples. intros HIn L E. apply in_map_iff in HIn.
  destruct HIn as [[row t] [<- HIn]]. simpl in *.
  rewrite length_app in L. simpl in L.
  rewrite nth_error_app2 in E by lia. replace (w - length row) with 0 in E by lia.
  simpl in E. injection E as <-. now apply in_combine_r in HIn.
Qed.

Lemma dget_dset_inv {K V : Type} `{KeySpec K} (d : list (K * V)) (k k' : K) (v t : V) :
  dget (dset d k v) k' = Some t -> t = v \/ dget d k' = Some t.
Proof.
  destruct (key_eq_dec k k') as [<-|N].
  - rewrite dget_dset_same. intros [= <-]. now left.
  - rewrite dget_dset_other by assumption. now right.
Qed.

Lemma direct_rules_values (V : Z -> Prop) (items : patterns_t) :
  (forall p inner t, In (p, inner) items -> In t (map fst inner) -> V t) ->
  forall preds preds' : list (tuple * Z),
    (forall p t, dget preds p = Some t -> V t) ->
    direct_rules items preds = Some preds' ->
    forall p t, dget preds' p = Some t -> V t.
Proof.
  induction items as [|[q inner] items IH]; intros HV preds preds' Hp E; simpl in E.
  - now injection E as <-.
  - inv_bind E.
    refine (IH (fun p i t Hi => HV p i t (or_intror Hi)) _ _ _ E).
    intros p t Hd. apply dget_dset_inv in Hd. destruct Hd as [->|Hd]; [|eauto].
    apply (HV q inner); [now left|]. rewrite <- weighted_keys. now apply best_of_In.
Qed.

Lemma resolve_lookup_values (V : Z -> Prop) (items : lookup_t) :
  forall preds preds' : list (tuple * Z),
    (forall p t, dget preds p = Some t -> V t) ->
    resolve_lookup items preds = Some preds' ->
    forall p t, dget preds' p = Some t -> V t.
Proof.
  induction items as [|[q inner] items IH]; intros preds preds' Hp E; simpl in E.
  - now injection E as <-.
  - inv_bind E. inv_bind E. refine (IH _ _ _ E).
    intros p' t' Hd. apply dget_dset_inv in Hd. destruct Hd as [->|Hd]; eauto.
Qed.

Lemma predict_row_total (c : classifier) (row : tuple) :
  indexed_rules_known c -> exists t c', predict_row c row = Some (t, c').
Proof.
  intros WF. unfold predict_row. destruct (dget (predictions c) row) as [t|]; [eauto|].
  rewrite search_spec. cbn [fst].
  set (found := keep_first (flat_map (bucket (ptnlkp c) row) (seq 0 (length row - 1)))).
  destruct (scored row found) as [|cand cands] eqn:Es; [eauto|].
  destruct (best_of_total (cand :: cands)) as [ptn Eb]; [discriminate|].
  destruct (best_of_first_max _ _ Eb) as [s FM].
  assert (Hp : In ptn found).
  { apply first_max_In in FM. rewrite <- Es in FM. now apply In_scored in FM. }
  unfold found in Hp. apply keep_first_In, in_flat_map in Hp.
  destruct Hp as [i [_ Hp]]. apply In_bucket in Hp. destruct Hp as [v [_ [_ Hp]]].
  destruct (WF _ _ Hp) as [t Et]. rewrite Eb. simpl. rewrite Et. simpl. eauto.
Qed.

Lemma predict_total_values (V : Z -> Prop) (matrix : list tuple) :
  V 0%Z ->
  forall c : classifier,
    answers_in V c ->
    exists out c', predict c matrix = Some (out, c') /\
                   length out = length matrix /\ (forall t, In t out -> V t) /\
                   answers_in V c'.
Proof.
  intros V0. induction matrix as [|row matrix IH]; intros c [WF HV]; simpl.
  - exists [], c. split; [reflexivity|]. split; [reflexivity|].
    split; [intros ? [] | split; assumption].
  - destruct (predict_row_total c row WF) as [t [c1 Er]]. rewrite Er. simpl.
    assert (Vt : V t /\ indexed_rules_known c1 /\
                 forall k t', dget (predictions c1) k = Some t' -> V t').
    { apply predict_row_inv in Er.
      destruct Er as [[E ->]|[[_ [_ [-> ->]]]|[_ [_ [-> [ptn Ep]]]]]].
      - split; [eauto | auto].
      - auto.
      - assert (Vt : V t) by eauto. split; [exact Vt|].
        split; [now apply cache_indexed_rules_known|].
        intros k t' Hd. simpl in Hd. apply dget_dset_inv in Hd.
        destruct Hd as [->|Hd]; eauto. }
    destruct Vt as [Vt [WF1 HV1]].
    destruct (IH c1 (conj WF1 HV1)) as [out [c2 [Em [Lout [Hout A2]]]]]. rewrite Em. simpl.
    exists (t :: out), c2. split; [reflexivity|]. split; [simpl; congruence|].
    split; [|exact A2]. intros t' [<-|HIn]; auto.
Qed.

(** The predictions of a classifier fitted on rows of one width are 0 or
    targets given to [fit]. *)
Lemma fit_answers (H : CliqueEnumeration) (HL : CliqueEnumerationLaws)
  (threshold : Z) (X : list (list Z)) (y : list Z) (w : nat) (c : classifier) :
  length X = length y ->
  Forall (fun row => length row = w) X ->
  fit (new_classifier threshold) X y = Some c ->
  answers_in (fun t => t = 0%Z \/ In t y) c.
Proof.
  intros L F Efit0.
  destruct (fit_runs H HL threshold X y w L F)
    as [P [rules [lk [direct [final [EP [Er [Hcl [WF [Ed [Ef Efit]]]]]]]]]]].
  set (V := fun t : Z => t = 0%Z \/ In t y).
  assert (Vrule : forall r, In r rules -> V (rule_target r)).
  { intros r Hr. destruct (clique_rules_In _ _ _ Er Hr) as [nodes [Hn Hrule]].
    destruct (clique_rule_target w nodes r Hrule) as [E0|[node [Hnode En]]].
    - apply Forall_forall. intros node Hnode. now apply (Hcl nodes).
    - now left.
    - right. destruct (Hcl nodes node Hn Hnode) as [Ln Ht].
      exact (tuples_last X y node w _ Ht Ln En). }
  destruct (patterns_of_rules rules) as [ND [PK [Tg [Rec NE]]]].
  assert (Vdirect : forall p t, dget direct p = Some t -> V t).
  { apply (direct_rules_values V (fold_left add_rule rules []) ) with (preds := []);
      [|discriminate | exact Ed].
    intros p inner t HIn Ht.
    assert (Ei : dget_or (fold_left add_rule rules []) p [] = inner).
    { unfold dget_or. now rewrite (In_dget _ p inner ND HIn). }
    rewrite <- Ei, Tg in Ht. unfold targets_of in Ht.
    apply keep_first_In, in_map_iff in Ht. destruct Ht as [r [<- Hr]].
    apply Vrule. unfold rules_of in Hr. now apply filter_In in Hr. }
  split.
  - exact (fit_indexed_rules_known H _ _ X y Efit0).
  - rewrite Efit in Efit0. injection Efit0 as <-. simpl.
    exact (resolve_lookup_values V lk direct final Vdirect Ef).
Qed.

(** A classifier fitted on rows of one width answers every matrix, one
    answer per row, each of them 0 or a target given to [fit]. *)
Lemma fit_then_predict (H : CliqueEnumeration) (HL : CliqueEnumerationLaws)
  (threshold : Z) (X : list (list Z)) (y : list Z) (w : nat) (c : classifier) :
  length X = length y ->
  Forall (fun row => length row = w) X ->
  fit (new_classifier threshold) X y = Some c ->
  forall matrix : list tuple,
    exists out c',
      predict c matrix = Some (out, c') /\
      length out = length matrix /\
      forall t, In t out -> t = 0%Z \/ In t y.
Proof.
  intros L F Efit matrix.
  destruct (predict_total_values (fun t => t = 0%Z \/ In t y) matrix (or_introl eq_refl) c
                                 (fit_answers H HL threshold X y w c L F Efit))
    as [out [c' [Ep [Lo [Ho _]]]]].
  exists out, c'. auto.
Qed.

(** X12: After [fit] on rows of one width, [predict] answers every matrix,
    whatever its rows, and each answer is 0, the missing sentinel, or a
    target that was given to [fit]. *)
Theorem predict_returns_seen_targets :
  forall (H : CliqueEnumeration) (HL : CliqueEnumerationLaws)
         (threshold : Z) (X : list (list Z)) (y : list Z) (w : nat),
    length X = length y ->
    Forall (fun row => length row = w) X ->
    exists c : classifier,
      fit (new_classifier threshold) X y = Some c /\
      forall matrix : list tuple,
        exists out c',
          predict c matrix = Some (out, c') /\
          forall t, In t out -> t = 0%Z \/ In t y.
Proof.
  intros H HL threshold X y w L F.
  destruct (fit_runs H HL threshold X y w L F)
    as [P [rules [lk [direct [final [_ [_ [_ [_ [_ [_ Efit]]]]]]]]]]].
  eexists. split; [exact Efit|]. intros matrix.
  destruct (fit_then_predict H HL threshold X y w _ L F Efit matrix)
    as [out [c' [Ep [_ Hout]]]].
  exists out, c'. auto.
Qed.

Lemma predict_returns_seen_targets_witness :
  length near_X = length near_y /\
  Forall (fun row => length row = 3) near_X /\
  exists c : classifier,
    @fit exhaustive_cliques (new_classifier 1) near_X near_y = Some c /\
    forall matrix : list tuple,
      exists out c',
        predict c matrix = Some (out, c') /\
        forall t, In t out -> t = 0%Z \/ In t near_y.
Proof.
  assert (F : Forall (fun row : list Z => length row = 3) near_X).
  { repeat constructor. }
  split; [reflexivity|]. split; [exact F|].
  exact (predict_returns_seen_targets exhaustive_cliques exhaustive_cliques_laws 1
                                      near_X near_y 3 eq_refl F).
Defined.

(** ** [simple_align] *)

Lemma index_of_spec (x : string) (l : list string) :
  forall k, index_of x l = Some k -> nth_error l k = Some x.
Proof.
  induction l as [|y l IH]; intros k E; simpl in E; [discriminate|].
  destruct (String.eqb_spec x y) as [->|N].
  - now injection E as <-.
  - destruct (index_of x l) as [k'|]; [|discriminate]. simpl in E.
    injection E as <-. simpl. now apply IH.
Qed.

Lemma index_of_None (x : string) (l : list string) :
  index_of x l = None <-> ~ In x l.
Proof.
  induction l as [|y l IH]; simpl; [tauto|].
  destruct (String.eqb_spec x y) as [->|N].
  - split; [discriminate | intros C; exfalso; apply C; now left].
  - destruct (index_of x l) as [k'|]; simpl.
    + split; [discriminate|]. intros C. exfalso.
      assert (C' : ~ In x l) by tauto. apply IH in C'. discriminate.
    + split; [|reflexivity]. intros _ [E|HIn]; [congruence | exact (proj1 IH eq_refl HIn)].
Qed.

Lemma index_of_inj (x x' : string) (l : list string) (k : nat) :
  index_of x l = Some k -> index_of x' l = Some k -> x = x'.
Proof.
  intros E E'. apply index_of_spec in E, E'. congruence.
Qed.

Lemma set_nth_spec {A : Type} (l : list A) :
  forall (i : nat) (v : A) (l' : list A),
    set_nth l i v = Some l' ->
    length l' = length l /\ nth_error l' i = Some v /\
    forall k, k <> i -> nth_error l' k = nth_error l k.
Proof.
  induction l as [|x l IH]; intros i v l' E; simpl in E; [discriminate|].
  destruct i as [|i].
  - injection E as <-. repeat split. intros [|k] N; [congruence | reflexivity].
  - destruct (set_nth l i v) as [l1|] eqn:E1; [|discriminate]. simpl in E.
    injection E as <-. destruct (IH _ _ _ E1) as [L [Hv Ho]].
    split; [simpl; congruence|]. split; [exact Hv|].
    intros [|k] N; [reflexivity|]. simpl. apply Ho. congruence.
Qed.

(** One row of the matrix: every language of the alignment writes its
    site into its column, and a column that no language writes keeps its
    value. *)
Lemma fill_row_spec (alms : list (list string)) (all_languages : list string) (i : nat)
  (langs : list (nat * string)) :
  forall row row' : list string,
    fill_row alms all_languages i langs row = Some row' ->
    length row' = length row /\
    (forall j lng, In (j, lng) langs ->
                   exists k alm site,
                     index_of lng all_languages = Some k /\
                     nth_error alms j = Some alm /\ nth_error alm i = Some site) /\
    forall k,
      (nth_error row' k = nth_error row k /\
       forall j lng, In (j, lng) langs -> index_of lng all_languages <> Some k) \/
      (exists j lng alm site,
          In (j, lng) langs /\ index_of lng all_languages = Some k /\
          nth_error alms j = Some alm /\ nth_error alm i = Some site /\
          nth_error row' k = Some site).
Proof.
  induction langs as [|[j lng] langs IH]; intros row row' E; simpl in E.
  - injection E as <-. split; [reflexivity|]. split; [intros ? ? []|].
    intros k. left. split; [reflexivity | intros ? ? []].
  - destruct (index_of lng all_languages) as [lidx|] eqn:Ei; [|discriminate].
    cbn [obind] in E.
    destruct (nth_error alms j) as [alm|] eqn:Ea; [|discriminate]. cbn [obind] in E.
    destruct (nth_error alm i) as [site|] eqn:Es; [|discriminate]. cbn [obind] in E.
    destruct (set_nth row lidx site) as [row1|] eqn:Er; [|discriminate].
    cbn [obind] in E.
    destruct (set_nth_spec _ _ _ _ Er) as [L1 [Hv Ho]].
    destruct (IH _ _ E) as [L [Hall Hk]].
    split; [congruence|]. split.
    + intros j' lng' [Eq|HIn]; [|now apply Hall].
      injection Eq as <- <-. exists lidx, alm, site. auto.
    + intros k. destruct (Hk k) as [[Same Hno]|[j' [lng' [alm' [site' Hw]]]]].
      * destruct (Nat.eq_dec k lidx) as [->|N].
        -- right. exists j, lng, alm, site.
           split; [now left|]. repeat split; try assumption. congruence.
        -- left. split; [rewrite Same; now apply Ho|].
           intros j' lng' [Eq|HIn]; [|exact (Hno _ _ HIn)].
           injection Eq as <- <-. congruence.
      * right. exists j', lng', alm', site'.
        destruct Hw as [HIn Hw]. split; [now right | exact Hw].
Qed.

Lemma fill_rows_spec (alms : list (list string)) (languages all_languages : list string)
  (missing : string) (rows : list nat) :
  forall matrix : list (list string),
    fill_rows alms languages all_languages missing rows = Some matrix ->
    Forall2 (fun i row => fill_row alms all_languages i (enumerate languages)
                                   (map (fun _ => missing) all_languages) = Some row)
            rows matrix.
Proof.
  induction rows as [|i rows IH]; intros matrix E; simpl in E.
  - injection E as <-. constructor.
  - inv_bind E. inv_bind E. injection E as <-. constructor; auto.
Qed.

Lemma enumerate_unique {A : Type} (l : list A) (j j' : nat) (x : A) :
  NoDup l -> In (j, x) (enumerate l) -> In (j', x) (enumerate l) -> j = j'.
Proof.
  unfold enumerate. intros ND Hj Hj'.
  apply enumerate_from_nth in Hj, Hj'. rewrite Nat.sub_0_r in Hj, Hj'.
  destruct Hj as [_ Hj], Hj' as [_ Hj'].
  apply (proj1 (NoDup_nth_error l) ND); [|congruence].
  apply nth_error_Some. congruence.
Qed.

(** X13: The matrix that [simple_align] returns has one row per column of the
    alignment and one cell per language of the data set.  When no language
    is listed twice, the cell of row [i] in the column of the [j]-th listed
    language is site [i] of the [j]-th aligned sequence, and the column of
    a language that is not listed holds the missing sentinel; so the call
    succeeds on a non-empty alignment only if every listed language is a
    language of the data set and has an aligned sequence. *)
Theorem simple_align_places_languages :
  forall (align_seqs : aligner) (seqs : list (list string))
         (languages all_languages : list string) (training : bool)
         (missing gap : string) (matrix : list (list string)),
    simple_align align_seqs seqs languages all_languages training missing gap
    = Some matrix ->
    NoDup languages ->
    exists alms : list (list string),
      (if training
       then proto <- last_opt languages ;;
            ungap (align_seqs (map (filter (fun s => negb (String.eqb s gap))) seqs))
                  languages proto
       else Some (align_seqs (map (filter (fun s => negb (String.eqb s gap))) seqs)))
      = Some alms /\
      length matrix = length (hd [] alms) /\
      forall i row,
        nth_error matrix i = Some row ->
        length row = length all_languages /\
        (forall j lng,
            nth_error languages j = Some lng ->
            exists k alm site,
              index_of lng all_languages = Some k /\
              nth_error alms j = Some alm /\ nth_error alm i = Some site /\
              nth_error row k = Some site) /\
        (forall k lng,
            nth_error all_languages k = Some lng -> ~ In lng languages ->
            nth_error row k = Some missing).
Proof.
  intros align_seqs seqs languages all_languages training missing gap matrix E ND.
  unfold simple_align in E.
  match type of E with
  | obind ?stage _ = _ => destruct stage as [alms|] eqn:Es; [|discriminate E]
  end.
  cbn [obind] in E. exists alms. split; [reflexivity|].
  destruct alms as [|row0 alms']; [discriminate E|]. cbn [hd_error obind hd] in E.
  apply fill_rows_spec in E.
  split; [rewrite <- (Forall2_length E); now rewrite length_seq|].
  intros i row Hi.
  destruct (Forall2_nth_right _ _ _ E _ _ Hi) as [i' [Hi' Hrow]].
  assert (i' = i) as ->.
  { assert (Hlt : i < length (seq 0 (length row0))).
    { apply nth_error_Some. congruence. }
    rewrite length_seq in Hlt. rewrite nth_error_seq in Hi'.
    destruct (Nat.ltb_spec i (length row0)); [|lia]. now injection Hi'. }
  destruct (fill_row_spec _ _ _ _ _ _ Hrow) as [L [Hall Hk]].
  rewrite length_map in L. split; [exact L|]. split.
  - intros j lng Hj.
    assert (HIn : In (j, lng) (enumerate languages)).
    { apply enumerate_from_nth. rewrite Nat.sub_0_r. split; [lia | exact Hj]. }
    destruct (Hall j lng HIn) as [k [alm [site [Ek [Ea Esite]]]]].
    exists k, alm, site. repeat split; try assumption.
    destruct (Hk k) as [[_ Hno]|[j' [lng' [alm' [site' [HIn' [Ek' [Ea' [Es' Hr]]]]]]]]].
    + exfalso. exact (Hno j lng HIn Ek).
    + assert (lng' = lng) as -> by exact (index_of_inj _ _ _ _ Ek' Ek).
      assert (j' = j) as -> by exact (enumerate_unique _ _ _ _ ND HIn' HIn).
      congruence.
  - intros k lng Hk' Hout.
    destruct (Hk k) as [[Same _]|[j' [lng' [alm' [site' [HIn' [Ek' _]]]]]]].
    + rewrite Same, nth_error_map, Hk'. reflexivity.
    + exfalso. apply Hout. apply index_of_spec in Ek'.
      assert (lng' = lng) as -> by congruence.
      apply enumerate_from_nth in HIn'. destruct HIn' as [_ HIn'].
      now apply nth_error_In in HIn'.
Qed.

Lemma simple_align_places_languages_witness :
  exists matrix : list (list string),
    simple_align pad_alignment [["a"; "b"]; ["a"]] ["B"; "A"] ["A"; "B"; "C"]
                 true "Ø" "-" = Some matrix /\
    NoDup ["B"; "A"] /\
    exists alms : list (list string),
      (proto <- last_opt ["B"; "A"] ;;
       ungap (pad_alignment (map (filter (fun s => negb (String.eqb s "-")))
                                 [["a"; "b"]; ["a"]]))
             ["B"; "A"] proto)
      = Some alms /\
      length matrix = length (hd [] alms) /\
      forall i row,
        nth_error matrix i = Some row ->
        length row = length ["A"; "B"; "C"] /\
        (forall j lng,
            nth_error ["B"; "A"] j = Some lng ->
            exists k alm site,
              index_of lng ["A"; "B"; "C"] = Some k /\
              nth_error alms j = Some alm /\ nth_error alm i = Some site /\
              nth_error row k = Some site) /\
        (forall k lng,
            nth_error ["A"; "B"; "C"] k = Some lng -> ~ In lng ["B"; "A"] ->
            nth_error row k = Some "Ø").
Proof.
  assert (ND : NoDup ["B"; "A"]).
  { repeat constructor; simpl; intuition discriminate. }
  eexists.
  match goal with
  | |- ?run /\ _ => assert (E : run) by (vm_compute; reflexivity)
  end.
  split; [exact E|]. split; [exact ND|].
  exact (simple_align_places_languages pad_alignment _ _ _ true _ _ _ E ND).
Defined.

(** ** [Baseline.__init__] *)

Lemma scan_languages_spec (data : list (string * list string)) (langs : list string) :
  forall acc res,
    scan_languages langs data acc = Some res ->
    res = (fst (fst acc) ++ map (form_of data) (filter (attested data) langs),
           snd (fst acc) ++ filter (attested data) langs,
           snd acc ++ filter (queried data) langs).
Proof.
  induction langs as [|language langs IH]; intros [[alms languages] queries] res E;
    simpl in E.
  - injection E as <-. simpl. now rewrite !app_nil_r.
  - destruct (dget data language) as [form|] eqn:Ef; [|discriminate]. cbn [obind] in E.
    assert (Ha : attested data language = nonempty form && negb (is_query form)).
    { unfold attested. now rewrite Ef. }
    assert (Hq : queried data language = nonempty form && is_query form).
    { unfold queried. now rewrite Ef. }
    assert (Hf : form_of data language = form).
    { unfold form_of, dget_or. now rewrite Ef. }
    cbn [filter]. rewrite Ha, Hq.
    destruct (nonempty form); destruct (is_query form); cbn [andb negb] in *;
      apply IH in E; subst res; cbn [fst snd map]; rewrite <- ?app_assoc;
      rewrite ?Hf; reflexivity.
Qed.

Lemma map_snd_enumerate_from {A : Type} (l : list A) :
  forall s, map snd (enumerate_from s l) = l.
Proof. induction l as [|x l IH]; intros s; simpl; [reflexivity | now rewrite IH]. Qed.

Lemma filter_all {A : Type} (f : A -> bool) (l : list A) :
  (forall x, In x l -> f x = true) -> filter f l = l.
Proof.
  induction l as [|x l IH]; intros Hf; simpl; [reflexivity|].
  rewrite (Hf x) by now left. f_equal. apply IH. intros y Hy. apply Hf. now right.
Qed.

(** Leaving out by position is leaving out by name when no name occurs
    twice. *)
Lemma others_from_filter (x : string) (l : list string) :
  forall (s i : nat),
    NoDup l -> nth_error l i = Some x ->
    map snd (filter (fun p => negb (Nat.eqb (s + i) (fst p))) (enumerate_from s l))
    = filter (fun y => negb (String.eqb y x)) l.
Proof.
  induction l as [|y l IH]; intros s i ND E; [destruct i; discriminate|].
  inversion ND as [|? ? NI ND']; subst. destruct i as [|i]; simpl in E.
  - injection E as ->. cbn [enumerate_from filter fst]. rewrite Nat.add_0_r, Nat.eqb_refl.
    cbn [negb]. rewrite String.eqb_refl. cbn [negb].
    rewrite !filter_all.
    + apply map_snd_enumerate_from.
    + intros z Hz. destruct (String.eqb_spec z x); [subst; contradiction | reflexivity].
    + intros [k z] Hz. apply enumerate_from_nth in Hz. simpl.
      destruct (Nat.eqb_spec s k); [lia | reflexivity].
  - cbn [enumerate_from filter fst].
    destruct (Nat.eqb_spec (s + S i) s); [lia|]. cbn [negb map snd].
    destruct (String.eqb_spec y x) as [->|N].
    + exfalso. apply NI. now apply nth_error_In in E.
    + cbn [negb]. f_equal. rewrite <- (IH (S s) i ND' E).
      replace (S s + i) with (s + S i) by lia. reflexivity.
Qed.

Lemma enumerate_from_map {A B : Type} (f : A -> B) (l : list A) :
  forall s, enumerate_from s (map f l)
            = map (fun p => (fst p, f (snd p))) (enumerate_from s l).
Proof. induction l as [|x l IH]; intros s; simpl; [reflexivity | now rewrite IH]. Qed.

Lemma others_map {A B : Type} (f : A -> B) (i : nat) (l : list A) :
  others i (map f l) = map f (others i l).
Proof.
  unfold others, enumerate. rewrite enumerate_from_map. generalize 0.
  induction l as [|x l IH]; intros s; simpl; [reflexivity|].
  destruct (negb (Nat.eqb i s)); simpl; now rewrite IH.
Qed.

Lemma others_filter (x : string) (l : list string) (i : nat) :
  NoDup l -> nth_error l i = Some x ->
  others i l = filter (fun y => negb (String.eqb y x)) l.
Proof. intros ND E. exact (others_from_filter x l 0 i ND E). Qed.

(** What the loop over the attested languages files under each language. *)
Lemma add_instances_spec (cogid : string) (languages : list string)
  (alms : list (list string)) (todo : list (nat * string)) :
  forall alignments res,
    add_instances cogid languages alms todo alignments = Some res ->
    forall L,
      dget res L
      = option_map
          (fun mine =>
             mine ++
             flat_map (fun it =>
                         if String.eqb (snd it) L
                         then [(cogid,
                                filter (fun lang => negb (String.eqb lang (snd it))) languages
                                ++ [snd it],
                                others (fst it) alms ++ [nth (fst it) alms []])]
                         else [])
                      todo)
          (dget alignments L).
Proof.
  induction todo as [|[i language] todo IH]; intros alignments res E L; simpl in E.
  - injection E as <-. simpl. destruct (dget alignments L); simpl; [|reflexivity].
    now rewrite app_nil_r.
  - destruct (dget alignments language) as [mine|] eqn:Em; [|discriminate].
    cbn [obind] in E.
    destruct (nth_error alms i) as [alm|] eqn:Ea; [|discriminate]. cbn [obind] in E.
    rewrite (IH _ _ E L). cbn [flat_map fst snd].
    destruct (String.eqb_spec language L) as [->|N].
    + rewrite dget_dset_same, Em. cbn [option_map].
      rewrite (nth_error_nth _ _ _ Ea), <- app_assoc. reflexivity.
    + rewrite dget_dset_other by assumption. reflexivity.
Qed.

Lemma mem_str_false (x : string) (l : list string) : mem_str x l = false <-> ~ In x l.
Proof.
  rewrite <- mem_str_true. destruct (mem_str x l); split; intros; easy.
Qed.

Lemma flat_map_single {A B : Type} (l : list (A * string)) (L : string)
  (g : A * string -> B) (v : B) :
  NoDup (map snd l) ->
  (forall it, In it l -> snd it = L -> g it = v) ->
  flat_map (fun it => if String.eqb (snd it) L then [g it] else []) l
  = if mem_str L (map snd l) then [v] else [].
Proof.
  induction l as [|it l IH]; intros ND Hg; [reflexivity|].
  inversion ND as [|? ? NI ND']; subst. cbn [flat_map map mem_str existsb].
  fold (mem_str L (map snd l)).
  rewrite (IH ND') by (intros it' Hit; apply Hg; now right).
  rewrite (String.eqb_sym L (snd it)).
  destruct (String.eqb_spec (snd it) L) as [E|N]; [|reflexivity].
  rewrite (Hg it (or_introl eq_refl) E). subst L.
  apply mem_str_false in NI. rewrite NI. reflexivity.
Qed.

Lemma attested_known (data : list (string * list string)) (languages : list string)
  (L : string) :
  In L languages ->
  mem_str L (filter (attested data) languages) = attested data L.
Proof.
  intros HIn. destruct (attested data L) eqn:E.
  - apply mem_str_true, filter_In. auto.
  - apply mem_str_false. intros C. apply filter_In in C. destruct C as [_ C]. congruence.
Qed.

Lemma init_rows_alignments (languages : list string) :
  NoDup languages ->
  forall rows st st',
    init_rows languages rows st = Some st' ->
    forall L, In L languages ->
              dget (fst st') L
              = option_map (fun mine => mine ++ instances_of languages rows L)
                           (dget (fst st) L).
Proof.
  intros ND. induction rows as [|[cogid data] rows IH]; intros st st' E L HL; simpl in E.
  - injection E as <-. unfold instances_of. simpl.
    destruct (dget (fst st) L); simpl; [now rewrite app_nil_r | reflexivity].
  - destruct (scan_languages languages data ([], [], [])) as [[[alms langs] queries]|] eqn:Es;
      [|discriminate].
    cbn [obind] in E. apply scan_languages_spec in Es. simpl in Es.
    injection Es as -> -> ->.
    set (known := filter (attested data) languages) in *.
    destruct (add_instances cogid known (map (form_of data) known) (enumerate known)
                            (fst st)) as [alignments|] eqn:Ea; [|discriminate].
    cbn [obind] in E. rewrite (IH _ _ E L HL). cbn [fst].
    rewrite (add_instances_spec _ _ _ _ _ _ Ea L).
    assert (NDk : NoDup known) by (apply NoDup_filter; exact ND).
    rewrite (flat_map_single (enumerate known) L _ (leave_one_out languages (cogid, data) L)).
    + unfold enumerate. rewrite map_snd_enumerate_from.
      unfold known at 1. rewrite (attested_known data languages L HL).
      unfold instances_of. cbn [flat_map snd].
      destruct (dget (fst st) L); [|reflexivity]. cbn [option_map].
      rewrite <- app_assoc. reflexivity.
    + unfold enumerate. now rewrite map_snd_enumerate_from.
    + intros [i language] Hit EL. cbn [fst snd] in *. subst language.
      apply enumerate_from_nth in Hit. rewrite Nat.sub_0_r in Hit. destruct Hit as [_ Hi].
      unfold leave_one_out. cbn [fst snd]. fold known. f_equal.
      rewrite map_app, others_map, (others_filter L known i NDk Hi). cbn [map].
      f_equal. erewrite nth_error_nth; [reflexivity|].
      rewrite nth_error_map, Hi. reflexivity.
Qed.

Lemma init_rows_to_predict (languages : list string) :
  forall rows st st',
    init_rows languages rows st = Some st' ->
    forall cogid,
      dget_or (snd st') cogid [] = dget_or (snd st) cogid [] ++ queries_of languages rows cogid.
Proof.
  induction rows as [|[cogid data] rows IH]; intros st st' E c; simpl in E.
  - injection E as <-. unfold queries_of. simpl. now rewrite app_nil_r.
  - destruct (scan_languages languages data ([], [], [])) as [[[alms langs] queries]|] eqn:Es;
      [|discriminate].
    cbn [obind] in E. apply scan_languages_spec in Es. simpl in Es.
    injection Es as -> -> ->.
    destruct (add_instances cogid _ _ _ (fst st)) as [alignments|]; [|discriminate].
    cbn [obind] in E. rewrite (IH _ _ E c). cbn [snd]. unfold queries_of.
    cbn [flat_map fst snd]. rewrite app_assoc. f_equal.
    destruct (String.eqb_spec cogid c) as [->|N].
    + unfold nonempty. destruct (filter (queried data) languages) as [|q qs] eqn:Eq.
      * simpl. now rewrite app_nil_r.
      * cbn [length Nat.eqb negb]. now rewrite dget_or_dset_same.
    + rewrite app_nil_r. destruct (nonempty (filter (queried data) languages));
        [|reflexivity].
      now rewrite dget_or_dset_other.
Qed.

Lemma dget_initial {V : Type} (v : V) (languages : list string) (L : string) :
  In L languages -> dget (dict_of (map (fun l => (l, v)) languages)) L = Some v.
Proof.
  intros HIn. unfold dict_of.
  assert (G0 : forall pairs (acc : list (string * V)),
             (In L (map fst pairs) \/ dget acc L = Some v) ->
             (forall kv, In kv pairs -> snd kv = v) ->
             dget (fold_left (fun d kv => dset d (fst kv) (snd kv)) pairs acc) L = Some v).
  { induction pairs as [|[k v'] pairs IH]; intros acc Hor Hv; simpl.
    - destruct Hor as [[]|]; assumption.
    - apply IH; [|intros kv Hkv; apply Hv; now right].
      assert (v' = v) as -> by exact (Hv (k, v') (or_introl eq_refl)).
      destruct (String.eqb_spec k L) as [->|N].
      + right. apply dget_dset_same.
      + destruct Hor as [[E|HIn']|Hd]; [simpl in E; congruence | now left |].
        right. now rewrite dget_dset_other. }
  apply G0.
  - left. rewrite map_map. simpl. now rewrite map_id.
  - intros kv Hkv. apply in_map_iff in Hkv. destruct Hkv as [l [<- _]]. reflexivity.
Qed.

(** X15: [Baseline.__init__] files under every language of the data set one
    training instance per cognate set in which the language is attested,
    in the order of the table: the other attested languages in the order
    of the data set, then the language itself, each paired with its own
    form.  The language to learn is therefore always the last one of its
    instances. *)
Theorem baseline_init_instances :
  forall (languages : list string) (data : cognate_table) (missing gap : string)
         (threshold : Z) (b : baseline),
    baseline_init languages data missing gap threshold = Some b ->
    NoDup languages ->
    forall L, In L languages ->
              dget (b_alignments b) L = Some (instances_of languages data L).
Proof.
  intros languages data missing gap threshold b E ND L HL.
  unfold baseline_init in E. inv_bind E. injection E as <-. cbn [b_alignments].
  match goal with
  | Hinit : init_rows _ _ _ = Some _ |- _ =>
      rewrite (init_rows_alignments languages ND _ _ _ Hinit L HL)
  end.
  cbn [fst]. rewrite (dget_initial [] languages L HL). reflexivity.
Qed.

Lemma baseline_init_instances_witness :
  exists b : baseline,
    baseline_init ["A"; "B"; "C"]
                  (load_table ["A"; "B"; "C"]
                              [("1", [["a"]; ["b"; "c"]; ["?"]]);
                               ("2", [["d"]; []; ["e"]])])
                  "Ø" "-" 1 = Some b /\
    NoDup ["A"; "B"; "C"] /\
    forall L, In L ["A"; "B"; "C"] ->
              dget (b_alignments b) L
              = Some (instances_of ["A"; "B"; "C"]
                                   (load_table ["A"; "B"; "C"]
                                               [("1", [["a"]; ["b"; "c"]; ["?"]]);
                                                ("2", [["d"]; []; ["e"]])])
                                   L).
Proof.
  assert (ND : NoDup ["A"; "B"; "C"]).
  { repeat constructor; simpl; intuition discriminate. }
  eexists.
  match goal with
  | |- ?run /\ _ => assert (E : run) by (vm_compute; reflexivity)
  end.
  split; [exact E|]. split; [exact ND|].
  exact (baseline_init_instances _ _ _ _ _ _ E ND).
Defined.

Lemma init_rows_to_predict_keys (languages : list string) :
  forall rows st st',
    init_rows languages rows st = Some st' ->
    forall cogid,
      In cogid (map fst (snd st')) <->
      In cogid (map fst (snd st)) \/ queries_of languages rows cogid <> [].
Proof.
  induction rows as [|[cogid data] rows IH]; intros st st' E c; simpl in E.
  - injection E as <-. unfold queries_of. simpl. tauto.
  - destruct (scan_languages languages data ([], [], [])) as [[[alms langs] queries]|] eqn:Es;
      [|discriminate].
    cbn [obind] in E. apply scan_languages_spec in Es. simpl in Es.
    injection Es as -> -> ->.
    destruct (add_instances cogid _ _ _ (fst st)) as [alignments|]; [|discriminate].
    cbn [obind] in E. rewrite (IH _ _ E c). cbn [snd]. unfold queries_of.
    cbn [flat_map fst snd]. fold (queries_of languages rows c).
    assert (Happ : forall l1 l2 : list string, l1 ++ l2 <> [] <-> l1 <> [] \/ l2 <> []).
    { intros [|x l1] l2; simpl; split; try tauto; try (intros _; left; discriminate).
      intros _. discriminate. }
    rewrite Happ. unfold nonempty.
    destruct (filter (queried data) languages) as [|q qs] eqn:Eq; cbn [length Nat.eqb negb].
    + destruct (String.eqb cogid c); tauto.
    + rewrite In_keys_dset. destruct (String.eqb_spec cogid c) as [->|N].
      * split; [intros _; right; left; discriminate | tauto].
      * split; [intros [[C|HIn]|Hq]; [congruence | tauto | tauto] | tauto].
Qed.

(** X16: [Baseline.__init__] records for every cognate set the languages whose
    form is the query mark, in the order of the data set, and records
    nothing for a cognate set without such a language. *)
Theorem baseline_init_to_predict :
  forall (languages : list string) (data : cognate_table) (missing gap : string)
         (threshold : Z) (b : baseline) (cogid : string),
    baseline_init languages data missing gap threshold = Some b ->
    dget_or (b_to_predict b) cogid [] = queries_of languages data cogid /\
    (In cogid (map fst (b_to_predict b)) <-> queries_of languages data cogid <> []).
Proof.
  intros languages data missing gap threshold b cogid E.
  unfold baseline_init in E. inv_bind E. injection E as <-. cbn [b_to_predict].
  match goal with
  | Hinit : init_rows _ _ _ = Some _ |- _ =>
      rewrite (init_rows_to_predict languages _ _ _ Hinit cogid),
              (init_rows_to_predict_keys languages _ _ _ Hinit cogid)
  end.
  cbn [snd]. split; [reflexivity|]. simpl. tauto.
Qed.

Lemma baseline_init_to_predict_witness :
  exists b : baseline,
    baseline_init ["A"; "B"; "C"]
                  (load_table ["A"; "B"; "C"]
                              [("1", [["a"]; ["?"]; ["?"]]);
                               ("2", [["d"]; []; ["e"]])])
                  "Ø" "-" 1 = Some b /\
    dget_or (b_to_predict b) "1" []
    = queries_of ["A"; "B"; "C"]
                 (load_table ["A"; "B"; "C"]
                             [("1", [["a"]; ["?"]; ["?"]]);
                              ("2", [["d"]; []; ["e"]])])
                 "1" /\
    (In "1" (map fst (b_to_predict b)) <->
     queries_of ["A"; "B"; "C"]
                (load_table ["A"; "B"; "C"]
                            [("1", [["a"]; ["?"]; ["?"]]);
                             ("2", [["d"]; []; ["e"]])])
                "1" <> []).
Proof.
  eexists.
  match goal with
  | |- ?run /\ _ => assert (E : run) by (vm_compute; reflexivity)
  end.
  split; [exact E|].
  exact (baseline_init_to_predict _ _ _ _ _ _ "1" E).
Defined.

(** ** [Baseline.fit] *)

Lemma ungap_shape (alignment : list (list string)) (languages : list string)
  (proto : string) (n : nat) :
  alignment <> [] ->
  Forall (fun row => length row = n) alignment ->
  exists out m,
    ungap alignment languages proto = Some out /\
    length out = length alignment /\
    Forall (fun row => length row = m) out.
Proof.
  intros N F. destruct alignment as [|row0 rows]; [contradiction|].
  assert (L0 : length row0 = n) by (inversion F; assumption).
  unfold ungap. rewrite L0.
  destruct (find_merges_spec (pidxs_of languages proto) (row0 :: rows) n (seq 0 n) F
                             (seq_below n)) as [ms [Em _]].
  rewrite Em. destruct ms as [|j ms].
  - exists (row0 :: rows), n. auto.
  - destruct (merge_rows_spec (j :: ms) n (row0 :: rows) F) as [out [Eo [F2 Fo]]].
    exists out, (fst (fst (row_shape (j :: ms) 0 n (0, false, true)))).
    split; [exact Eo|]. split; [symmetry; exact (Forall2_length F2) | exact Fo].
Qed.

Lemma set_nth_total {A : Type} (l : list A) :
  forall (i : nat) (v : A), i < length l -> exists l', set_nth l i v = Some l'.
Proof.
  induction l as [|x l IH]; intros i v Hi; simpl in Hi; [lia|].
  destruct i as [|i]; simpl; [eauto|].
  destruct (IH i v) as [l' E]; [lia|]. rewrite E. simpl. eauto.
Qed.

Lemma index_of_total (x : string) (l : list string) :
  In x l -> exists k, index_of x l = Some k /\ k < length l.
Proof.
  intros HIn. destruct (index_of x l) as [k|] eqn:E.
  - exists k. split; [reflexivity|]. apply index_of_spec in E.
    apply nth_error_Some. congruence.
  - apply index_of_None in E. contradiction.
Qed.

Lemma fill_row_total (alms : list (list string)) (all_languages : list string)
  (i m : nat) (langs : list (nat * string)) :
  Forall (fun row => length row = m) alms -> i < m ->
  (forall j lng, In (j, lng) langs -> j < length alms /\ In lng all_languages) ->
  forall row, length row = length all_languages ->
              exists row', fill_row alms all_languages i langs row = Some row' /\
                           length row' = length all_languages.
Proof.
  intros F Hi. induction langs as [|[j lng] langs IH]; intros Hl row L; simpl.
  - eauto.
  - destruct (Hl j lng (or_introl eq_refl)) as [Hj HIn].
    destruct (index_of_total lng all_languages HIn) as [k [Ek Hk]]. rewrite Ek.
    cbn [obind].
    destruct (nth_error alms j) as [alm|] eqn:Ea.
    2:{ apply nth_error_None in Ea. lia. }
    cbn [obind].
    assert (La : length alm = m).
    { apply nth_error_In in Ea. now apply (proj1 (Forall_forall _ _) F). }
    destruct (nth_error alm i) as [site|] eqn:Es.
    2:{ apply nth_error_None in Es. lia. }
    cbn [obind].
    destruct (set_nth_total row k site) as [row1 E1]; [lia|]. rewrite E1. cbn [obind].
    apply IH.
    + intros j' lng' Hin. apply Hl. now right.
    + apply set_nth_spec in E1. destruct E1 as [L1 _]. congruence.
Qed.

Lemma fill_rows_total (alms : list (list string)) (languages all_languages : list string)
  (missing : string) (m : nat) (rows : list nat) :
  Forall (fun row => length row = m) alms ->
  length languages <= length alms -> incl languages all_languages ->
  Forall (fun i => i < m) rows ->
  exists matrix,
    fill_rows alms languages all_languages missing rows = Some matrix /\
    Forall (fun row => length row = length all_languages) matrix.
Proof.
  intros F Hlen Hincl. induction 1 as [|i rows Hi _ IH]; simpl.
  - eauto.
  - destruct (fill_row_total alms all_languages i m (enumerate languages) F Hi)
      with (row := map (fun _ : string => missing) all_languages) as [row [Er Lr]].
    + intros j lng Hin. apply enumerate_from_nth in Hin. rewrite Nat.sub_0_r in Hin.
      destruct Hin as [_ Hin]. split.
      * assert (j < length languages) by (apply nth_error_Some; congruence). lia.
      * apply Hincl. now apply nth_error_In in Hin.
    + now rewrite length_map.
    + rewrite Er. cbn [obind]. destruct IH as [matrix [Em Fm]]. rewrite Em. cbn [obind].
      eauto.
Qed.

(** [simple_align] returns on every instance whose sequences are as many
    as its languages, all of them languages of the data set. *)
Lemma simple_align_total (align_seqs : aligner) (seqs : list (list string))
  (languages all_languages : list string) (training : bool) (missing gap : string) :
  aligns_to_rows align_seqs ->
  languages <> [] -> length seqs = length languages -> incl languages all_languages ->
  exists matrix,
    simple_align align_seqs seqs languages all_languages training missing gap
    = Some matrix /\
    Forall (fun row => length row = length all_languages) matrix.
Proof.
  intros Hal NE Hlen Hincl. unfold simple_align.
  set (seqs' := map (filter (fun s => negb (String.eqb s gap))) seqs).
  assert (NS : seqs' <> []).
  { intros C. apply (f_equal (@length _)) in C. unfold seqs' in C.
    rewrite length_map, Hlen in C. destruct languages; [contradiction | discriminate]. }
  destruct (Hal seqs' NS) as [La [n Fa]].
  assert (La' : length (align_seqs seqs') = length languages).
  { rewrite La. unfold seqs'. now rewrite length_map. }
  assert (Stage : exists out m,
             (if training
              then proto <- last_opt languages ;; ungap (align_seqs seqs') languages proto
              else Some (align_seqs seqs')) = Some out /\
             length out = length languages /\
             Forall (fun row => length row = m) out).
  { destruct training.
    - destruct (last_opt_total languages NE) as [proto Ep]. rewrite Ep. cbn [obind].
      destruct (ungap_shape (align_seqs seqs') languages proto n) as [out [m [Eo [Lo Fo]]]].
      + intros C. rewrite C in La'. destruct languages; [contradiction | discriminate].
      + exact Fa.
      + exists out, m. split; [exact Eo|]. split; [congruence | exact Fo].
    - exists (align_seqs seqs'), n. auto. }
  destruct Stage as [out [m [Eo [Lo Fo]]]]. rewrite Eo. cbn [obind].
  destruct out as [|row0 out'].
  { destruct languages; [contradiction | discriminate]. }
  cbn [hd_error obind].
  assert (L0 : length row0 = m) by (inversion Fo; assumption). rewrite L0.
  apply (fill_rows_total _ _ _ _ m); [exact Fo | lia | exact Hincl | apply seq_below].
Qed.

Section DictKeys.
Context {K V : Type} `{KeySpec K}.

Lemma In_dset_key (d : list (K * V)) (k k' : K) (v v' : V) :
  In (k', v') (dset d k v) -> (k' = k /\ v' = v) \/ In (k', v') d.
Proof.
  induction d as [|[k0 v0] d IH]; simpl.
  - intros [E|[]]. injection E as <- <-. now left.
  - destruct (key_eqb k k0) eqn:Ek; simpl.
    + apply key_eqb_eq in Ek. subst k0.
      intros [E|HIn]; [injection E as <- <-; now left | right; now right].
    + intros [E|HIn]; [right; now left|]. destruct (IH HIn); [now left | right; now right].
Qed.

Lemma keys_dset_present (d : list (K * V)) (k : K) (v : V) :
  In k (map fst d) -> map fst (dset d k v) = map fst d.
Proof. intros HIn. rewrite keys_dset. apply mem_In in HIn. now rewrite HIn. Qed.

Lemma dget_or_entries (d : list (K * V)) (k : K) (v : V) (dflt : V) :
  dget_or d k dflt = dflt \/ In (k, dget_or d k dflt) d.
Proof.
  unfold dget_or. destruct (dget d k) as [v0|] eqn:E; [|now left].
  right. now apply dget_Some_In.
Qed.

End DictKeys.

Lemma add_row_wf (width : nat) (language cogid : string) (st st' : fit_state)
  (irow : nat * list string) :
  add_row width language cogid st irow = Some st' ->
  length (snd irow) = width ->
  In language (map fst (fst st)) ->
  patterns_wf width st ->
  map fst (fst st') = map fst (fst st) /\ patterns_wf width st'.
Proof.
  unfold add_row. intros E L HIn WF.
  destruct (last_opt (snd irow)) as [target|] eqn:Et; [|discriminate]. cbn [obind] in E.
  destruct (dget (fst st) language) as [mine|] eqn:Em; [|discriminate]. cbn [obind] in E.
  injection E as <-. cbn [fst snd]. split; [now apply keys_dset_present|].
  set (ptn := firstn (width - 1) (snd irow)).
  set (sounds' := set_add (fold_left set_add ptn (snd st)) target).
  assert (Mono : forall s, In s (snd st) -> In s sounds').
  { intros s Hs. apply set_add_In. right. apply fold_set_add_In. now left. }
  assert (Hptn : Forall (fun s => In s sounds') ptn).
  { apply Forall_forall. intros s Hs. apply set_add_In. right.
    apply fold_set_add_In. now right. }
  assert (Ht : In target sounds') by (apply set_add_In; now left).
  assert (Lp : length ptn = width - 1).
  { unfold ptn. rewrite length_firstn. lia. }
  assert (Old : forall l occ p bt, In (l, occ) (fst st) -> In (p, bt) occ ->
                                   length p = width - 1 /\
                                   Forall (fun s => In s sounds') p /\
                                   forall t vals, In (t, vals) bt -> In t sounds').
  { intros l occ p bt Hl Hp. destruct (WF l occ p bt Hl Hp) as [Lp' [Fp Hbt]].
    split; [exact Lp'|]. split.
    - eapply Forall_impl; [|exact Fp]. exact Mono.
    - intros t vals Hin. apply Mono. now apply (Hbt t vals). }
  intros l occ p bt Hl Hp. cbn [fst snd] in *.
  apply In_dset_key in Hl. destruct Hl as [[-> ->]|Hl]; [|now apply (Old l occ p bt)].
  apply In_dset_key in Hp. destruct Hp as [[-> ->]|Hp].
  - split; [exact Lp|]. split; [exact Hptn|].
    intros t vals Hin. apply In_dset_key in Hin. destruct Hin as [[-> _]|Hin]; [exact Ht|].
    destruct (dget_or_entries mine ptn [] []) as [E0|Hin'].
    + rewrite E0 in Hin. contradiction.
    + apply dget_Some_In in Em.
      destruct (Old language mine ptn _ Em Hin') as [_ [_ Hbt]]. now apply (Hbt t vals).
  - apply dget_Some_In in Em. now apply (Old language mine p bt).
Qed.

Lemma add_rows_wf (width : nat) (language cogid : string)
  (rows : list (nat * list string)) :
  0 < width ->
  Forall (fun irow => length (snd irow) = width) rows ->
  forall st,
    In language (map fst (fst st)) -> patterns_wf width st ->
    exists st', add_rows width language cogid rows st = Some st' /\
                map fst (fst st') = map fst (fst st) /\ patterns_wf width st'.
Proof.
  intros Hw. induction 1 as [|irow rows L _ IH]; intros st HIn WF; simpl.
  - eauto.
  - assert (E : exists st1, add_row width language cogid st irow = Some st1).
    { unfold add_row. destruct (last_opt_total (snd irow)) as [t Et].
      { intros C. rewrite C in L. simpl in L. lia. }
      rewrite Et. cbn [obind]. destruct (dget_In_keys _ _ HIn) as [mine Em].
      rewrite Em. cbn [obind]. eauto. }
    destruct E as [st1 E1]. rewrite E1. cbn [obind].
    destruct (add_row_wf _ _ _ _ _ _ E1 L HIn WF) as [K1 WF1].
    destruct (IH st1) as [st' [E' [K' WF']]]; [now rewrite K1 | exact WF1|].
    exists st'. split; [exact E'|]. split; [congruence | exact WF'].
Qed.

Lemma Forall_enumerate_from {A : Type} (P : A -> Prop) (l : list A) :
  Forall P l -> forall s, Forall (fun p => P (snd p)) (enumerate_from s l).
Proof. induction 1; intros s; simpl; constructor; auto. Qed.

Lemma add_language_wf (align_seqs : aligner) (all_languages : list string)
  (language : string) (insts : list instance) :
  aligns_to_rows align_seqs ->
  Forall (instance_ok all_languages) insts ->
  forall st,
    In language (map fst (fst st)) -> patterns_wf (length all_languages) st ->
    exists st', add_language align_seqs all_languages language insts st = Some st' /\
                map fst (fst st') = map fst (fst st) /\
                patterns_wf (length all_languages) st'.
Proof.
  intros Hal. induction 1 as [|[[cogid languages] alms] insts [NE [Hlen Hincl]] _ IH];
    intros st HIn WF; simpl.
  - eauto.
  - cbn [fst snd] in *.
    destruct (simple_align_total align_seqs alms languages all_languages true
                                 default_missing default_gap Hal NE Hlen Hincl)
      as [matrix [Em Fm]].
    rewrite Em. cbn [obind].
    assert (Hw : 0 < length all_languages).
    { destruct languages as [|l0 ls]; [contradiction|].
      assert (In l0 all_languages) by (apply Hincl; now left).
      destruct all_languages; [contradiction | simpl; lia]. }
    destruct (add_rows_wf (length all_languages) language cogid (enumerate matrix) Hw)
      with (st := st) as [st1 [E1 [K1 WF1]]]; try assumption.
    { unfold enumerate.
      exact (Forall_enumerate_from (fun row => length row = length all_languages)
                                   matrix Fm 0). }
    rewrite E1. cbn [obind].
    destruct (IH st1) as [st' [E' [K' WF']]]; [now rewrite K1 | exact WF1|].
    exists st'. split; [exact E'|]. split; [congruence | exact WF'].
Qed.

Lemma collect_wf (align_seqs : aligner) (b : baseline) (langs : list string) :
  aligns_to_rows align_seqs ->
  (forall L, In L langs ->
             exists insts, dget (b_alignments b) L = Some insts /\
                           Forall (instance_ok (b_languages b)) insts) ->
  forall st,
    (forall L, In L langs -> In L (map fst (fst st))) ->
    patterns_wf (length (b_languages b)) st ->
    exists st', collect align_seqs b langs st = Some st' /\
                map fst (fst st') = map fst (fst st) /\
                patterns_wf (length (b_languages b)) st'.
Proof.
  intros Hal. induction langs as [|language langs IH]; intros Hi st HK WF; simpl.
  - eauto.
  - destruct (Hi language (or_introl eq_refl)) as [insts [Ei Fi]]. rewrite Ei. cbn [obind].
    destruct (add_language_wf align_seqs (b_languages b) language insts Hal Fi st)
      as [st1 [E1 [K1 WF1]]]; [apply HK; now left | exact WF|].
    rewrite E1. cbn [obind].
    destruct (IH (fun L HL => Hi L (or_intror HL)) st1) as [st' [E' [K' WF']]].
    + intros L HL. rewrite K1. apply HK. now right.
    + exact WF1.
    + exists st'. split; [exact E'|]. split; [congruence | exact WF'].
Qed.

Lemma encode_pattern_total (sound2idx : list (string * Z)) (ptn : list string) :
  Forall (fun s => In s (map fst sound2idx)) ptn ->
  exists row,
    fold_right (fun s acc => r <- acc ;; v <- dget sound2idx s ;; Some (v :: r))
               (Some []) ptn = Some row /\
    length row = length ptn.
Proof.
  induction 1 as [|s ptn Hs _ [row [E L]]]; simpl.
  - eauto.
  - rewrite E. cbn [obind]. destruct (dget_In_keys _ _ Hs) as [v Ev]. rewrite Ev.
    cbn [obind]. exists (v :: row). split; [reflexivity | simpl; congruence].
Qed.

Lemma encode_targets_total (sound2idx : list (string * Z)) (sounds : list string) (w : nat)
  (pattern_sounds : list string * list (string * list (string * nat))) :
  (forall s, In s sounds -> In s (map fst sound2idx)) ->
  Forall (fun s => In s sounds) (fst pattern_sounds) ->
  length (fst pattern_sounds) = w ->
  forall by_target Xy,
    (forall t vals, In (t, vals) by_target -> In t sounds) ->
    training_ok w Xy -> targets_from sound2idx sounds (snd Xy) ->
    exists Xy',
      fold_left
        (fun acc (sound_vals : string * list (string * nat)) =>
           '(X, y) <- acc ;;
           target <- dget sound2idx (fst sound_vals) ;;
           row <- fold_right (fun s acc => r <- acc ;; v <- dget sound2idx s ;; Some (v :: r))
                             (Some []) (fst pattern_sounds) ;;
           Some (X ++ map (fun _ => row) (snd sound_vals),
                 y ++ map (fun _ => target) (snd sound_vals)))
        by_target (Some Xy) = Some Xy' /\
      training_ok w Xy' /\ targets_from sound2idx sounds (snd Xy').
Proof.
  intros Hs Fp Lp.
  destruct (encode_pattern_total sound2idx (fst pattern_sounds)) as [row [Er Lr]].
  { eapply Forall_impl; [|exact Fp]. exact Hs. }
  match goal with
  | |- forall by_target Xy, _ -> _ -> _ -> exists Xy', fold_left ?f _ _ = _ /\ _ =>
      set (step := f)
  end.
  induction by_target as [|[t vals] by_target IH]; intros [X y] Hk [Lxy Fx] Ty;
    cbn [fold_left].
  - exists (X, y). split; [reflexivity|]. split; [split; assumption | exact Ty].
  - pose proof (Hk t vals (or_introl eq_refl)) as Ht.
    destruct (dget_In_keys _ _ (Hs t Ht)) as [target Et].
    assert (Hstep : step (Some (X, y)) (t, vals)
                    = Some (X ++ map (fun _ => row) vals, y ++ map (fun _ => target) vals)).
    { unfold step. cbn [obind fst snd]. rewrite Et. cbn [obind]. rewrite Er. reflexivity. }
    rewrite Hstep. apply IH.
    + intros t' vals' Hin. apply (Hk t' vals'). now right.
    + split; cbn [fst snd] in *.
      * rewrite !length_app, !length_map. lia.
      * apply Forall_app. split; [exact Fx|]. apply Forall_forall.
        intros r Hr. apply in_map_iff in Hr. destruct Hr as [_ [<- _]]. congruence.
    + cbn [snd] in *. apply Forall_app. split; [exact Ty|]. apply Forall_forall.
      intros r Hr. apply in_map_iff in Hr. destruct Hr as [_ [<- _]]. eauto.
Qed.

Lemma encode_occurrences_total (sound2idx : list (string * Z)) (sounds : list string) (w : nat)
  (occ : occurrences) :
  (forall s, In s sounds -> In s (map fst sound2idx)) ->
  (forall ptn by_target,
      In (ptn, by_target) occ ->
      length ptn = w /\ Forall (fun s => In s sounds) ptn /\
      forall t vals, In (t, vals) by_target -> In t sounds) ->
  exists Xy, encode_occurrences sound2idx occ = Some Xy /\
             training_ok w Xy /\ targets_from sound2idx sounds (snd Xy).
Proof.
  unfold encode_occurrences. intros Hs Hocc.
  assert (T0 : training_ok w ([], [])) by (split; [reflexivity | constructor]).
  assert (Y0 : targets_from sound2idx sounds (snd (@nil (list Z), @nil Z))) by constructor.
  revert T0 Y0. generalize (@nil (list Z), @nil Z). revert Hocc.
  induction occ as [|[ptn by_target] occ IH]; intros Hocc Xy T Y; simpl.
  - eauto.
  - destruct (Hocc ptn by_target (or_introl eq_refl)) as [Lp [Fp Hbt]].
    destruct (encode_targets_total sound2idx sounds w (ptn, by_target) Hs Fp Lp
                                   by_target Xy Hbt T Y)
      as [Xy1 [E1 [T1 Y1]]].
    cbn [fst snd] in *. rewrite E1. apply IH; [|exact T1 | exact Y1].
    intros p bt Hin. apply Hocc. now right.
Qed.

Lemma fit_classifiers_other (H : CliqueEnumeration) (sound2idx : list (string * Z))
  (patterns : list (string * occurrences)) (langs : list string) :
  forall st st',
    fit_classifiers sound2idx patterns langs st = Some st' ->
    forall L, ~ In L langs ->
              dget (fst st') L = dget (fst st) L /\ dget (snd st') L = dget (snd st) L.
Proof.
  induction langs as [|language langs IH]; intros st st' E L NI; simpl in E.
  - injection E as <-. auto.
  - destruct (dget patterns language) as [occ|]; [|discriminate]. cbn [obind] in E.
    destruct (encode_occurrences sound2idx occ) as [[X y]|]; [|discriminate].
    cbn [obind] in E.
    destruct (dget (fst st) language) as [[X0 y0]|]; [|discriminate]. cbn [obind] in E.
    destruct (dget (snd st) language) as [c|]; [|discriminate]. cbn [obind] in E.
    destruct (fit c (X0 ++ X) (y0 ++ y)) as [c'|]; [|discriminate]. cbn [obind] in E.
    destruct (IH _ _ E L) as [E1 E2]; [intros C; apply NI; now right|].
    cbn [fst snd] in *. rewrite E1, E2.
    rewrite !dget_dset_other by (intros ->; apply NI; now left). auto.
Qed.

Lemma fit_classifiers_total (H : CliqueEnumeration) (HL : CliqueEnumerationLaws)
  (sound2idx : list (string * Z)) (patterns : list (string * occurrences))
  (threshold : Z) (w : nat) (Y : list Z -> Prop) (langs : list string) :
  NoDup langs ->
  (forall L, In L langs ->
             exists occ, dget patterns L = Some occ /\
                         exists Xy, encode_occurrences sound2idx occ = Some Xy /\
                                    training_ok w Xy /\ Y (snd Xy)) ->
  forall st,
    (forall L, In L langs -> dget (fst st) L = Some ([], []) /\
                             dget (snd st) L = Some (new_classifier threshold)) ->
    exists st',
      fit_classifiers sound2idx patterns langs st = Some st' /\
      forall L, In L langs ->
                exists X y c,
                  dget (fst st') L = Some (X, y) /\ training_ok w (X, y) /\ Y y /\
                  dget (snd st') L = Some c /\
                  fit (new_classifier threshold) X y = Some c.
Proof.
  induction 1 as [|language langs NI ND IH]; intros Hocc st Hst; simpl.
  - exists st. split; [reflexivity | intros L []].
  - destruct (Hocc language (or_introl eq_refl)) as [occ [Eo [[X y] [Ee [T Ty]]]]].
    rewrite Eo. cbn [obind]. rewrite Ee. cbn [obind].
    destruct (Hst language (or_introl eq_refl)) as [E1 E2]. rewrite E1. cbn [obind].
    rewrite E2. cbn [obind app].
    destruct T as [Lxy Fx]. cbn [fst snd] in *.
    destruct (fit_runs H HL threshold X y w Lxy Fx)
      as [P [rules [lk [direct [final [_ [_ [_ [_ [_ [_ Efit]]]]]]]]]]].
    rewrite Efit. cbn [obind].
    match goal with
    | |- exists st', fit_classifiers _ _ _ ?st1 = _ /\ _ =>
        destruct (IH (fun L HL' => Hocc L (or_intror HL')) st1) as [st' [E' Hst']]
    end.
    { intros L HL'. cbn [fst snd].
      rewrite !dget_dset_other by (intros ->; contradiction).
      apply Hst. now right. }
    exists st'. split; [exact E'|]. intros L [<-|HL']; [|now apply Hst'].
    destruct (fit_classifiers_other H _ _ _ _ _ E' language NI) as [K1 K2].
    cbn [fst snd] in K1, K2. rewrite dget_dset_same in K1. rewrite dget_dset_same in K2.
    exists X, y. eexists. split; [exact K1|]. split; [split; assumption|].
    split; [exact Ty|]. split; [exact K2 | exact Efit].
Qed.

Lemma instances_of_ok (languages : list string) (data : cognate_table) (L : string) :
  In L languages -> Forall (instance_ok languages) (instances_of languages data L).
Proof.
  intros HL. apply Forall_forall. intros inst Hin. unfold instances_of in Hin.
  apply in_flat_map in Hin. destruct Hin as [row [_ Hin]].
  destruct (attested (snd row) L); [|contradiction]. destruct Hin as [<-|[]].
  unfold instance_ok, leave_one_out. cbn [fst snd]. split; [|split].
  - intros C. apply app_eq_nil in C. destruct C as [_ C]. discriminate.
  - now rewrite length_map.
  - intros l Hl. apply in_app_iff in Hl. destruct Hl as [Hl|[<-|[]]]; [|exact HL].
    apply filter_In in Hl. destruct Hl as [Hl _]. apply filter_In in Hl. tauto.
Qed.

Lemma pad_alignment_rows : aligns_to_rows pad_alignment.
Proof.
  intros seqs _. unfold pad_alignment. split; [now rewrite length_map|].
  exists (fold_right Nat.max 0 (map (@length string) seqs)).
  apply Forall_forall. intros row Hr. apply in_map_iff in Hr.
  destruct Hr as [seq0 [<- Hs]]. rewrite length_app, repeat_length.
  assert (Hle : length seq0 <= fold_right Nat.max 0 (map (@length string) seqs)).
  { clear -Hs. induction seqs as [|s seqs IH]; [contradiction|]. simpl.
    destruct Hs as [->|Hs]; [lia|]. specialize (IH Hs). lia. }
  lia.
Qed.

Lemma keys_initial {V : Type} (v : V) (languages : list string) (L : string) :
  In L languages -> In L (map fst (dict_of (map (fun l => (l, v)) languages))).
Proof.
  intros HIn. pose proof (dget_initial v languages L HIn) as Ed.
  apply dget_Some_In in Ed. apply in_map_iff. exists (L, v). auto.
Qed.

(** [Baseline.fit] after [Baseline.__init__], step by step. *)
Lemma baseline_fit_structure (H : CliqueEnumeration) (HL : CliqueEnumerationLaws)
  (align_seqs : aligner) (languages : list string) (data : cognate_table)
  (missing gap : string) (threshold : Z) (b : baseline) :
  aligns_to_rows align_seqs ->
  NoDup languages ->
  baseline_init languages data missing gap threshold = Some b ->
  exists f : fitted,
    baseline_fit align_seqs b = Some f /\
    b_languages (f_base f) = languages /\
    NoDup (f_sounds f) /\
    f_sound2idx f = make_sound2idx (f_sounds f) gap missing /\
    f_idx2sound f = make_idx2sound (f_sound2idx f) /\
    forall L, In L languages ->
              exists X y c,
                dget (f_training f) L = Some (X, y) /\
                training_ok (length languages - 1) (X, y) /\
                targets_from (f_sound2idx f) (f_sounds f) y /\
                dget (f_classifiers f) L = Some c /\
                fit (new_classifier threshold) X y = Some c.
Proof.
  intros Hal ND E.
  unfold baseline_init in E.
  destruct (init_rows languages data
                      (dict_of (map (fun l => (l, [])) languages), [])) as [st0|] eqn:Ei;
    [|discriminate].
  cbn [obind] in E. injection E as <-.
  unfold baseline_fit. cbn [b_languages b_gap b_missing b_classifiers].
  set (b := mk_baseline languages data gap missing
                        (dict_of (map (fun l => (l, new_classifier threshold)) languages))
                        (fst st0) (snd st0)).
  destruct (collect_wf align_seqs b languages Hal) with
    (st := (dict_of (map (fun l : string => (l, @nil (list string * list (string * list (string * nat))))) languages), @nil string))
    as [[pats sounds] [Ec [Kc WF]]].
  - intros L HLin. exists (instances_of languages data L). split.
    + unfold b. cbn [b_alignments].
      rewrite (init_rows_alignments languages ND _ _ _ Ei L HLin). cbn [fst].
      now rewrite (dget_initial [] languages L HLin).
    + now apply instances_of_ok.
  - intros L HLin. cbn [fst]. now apply keys_initial.
  - intros l occ p bt Hl Hp. cbn [fst] in Hl.
    assert (Hocc : occ = []).
    { assert (ND0 : NoDup (map fst (map (fun l0 : string => (l0, @nil (list string * list (string * list (string * nat))))) languages))).
      { rewrite map_map. simpl. now rewrite map_id. }
      rewrite (dict_of_NoDup _ ND0) in Hl. apply in_map_iff in Hl.
      destruct Hl as [l0 [E0 _]]. congruence. }
    subst occ. contradiction.
  - cbn [b_languages] in Ec, WF. fold b. rewrite Ec.
    assert (NDs : NoDup sounds).
    { apply (collect_NoDup _ _ _ _ _ Ec). constructor. }
    set (sound2idx := make_sound2idx sounds gap missing).
    assert (Hs : forall s, In s sounds -> In s (map fst sound2idx)).
    { intros s Hin. apply sound2idx_keys; [exact NDs | auto]. }
    destruct (fit_classifiers_total H HL sound2idx pats threshold (length languages - 1)
                                    (targets_from sound2idx sounds) languages ND)
      with (st := (dict_of (map (fun l : string => (l, (@nil (list Z), @nil Z))) languages),
                   dict_of (map (fun l => (l, new_classifier threshold)) languages)))
      as [st' [Ef Hst']].
    + intros L HLin.
      assert (HK : In L (map fst pats)).
      { cbn [fst] in Kc. rewrite Kc. now apply keys_initial. }
      destruct (dget_In_keys _ _ HK) as [occ Eo]. exists occ. split; [exact Eo|].
      apply (encode_occurrences_total sound2idx sounds); [exact Hs|]. intros p bt Hp.
      apply dget_Some_In in Eo.
      exact (WF L occ p bt Eo Hp).
    + intros L HLin. cbn [fst snd].
      split; now apply dget_initial.
    + cbn [obind]. fold sound2idx. rewrite Ef. cbn [obind]. eexists. split; [reflexivity|].
      cbn [f_training f_classifiers f_base f_sounds f_sound2idx f_idx2sound b_languages].
      split; [reflexivity|]. split; [exact NDs|]. split; [reflexivity|].
      split; [reflexivity|]. exact Hst'.
Qed.

(** X17: On a table that [Baseline.__init__] accepted, with no language listed
    twice and an alignment primitive that returns one row per sequence,
    all of one length, [Baseline.fit] always returns: every language of
    the data set gets a training matrix with one target per row and one
    cell per other language, and its classifier is the one fitted on that
    matrix. *)
Theorem baseline_fit_runs :
  forall (H : CliqueEnumeration) (HL : CliqueEnumerationLaws) (align_seqs : aligner)
         (languages : list string) (data : cognate_table) (missing gap : string)
         (threshold : Z) (b : baseline),
    aligns_to_rows align_seqs ->
    NoDup languages ->
    baseline_init languages data missing gap threshold = Some b ->
    exists f : fitted,
      baseline_fit align_seqs b = Some f /\
      forall L, In L languages ->
                exists X y c,
                  dget (f_training f) L = Some (X, y) /\
                  length X = length y /\
                  Forall (fun row => length row = length languages - 1) X /\
                  dget (f_classifiers f) L = Some c /\
                  fit (new_classifier threshold) X y = Some c.
Proof.
  intros H HL align_seqs languages data missing gap threshold b Hal ND E.
  destruct (baseline_fit_structure H HL align_seqs languages data missing gap threshold b
                                   Hal ND E) as [f [Ef [_ [_ [_ [_ Hf]]]]]].
  exists f. split; [exact Ef|]. intros L HLin.
  destruct (Hf L HLin) as [X [y [c [E1 [[T1 T2] [_ [E2 E3]]]]]]].
  exists X, y, c. auto.
Qed.

Lemma baseline_fit_runs_witness :
  aligns_to_rows pad_alignment /\
  NoDup ["A"; "B"; "C"] /\
  exists b : baseline,
    baseline_init ["A"; "B"; "C"]
                  (load_table ["A"; "B"; "C"]
                              [("1", [["a"]; ["b"; "c"]; ["?"]]);
                               ("2", [["d"]; []; ["e"]])])
                  "Ø" "-" 1 = Some b /\
    exists f : fitted,
      @baseline_fit exhaustive_cliques pad_alignment b = Some f /\
      forall L, In L ["A"; "B"; "C"] ->
                exists X y c,
                  dget (f_training f) L = Some (X, y) /\
                  length X = length y /\
                  Forall (fun row => length row = length ["A"; "B"; "C"] - 1) X /\
                  dget (f_classifiers f) L = Some c /\
                  @fit exhaustive_cliques (new_classifier 1) X y = Some c.
Proof.
  assert (ND : NoDup ["A"; "B"; "C"]).
  { repeat constructor; simpl; intuition discriminate. }
  split; [exact pad_alignment_rows|]. split; [exact ND|].
  eexists.
  match goal with
  | |- ?run /\ _ => assert (E : run) by (vm_compute; reflexivity)
  end.
  split; [exact E|].
  exact (baseline_fit_runs exhaustive_cliques exhaustive_cliques_laws pad_alignment
                           _ _ _ _ _ _ pad_alignment_rows ND E).
Defined.

(** ** [Baseline.predict] *)

Lemma decode_encoded (sounds : list string) (gap missing unknown s : string) (t : Z) :
  NoDup sounds ->
  dget (make_sound2idx sounds gap missing) s = Some t ->
  decode (make_idx2sound (make_sound2idx sounds gap missing)) unknown t = s.
Proof.
  intros ND Ev.
  pose proof (sound2idx_NoDup_values sounds gap missing ND) as NV.
  rewrite (idx2sound_eq sounds gap missing ND).
  set (s2i := make_sound2idx sounds gap missing) in *.
  assert (NK' : NoDup (map fst (map (fun kv : string * Z => (snd kv, fst kv)) s2i))).
  { rewrite map_map. exact NV. }
  unfold decode, dget_or. apply dget_Some_In in Ev.
  rewrite (In_dget _ t s NK'); [reflexivity|].
  apply in_map_iff. exists (s, t). auto.
Qed.

Lemma simple_align_rows (align_seqs : aligner) (seqs : list (list string))
  (languages all_languages : list string) (missing gap : string)
  (matrix : list (list string)) :
  simple_align align_seqs seqs languages all_languages false missing gap = Some matrix ->
  length matrix
  = length (hd [] (align_seqs (map (filter (fun s => negb (String.eqb s gap))) seqs))).
Proof.
  unfold simple_align. cbn [obind]. intros E.
  destruct (align_seqs (map (filter (fun s => negb (String.eqb s gap))) seqs))
    as [|row0 alms]; [discriminate|].
  cbn [hd_error obind hd] in *. apply fill_rows_spec in E.
  rewrite <- (Forall2_length E). now rewrite length_seq.
Qed.

Lemma answers_in_impl (V V' : Z -> Prop) (c : classifier) :
  (forall t, V t -> V' t) -> answers_in V c -> answers_in V' c.
Proof. intros Sub [WF HV]. split; [exact WF|]. intros k t Hd. apply Sub. eauto. Qed.

(** What [Baseline.fit] leaves behind can answer queries. *)
Lemma baseline_fit_ready (H : CliqueEnumeration) (HL : CliqueEnumerationLaws)
  (align_seqs : aligner) (languages : list string) (data : cognate_table)
  (missing gap : string) (threshold : Z) (b : baseline) :
  aligns_to_rows align_seqs ->
  NoDup languages ->
  baseline_init languages data missing gap threshold = Some b ->
  exists f : fitted,
    baseline_fit align_seqs b = Some f /\ fitted_ready languages missing gap f.
Proof.
  intros Hal ND Ei.
  destruct (baseline_fit_structure H HL align_seqs languages data missing gap
                                   threshold b Hal ND Ei)
    as [f [Ef [Eb [NDs [Es2i [Ei2s Hf]]]]]].
  exists f. split; [exact Ef|]. split; [exact Eb|]. split; [exact NDs|].
  split; [exact Es2i|]. split; [exact Ei2s|]. intros L HLin.
  destruct (Hf L HLin) as [X [y [c [_ [[T1 T2] [Ty [Ec Efit]]]]]]].
  cbn [fst snd] in T1, T2. exists c. split; [exact Ec|].
  apply (answers_in_impl (fun t => t = 0%Z \/ In t y)).
  - intros t [->|Hy]; [now left | right].
    exact (proj1 (Forall_forall _ _) Ty t Hy).
  - exact (fit_answers H HL threshold X y _ c T1 T2 Efit).
Qed.

(** [Baseline.predict] on a model that can answer: it returns, and the
    model can still answer. *)
Lemma baseline_predict_ready (align_seqs : aligner) (all_languages : list string)
  (missing gap : string) (f : fitted) (languages : list string)
  (alignments : list (list string)) (target unknown : string) :
  aligns_to_rows align_seqs ->
  fitted_ready all_languages missing gap f ->
  In target all_languages ->
  languages <> [] ->
  length alignments = length languages ->
  (forall l, In l languages -> In l all_languages /\ l <> target) ->
  exists out f',
    baseline_predict align_seqs f languages alignments target unknown = Some (out, f') /\
    fitted_ready all_languages missing gap f' /\
    f_sounds f' = f_sounds f /\
    length out
    = length (hd [] (align_seqs
                       (map (filter (fun s => negb (String.eqb s default_gap)))
                            alignments))) /\
    forall s, In s out -> s = missing \/ In s (f_sounds f).
Proof.
  intros Hal [Eb [NDs [Es2i [Ei2s Hf]]]] Ht NE Hlen Hl.
  destruct (Hf target Ht) as [c [Ec A]].
  unfold baseline_predict. rewrite Eb.
  destruct (simple_align_total align_seqs alignments languages
                               (filter (fun l => negb (String.eqb l target)) all_languages)
                               false default_missing default_gap Hal NE Hlen)
    as [matrix [Em _]].
  { intros l Hin. destruct (Hl l Hin) as [Hall N]. apply filter_In. split; [exact Hall|].
    destruct (String.eqb_spec l target); [contradiction | reflexivity]. }
  rewrite Em. cbn [obind]. rewrite Ec. cbn [obind].
  destruct (predict_total_values (sound_index (f_sound2idx f) (f_sounds f))
                                 (map (map (encode (f_sound2idx f))) matrix)
                                 (or_introl eq_refl) c A)
    as [out [c' [Ep [Lout [Hout A']]]]].
  rewrite Ep. cbn [obind]. eexists. eexists. split; [reflexivity|]. split; [|split; [|split]].
  - split; [exact Eb|]. cbn [f_sounds f_sound2idx f_idx2sound f_classifiers].
    split; [exact NDs|]. split; [exact Es2i|]. split; [exact Ei2s|].
    intros L HLin. destruct (String.eqb_spec target L) as [<-|N].
    + exists c'. split; [apply dget_dset_same | exact A'].
    + rewrite dget_dset_other by assumption. now apply Hf.
  - reflexivity.
  - rewrite length_map, Lout, length_map. exact (simple_align_rows _ _ _ _ _ _ _ Em).
  - intros s Hs. apply in_map_iff in Hs. destruct Hs as [t [<- Hin]].
    rewrite Ei2s, Es2i. destruct (Hout t Hin) as [->|[s [Hin' Ed]]].
    + left. apply decode_encoded; [exact NDs|].
      rewrite (make_sound2idx_eq _ _ _ NDs). apply dget_dset_same.
    + right. rewrite Es2i in Ed. now rewrite (decode_encoded _ _ _ unknown s t NDs Ed).
Qed.

(** X18: After [Baseline.fit], [Baseline.predict] returns for every query whose
    languages are languages of the data set other than the target, with
    one sequence per language: it answers one sound per column of the
    alignment, and every answer is the missing symbol or a sound observed
    in training, never the [unknown] default. *)
Theorem baseline_predict_runs :
  forall (H : CliqueEnumeration) (HL : CliqueEnumerationLaws) (align_seqs : aligner)
         (all_languages : list string) (data : cognate_table) (missing gap : string)
         (threshold : Z) (b : baseline) (f : fitted)
         (languages : list string) (alignments : list (list string))
         (target unknown : string),
    aligns_to_rows align_seqs ->
    NoDup all_languages ->
    baseline_init all_languages data missing gap threshold = Some b ->
    baseline_fit align_seqs b = Some f ->
    In target all_languages ->
    languages <> [] ->
    length alignments = length languages ->
    (forall l, In l languages -> In l all_languages /\ l <> target) ->
    exists out f',
      baseline_predict align_seqs f languages alignments target unknown = Some (out, f') /\
      length out
      = length (hd [] (align_seqs
                         (map (filter (fun s => negb (String.eqb s default_gap)))
                              alignments))) /\
      forall s, In s out -> s = missing \/ In s (f_sounds f).
Proof.
  intros H HL align_seqs all_languages data missing gap threshold b f languages
         alignments target unknown Hal ND Ei Ef Ht NE Hlen Hl.
  destruct (baseline_fit_ready H HL align_seqs all_languages data missing gap
                               threshold b Hal ND Ei) as [f0 [Ef0 R]].
  rewrite Ef in Ef0. injection Ef0 as <-.
  destruct (baseline_predict_ready align_seqs all_languages missing gap f languages
                                   alignments target unknown Hal R Ht NE Hlen Hl)
    as [out [f' [Ep [_ [_ [Lo Ho]]]]]].
  exists out, f'. auto.
Qed.

Lemma baseline_predict_runs_witness :
  exists (b : baseline) (f : fitted),
    aligns_to_rows pad_alignment /\
    NoDup ["A"; "B"; "C"] /\
    baseline_init ["A"; "B"; "C"]
                  (load_table ["A"; "B"; "C"]
                              [("1", [["a"]; ["b"; "c"]; ["d"]]);
                               ("2", [["a"]; ["b"]; ["e"]])])
                  "Ø" "-" 1 = Some b /\
    @baseline_fit exhaustive_cliques pad_alignment b = Some f /\
    In "C" ["A"; "B"; "C"] /\
    ["A"; "B"] <> [] /\
    length [["a"]; ["b"; "c"]] = length ["A"; "B"] /\
    (forall l, In l ["A"; "B"] -> In l ["A"; "B"; "C"] /\ l <> "C") /\
    exists out f',
      baseline_predict pad_alignment f ["A"; "B"] [["a"]; ["b"; "c"]] "C" "?"
      = Some (out, f') /\
      length out
      = length (hd [] (pad_alignment
                         (map (filter (fun s => negb (String.eqb s default_gap)))
                              [["a"]; ["b"; "c"]]))) /\
      forall s, In s out -> s = "Ø" \/ In s (f_sounds f).
Proof.
  assert (ND : NoDup ["A"; "B"; "C"]).
  { repeat constructor; simpl; intuition discriminate. }
  assert (Hl : forall l, In l ["A"; "B"] -> In l ["A"; "B"; "C"] /\ l <> "C").
  { simpl. intros l [<-|[<-|[]]]; split; auto; discriminate. }
  assert (Ht : In "C" ["A"; "B"; "C"]) by (simpl; auto).
  assert (NE : ["A"; "B"] <> []) by discriminate.
  eexists. eexists.
  split; [exact pad_alignment_rows|]. split; [exact ND|].
  match goal with
  | |- ?run /\ _ => assert (Ei : run) by (vm_compute; reflexivity)
  end.
  split; [exact Ei|].
  match goal with
  | |- ?run /\ _ => assert (Ef : run) by (vm_compute; reflexivity)
  end.
  split; [exact Ef|]. split; [exact Ht|]. split; [exact NE|]. split; [reflexivity|].
  split; [exact Hl|].
  exact (baseline_predict_runs exhaustive_cliques exhaustive_cliques_laws pad_alignment
                               _ _ _ _ _ _ _ ["A"; "B"] [["a"]; ["b"; "c"]] "C" "?"
                               pad_alignment_rows ND Ei Ef Ht NE eq_refl Hl).
Defined.

(** ** When [Baseline.__init__] raises *)

Lemma scan_languages_cases (data : list (string * list string)) (langs : list string) :
  forall acc,
    (exists res, scan_languages langs data acc = Some res) \/
    (scan_languages langs data acc = None /\ exists L, In L langs /\ dget data L = None).
Proof.
  induction langs as [|language langs IH]; intros [[alms languages] queries]; simpl.
  - left. eauto.
  - destruct (dget data language) as [form|] eqn:Ef; cbn [obind].
    + assert (Lift : forall acc',
                 (exists res, scan_languages langs data acc' = Some res) \/
                 (scan_languages langs data acc' = None /\
                  exists L, (language = L \/ In L langs) /\ dget data L = None)).
      { intros acc'. destruct (IH acc') as [Ok|[E [L [HL EL]]]]; [now left|].
        right. split; [exact E|]. exists L. auto. }
      destruct (nonempty form && negb (is_query form)); [apply Lift|].
      destruct (nonempty form && is_query form); apply Lift.
    + right. split; [reflexivity|]. exists language. auto.
Qed.

Lemma add_instances_total (cogid : string) (languages : list string)
  (alms : list (list string)) (todo : list (nat * string)) :
  forall alignments,
    (forall i l, In (i, l) todo -> i < length alms /\ In l (map fst alignments)) ->
    exists res, add_instances cogid languages alms todo alignments = Some res /\
                map fst res = map fst alignments.
Proof.
  induction todo as [|[i language] todo IH]; intros alignments Hok; simpl.
  - eauto.
  - destruct (Hok i language (or_introl eq_refl)) as [Hi Hl].
    destruct (dget_In_keys _ _ Hl) as [mine Em]. rewrite Em. cbn [obind].
    destruct (nth_error alms i) as [alm|] eqn:Ea.
    2:{ apply nth_error_None in Ea. lia. }
    cbn [obind].
    match goal with
    | |- exists res, add_instances _ _ _ _ ?a1 = _ /\ _ => destruct (IH a1) as [res [Er Kr]]
    end.
    + intros i' l' Hin. destruct (Hok i' l' (or_intror Hin)) as [Hi' Hl'].
      split; [exact Hi'|]. now rewrite keys_dset_present.
    + exists res. split; [exact Er|]. now rewrite Kr, keys_dset_present.
Qed.

Lemma init_rows_cases (languages : list string) :
  forall rows st,
    (forall L, In L languages -> In L (map fst (fst st))) ->
    (exists st', init_rows languages rows st = Some st') \/
    (init_rows languages rows st = None /\
     exists cogid row L, In (cogid, row) rows /\ In L languages /\ dget row L = None).
Proof.
  induction rows as [|[cogid data] rows IH]; intros st HK; simpl.
  - left. eauto.
  - destruct (scan_languages_cases data languages ([], [], []))
      as [[[[alms langs] queries] Es]|[Es [L [HL EL]]]].
    2:{ right. rewrite Es. split; [reflexivity|]. exists cogid, data, L. auto. }
    rewrite Es. cbn [obind]. apply scan_languages_spec in Es. simpl in Es.
    injection Es as -> -> ->.
    set (known := filter (attested data) languages).
    destruct (add_instances_total cogid known (map (form_of data) known)
                                  (enumerate known) (fst st)) as [alignments [Ea Ka]].
    { intros i l Hin. apply enumerate_from_nth in Hin. rewrite Nat.sub_0_r in Hin.
      destruct Hin as [_ Hin]. split.
      - rewrite length_map. apply nth_error_Some. congruence.
      - apply HK. apply nth_error_In in Hin. apply filter_In in Hin. tauto. }
    rewrite Ea. cbn [obind].
    match goal with
    | |- (exists st', init_rows _ _ ?st1 = _) \/ _ => destruct (IH st1) as [Ok|[E [c [r [L H3]]]]]
    end.
    + intros L HL. cbn [fst]. rewrite Ka. now apply HK.
    + now left.
    + right. split; [exact E|]. exists c, r, L. destruct H3 as [Hin H3]. split; [now right | exact H3].
Qed.

Lemma scan_languages_keys (data : list (string * list string)) (langs : list string) :
  forall acc res,
    scan_languages langs data acc = Some res ->
    forall L, In L langs -> dget data L <> None.
Proof.
  induction langs as [|language langs IH]; intros [[alms languages] queries] res E L HL;
    [contradiction|].
  simpl in E. destruct (dget data language) as [form|] eqn:Ef; [|discriminate].
  cbn [obind] in E. destruct HL as [<-|HL]; [congruence|].
  destruct (nonempty form && negb (is_query form)); [exact (IH _ _ E L HL)|].
  destruct (nonempty form && is_query form); exact (IH _ _ E L HL).
Qed.

Lemma init_rows_keys (languages : list string) :
  forall rows st st',
    init_rows languages rows st = Some st' ->
    forall cogid row L, In (cogid, row) rows -> In L languages -> dget row L <> None.
Proof.
  induction rows as [|[c r] rows IH]; intros st st' E cogid row L Hin HL; [contradiction|].
  simpl in E.
  destruct (scan_languages languages r ([], [], [])) as [[[alms langs] queries]|] eqn:Es;
    [|discriminate].
  cbn [obind] in E. inv_bind E. destruct Hin as [Eq|Hin].
  - injection Eq as -> ->. exact (scan_languages_keys _ _ _ _ Es L HL).
  - exact (IH _ _ E cogid row L Hin HL).
Qed.

(** X14: [Baseline.__init__] raises exactly when some cognate set has no
    entry for some language of the data set. *)
Theorem baseline_init_raises_iff :
  forall (languages : list string) (data : cognate_table) (missing gap : string)
         (threshold : Z),
    baseline_init languages data missing gap threshold = None <->
    exists cogid row L, In (cogid, row) data /\ In L languages /\ dget row L = None.
Proof.
  intros languages data missing gap threshold. unfold baseline_init.
  destruct (init_rows_cases languages data
                            (dict_of (map (fun l => (l, [])) languages), []))
    as [[st' E]|[E Hex]].
  - intros L HL. cbn [fst]. now apply keys_initial.
  - rewrite E. cbn [obind]. split; [discriminate|].
    intros [cogid [row [L [Hin [HL EL]]]]]. exfalso.
    exact (init_rows_keys languages _ _ _ E cogid row L Hin HL EL).
  - rewrite E. cbn [obind]. split; [intros _; exact Hex | reflexivity].
Qed.

(** ** [predict_words] *)

Lemma known_forms_spec (data : cognate_table) (cogid : string)
  (row : list (string * list string)) :
  dget data cogid = Some row ->
  forall langs acc,
    known_forms langs data cogid acc
    = Some (fst acc ++ map (form_of row) (filter (attested row) langs),
            snd acc ++ filter (attested row) langs).
Proof.
  intros Ed. induction langs as [|language langs IH]; intros [alms languages]; simpl.
  - now rewrite !app_nil_r.
  - rewrite Ed. cbn [obind].
    destruct (dget row language) as [form|] eqn:Ef.
    + assert (Ha : attested row language = negb (is_query form) && nonempty form).
      { unfold attested. rewrite Ef. apply andb_comm. }
      assert (Hf : form_of row language = form).
      { unfold form_of, dget_or. now rewrite Ef. }
      rewrite Ha.
      destruct (negb (is_query form) && nonempty form); rewrite IH; cbn [fst snd map];
        rewrite <- ?app_assoc, ?Hf; reflexivity.
    + assert (Ha : attested row language = false).
      { unfold attested. now rewrite Ef. }
      rewrite Ha. now rewrite IH.
Qed.

Lemma queried_not_attested (row : list (string * list string)) (L : string) :
  queried row L = true -> attested row L = false.
Proof.
  unfold queried, attested. destruct (dget row L) as [form|]; [|reflexivity].
  destruct (nonempty form); destruct (is_query form); simpl; congruence.
Qed.

Lemma predicted_dset (preds : predictions_t) (cogid target : string) (out : list string)
  (c t : string) :
  predicted (dset preds cogid (dset (dget_or preds cogid []) target out)) c t <->
  (c = cogid /\ t = target) \/ predicted preds c t.
Proof.
  unfold predicted. destruct (String.eqb_spec cogid c) as [<-|N].
  - rewrite dget_or_dset_same. destruct (String.eqb_spec target t) as [<-|Nt].
    + rewrite dget_dset_same. split; [intros _; now left | intros _; eauto].
    + rewrite dget_dset_other by assumption. split; [now right|].
      intros [[_ E]|Hp]; [congruence | exact Hp].
  - rewrite dget_or_dset_other by assumption. split; [now right|].
    intros [[E _]|Hp]; [congruence | exact Hp].
Qed.

Lemma predict_targets_spec (align_seqs : aligner) (languages : list string)
  (missing gap : string) (b : baseline) (cogid : string)
  (row : list (string * list string)) :
  aligns_to_rows align_seqs ->
  b_languages b = languages ->
  dget (b_data b) cogid = Some row ->
  forall targets st,
    fitted_ready languages missing gap (fst st) ->
    (forall t, In t targets -> In t languages /\ queried row t = true) ->
    exists st',
      predict_targets align_seqs b cogid targets st = Some st' /\
      fitted_ready languages missing gap (fst st') /\
      forall c t,
        predicted (snd st') c t <->
        (c = cogid /\ In t targets /\ exists L, In L languages /\ attested row L = true) \/
        predicted (snd st) c t.
Proof.
  intros Hal Eb Ed. induction targets as [|target targets IH]; intros st R Ht.
  - exists st. split; [reflexivity|]. split; [exact R|]. intros c t. simpl. tauto.
  - cbn [predict_targets]. rewrite (known_forms_spec _ _ _ Ed). cbn [obind fst snd app].
    rewrite Eb. set (known := filter (attested row) languages).
    assert (Hrest : forall t, In t targets -> In t languages /\ queried row t = true).
    { intros t Hin. apply Ht. now right. }
    destruct known as [|l0 known'] eqn:Ek.
    + cbn [map nonempty length Nat.eqb negb].
      destruct (IH st R Hrest) as [st' [E' [R' P']]].
      exists st'. split; [exact E'|]. split; [exact R'|]. intros c t. rewrite P'.
      assert (None : ~ exists L, In L languages /\ attested row L = true).
      { intros [L [HL HA]]. assert (Hin : In L known) by (apply filter_In; auto).
        rewrite Ek in Hin. contradiction. }
      tauto.
    + rewrite <- Ek. unfold nonempty. rewrite length_map, Ek. cbn [length Nat.eqb negb].
      rewrite <- Ek.
      destruct (Ht target (or_introl eq_refl)) as [HT HQ].
      destruct (baseline_predict_ready align_seqs languages missing gap (fst st) known
                                       (map (form_of row) known) target "?" Hal R HT)
        as [out [f' [Ep [R' _]]]].
      * rewrite Ek. discriminate.
      * now rewrite length_map.
      * intros l Hl. apply filter_In in Hl. destruct Hl as [Hl HA]. split; [exact Hl|].
        intros ->. rewrite (queried_not_attested row target HQ) in HA. discriminate.
      * rewrite Ep. cbn [obind].
        match goal with
        | |- exists st', predict_targets _ _ _ _ ?st1 = _ /\ _ =>
            destruct (IH st1 R' Hrest) as [st' [E' [R'' P']]]
        end.
        exists st'. split; [exact E'|]. split; [exact R''|]. intros c t.
        rewrite P'. cbn [snd]. rewrite predicted_dset.
        assert (Some : exists L, In L languages /\ attested row L = true).
        { exists l0. apply filter_In. fold known. rewrite Ek. now left. }
        simpl. split.
        -- intros [[-> [Hin HL]]|[[-> ->]|Hp]]; auto.
        -- intros [[-> [[<-|Hin] HL]]|Hp]; auto.
Qed.

Lemma predict_cognates_spec (align_seqs : aligner) (languages : list string)
  (missing gap : string) (b : baseline) :
  aligns_to_rows align_seqs ->
  b_languages b = languages ->
  forall items st,
    fitted_ready languages missing gap (fst st) ->
    (forall cogid targets,
        In (cogid, targets) items ->
        exists row, dget (b_data b) cogid = Some row /\
                    forall t, In t targets -> In t languages /\ queried row t = true) ->
    exists st',
      predict_cognates align_seqs b items st = Some st' /\
      fitted_ready languages missing gap (fst st') /\
      forall c t,
        predicted (snd st') c t <->
        (exists targets row,
            In (c, targets) items /\ In t targets /\ dget (b_data b) c = Some row /\
            exists L, In L languages /\ attested row L = true) \/
        predicted (snd st) c t.
Proof.
  intros Hal Eb. induction items as [|[cogid targets] items IH]; intros st R Hitems.
  - exists st. split; [reflexivity|]. split; [exact R|]. intros c t. split; [now right|].
    intros [[targets [row [[] _]]]|Hp]. exact Hp.
  - cbn [predict_cognates].
    destruct (Hitems cogid targets (or_introl eq_refl)) as [row [Ed Ht]].
    destruct (predict_targets_spec align_seqs languages missing gap b cogid row Hal Eb Ed
                                   targets st R Ht) as [st1 [E1 [R1 P1]]].
    rewrite E1. cbn [obind].
    destruct (IH st1 R1) as [st' [E' [R' P']]].
    { intros c ts Hin. apply Hitems. now right. }
    exists st'. split; [exact E'|]. split; [exact R'|]. intros c t.
    rewrite P', P1. split.
    + intros [[ts [r [Hin H3]]]|[[-> [Hin HL]]|Hp]].
      * left. exists ts, r. split; [now right | exact H3].
      * left. exists targets, row. split; [now left|]. auto.
      * now right.
    + intros [[ts [r [[Eq|Hin] [Hin' [Ed' HL]]]]]|Hp].
      * injection Eq as <- <-. right. left. rewrite Ed in Ed'. injection Ed' as <-. auto.
      * left. exists ts, r. auto.
      * right. now right.
Qed.

Lemma init_rows_to_predict_NoDup (languages : list string) :
  forall rows st st',
    init_rows languages rows st = Some st' ->
    NoDup (map fst (snd st)) -> NoDup (map fst (snd st')).
Proof.
  induction rows as [|[cogid data] rows IH]; intros st st' E ND; simpl in E.
  - now injection E as <-.
  - destruct (scan_languages languages data ([], [], [])) as [[[alms langs] queries]|];
      [|discriminate].
    cbn [obind] in E. inv_bind E. apply (IH _ _ E). cbn [snd].
    destruct (nonempty queries); [now apply NoDup_keys_dset | exact ND].
Qed.

Lemma queries_of_absent (languages : list string) (data : cognate_table) (cogid : string) :
  ~ In cogid (map fst data) -> queries_of languages data cogid = [].
Proof.
  unfold queries_of. induction data as [|[c r] data IH]; intros NI; [reflexivity|].
  cbn [flat_map fst snd]. destruct (String.eqb_spec c cogid) as [->|N].
  - exfalso. apply NI. now left.
  - apply IH. intros Hin. apply NI. now right.
Qed.

Lemma queries_of_row (languages : list string) (data : cognate_table) (cogid : string)
  (row : list (string * list string)) :
  NoDup (map fst data) -> In (cogid, row) data ->
  queries_of languages data cogid = filter (queried row) languages.
Proof.
  unfold queries_of. induction data as [|[c r] data IH]; intros ND Hin; [contradiction|].
  inversion ND as [|? ? NI ND']; subst. cbn [flat_map fst snd]. destruct Hin as [Eq|Hin].
  - injection Eq as -> ->. rewrite String.eqb_refl.
    fold (queries_of languages data cogid).
    rewrite (queries_of_absent languages data cogid NI). apply app_nil_r.
  - destruct (String.eqb_spec c cogid) as [->|N].
    + exfalso. apply NI. apply in_map_iff. exists (cogid, row). auto.
    + now apply IH.
Qed.

(** X19: On a table in which every cognate set has an entry for every language
    of the data set, with no language and no cognate set listed twice,
    [predict_words] computes its predictions without raising, and it
    predicts exactly the queried cells of the cognate sets that have an
    attested form: one prediction for each of them, and none for any other
    cell. *)
Theorem predict_words_runs :
  forall (H : CliqueEnumeration) (HL : CliqueEnumerationLaws) (align_seqs : aligner)
         (languages : list string) (data : cognate_table),
    aligns_to_rows align_seqs ->
    NoDup languages ->
    NoDup (map fst data) ->
    (forall cogid row L, In (cogid, row) data -> In L languages -> dget row L <> None) ->
    exists preds : predictions_t,
      predict_words align_seqs languages data = Some preds /\
      forall cogid target,
        predicted preds cogid target <->
        exists row,
          In (cogid, row) data /\ In target languages /\ queried row target = true /\
          exists L, In L languages /\ attested row L = true.
Proof.
  intros H HL align_seqs languages data Hal ND NDd Hfull.
  unfold predict_words.
  destruct (baseline_init languages data default_missing default_gap 1) as [b|] eqn:Ei.
  2:{ exfalso. unfold baseline_init in Ei.
      destruct (init_rows_cases languages data
                                (dict_of (map (fun l => (l, [])) languages), []))
        as [[st' E]|[_ [cogid [row [L [Hin [HLin EL]]]]]]].
      - intros L HLin. cbn [fst]. now apply keys_initial.
      - rewrite E in Ei. discriminate.
      - exact (Hfull cogid row L Hin HLin EL). }
  cbn [obind].
  destruct (baseline_fit_ready H HL align_seqs languages data default_missing default_gap
                               1 b Hal ND Ei) as [f [Ef R]].
  rewrite Ef. cbn [obind].
  unfold baseline_init in Ei.
  destruct (init_rows languages data (dict_of (map (fun l => (l, [])) languages), []))
    as [st0|] eqn:E0; [|discriminate].
  cbn [obind] in Ei. injection Ei as <-. cbn [b_to_predict] in *.
  set (b := mk_baseline languages data default_gap default_missing
                        (dict_of (map (fun l => (l, new_classifier 1)) languages))
                        (fst st0) (snd st0)) in *.
  pose proof (init_rows_to_predict languages _ _ _ E0) as Hq. cbn [snd] in Hq.
  pose proof (init_rows_to_predict_keys languages _ _ _ E0) as Hk. cbn [snd] in Hk.
  pose proof (init_rows_to_predict_NoDup languages _ _ _ E0 (NoDup_nil _)) as NDq.
  assert (Hitem : forall cogid targets,
             In (cogid, targets) (snd st0) ->
             exists row, In (cogid, row) data /\ targets = filter (queried row) languages).
  { intros cogid targets Hin.
    assert (Ht : targets = queries_of languages data cogid).
    { rewrite <- (app_nil_l (queries_of languages data cogid)).
      change (@nil string) with (dget_or (@nil (string * list string)) cogid []) at 1.
      rewrite <- Hq. unfold dget_or. now rewrite (In_dget _ _ _ NDq Hin). }
    assert (Hne : queries_of languages data cogid <> []).
    { assert (Hkey : In cogid (map fst (snd st0))).
      { apply in_map_iff. exists (cogid, targets). auto. }
      apply Hk in Hkey. destruct Hkey as [[]|Hne]. exact Hne. }
    assert (Hin' : In cogid (map fst data)).
    { destruct (in_dec string_dec cogid (map fst data)) as [Y|N]; [exact Y|].
      exfalso. apply Hne. now apply queries_of_absent. }
    apply in_map_iff in Hin'. destruct Hin' as [[c row] [Ec Hrow]]. simpl in Ec. subst c.
    exists row. split; [exact Hrow|].
    rewrite Ht. now apply queries_of_row. }
  destruct (predict_cognates_spec align_seqs languages default_missing default_gap b Hal
                                  eq_refl (snd st0) (f, []) R)
    as [st' [Ep [_ P]]].
  { intros cogid targets Hin. destruct (Hitem cogid targets Hin) as [row [Hrow ->]].
    exists row. split; [exact (In_dget _ _ _ NDd Hrow)|].
    intros t Ht. apply filter_In in Ht. exact Ht. }
  rewrite Ep. cbn [obind]. exists (snd st'). split; [reflexivity|].
  intros cogid target. rewrite P. cbn [snd b_data b]. split.
  - intros [[targets [row [Hin [Ht [Ed HLx]]]]]|[out Hp]].
    + destruct (Hitem cogid targets Hin) as [row' [Hrow ->]].
      pose proof (In_dget _ _ _ NDd Hrow) as Ed'. cbn [b_data b] in Ed.
      rewrite Ed in Ed'. injection Ed' as <-.
      apply filter_In in Ht. exists row. tauto.
    + unfold dget_or in Hp. simpl in Hp. discriminate.
  - intros [row [Hrow [HT [HQ HLx]]]]. left.
    assert (Hqs : queries_of languages data cogid = filter (queried row) languages).
    { now apply queries_of_row. }
    assert (Ht : In target (queries_of languages data cogid)).
    { rewrite Hqs. apply filter_In. auto. }
    assert (Hkey : In cogid (map fst (snd st0))).
    { apply Hk. right. intros C. rewrite C in Ht. contradiction. }
    destruct (dget_In_keys _ _ Hkey) as [targets Et].
    exists targets, row. split; [now apply dget_Some_In|].
    split; [|split; [exact (In_dget _ _ _ NDd Hrow) | exact HLx]].
    assert (E : dget_or (snd st0) cogid [] = targets).
    { unfold dget_or. now rewrite Et. }
    rewrite <- E, Hq. exact Ht.
Qed.

Lemma predict_words_runs_witness :
  aligns_to_rows pad_alignment /\
  NoDup ["A"; "B"; "C"] /\
  NoDup (map fst (load_table ["A"; "B"; "C"]
                             [("1", [["a"]; ["b"; "c"]; ["?"]]);
                              ("2", [["d"]; []; ["e"]])])) /\
  (forall cogid row L,
      In (cogid, row) (load_table ["A"; "B"; "C"]
                                  [("1", [["a"]; ["b"; "c"]; ["?"]]);
                                   ("2", [["d"]; []; ["e"]])]) ->
      In L ["A"; "B"; "C"] -> dget row L <> None) /\
  exists preds : predictions_t,
    @predict_words exhaustive_cliques pad_alignment ["A"; "B"; "C"]
                   (load_table ["A"; "B"; "C"]
                               [("1", [["a"]; ["b"; "c"]; ["?"]]);
                                ("2", [["d"]; []; ["e"]])])
    = Some preds /\
    forall cogid target,
      predicted preds cogid target <->
      exists row,
        In (cogid, row) (load_table ["A"; "B"; "C"]
                                    [("1", [["a"]; ["b"; "c"]; ["?"]]);
                                     ("2", [["d"]; []; ["e"]])]) /\
        In target ["A"; "B"; "C"] /\ queried row target = true /\
        exists L, In L ["A"; "B"; "C"] /\ attested row L = true.
Proof.
  assert (ND : NoDup ["A"; "B"; "C"]).
  { repeat constructor; simpl; intuition discriminate. }
  assert (NDd : NoDup (map fst (load_table ["A"; "B"; "C"]
                                           [("1", [["a"]; ["b"; "c"]; ["?"]]);
                                            ("2", [["d"]; []; ["e"]])]))).
  { vm_compute. repeat constructor; simpl; intuition discriminate. }
  assert (Hfull : forall cogid row L,
             In (cogid, row) (load_table ["A"; "B"; "C"]
                                         [("1", [["a"]; ["b"; "c"]; ["?"]]);
                                          ("2", [["d"]; []; ["e"]])]) ->
             In L ["A"; "B"; "C"] -> dget row L <> None).
  { intros cogid row L Hin HL. vm_compute in Hin.
    destruct Hin as [E|[E|[]]]; injection E as <- <-;
      destruct HL as [<-|[<-|[<-|[]]]]; discriminate. }
  split; [exact pad_alignment_rows|]. split; [exact ND|]. split; [exact NDd|].
  split; [exact Hfull|].
  exact (predict_words_runs exhaustive_cliques exhaustive_cliques_laws pad_alignment
                            _ _ pad_alignment_rows ND NDd Hfull).
Defined.

(** ** The alphabet and the training matrices *)

Lemma simple_align_row_length (align_seqs : aligner) (seqs : list (list string))
  (languages all_languages : list string) (training : bool) (missing gap : string)
  (matrix : list (list string)) :
  simple_align align_seqs seqs languages all_languages training missing gap = Some matrix ->
  Forall (fun row => length row = length all_languages) matrix.
Proof.
  unfold simple_align. intros E.
  match type of E with
  | obind ?stage _ = _ => destruct stage as [alms|]; [|discriminate E]
  end.
  cbn [obind] in E. destruct alms as [|row0 alms']; [discriminate E|].
  cbn [hd_error obind] in E. apply fill_rows_spec in E.
  apply Forall_forall. intros row Hrow. apply In_nth_error in Hrow.
  destruct Hrow as [i Hi].
  destruct (Forall2_nth_right _ _ _ E _ _ Hi) as [i' [_ Hfill]].
  destruct (fill_row_spec _ _ _ _ _ _ Hfill) as [L _]. now rewrite length_map in L.
Qed.

Lemma last_opt_split {A : Type} (l : list A) (x : A) :
  last_opt l = Some x -> l = firstn (length l - 1) l ++ [x].
Proof.
  induction l as [|a l IH]; intros E; [discriminate|].
  destruct l as [|b l].
  - simpl in E. injection E as ->. reflexivity.
  - change (last_opt (a :: b :: l)) with (last_opt (b :: l)) in E.
    specialize (IH E). cbn [length] in *.
    replace (S (S (length l)) - 1) with (S (length l)) by lia.
    replace (S (length l) - 1) with (length l) in IH by lia.
    cbn [firstn]. cbn [firstn] in IH. simpl. f_equal. exact IH.
Qed.

(** One row of a training matrix adds its cells, and nothing else, to the
    set of sounds. *)
Lemma add_row_sounds (width : nat) (language cogid : string) (st st' : fit_state)
  (irow : nat * list string) :
  add_row width language cogid st irow = Some st' ->
  length (snd irow) = width ->
  forall s, In s (snd st') <-> In s (snd st) \/ In s (snd irow).
Proof.
  unfold add_row. intros E L s.
  destruct (last_opt (snd irow)) as [target|] eqn:Et; [|discriminate]. cbn [obind] in E.
  destruct (dget (fst st) language) as [mine|]; [|discriminate]. cbn [obind] in E.
  injection E as <-. cbn [snd].
  rewrite set_add_In, fold_set_add_In.
  pose proof (last_opt_split _ _ Et) as Hs. rewrite L in Hs.
  assert (Hrow : In s (snd irow) <-> In s (firstn (width - 1) (snd irow)) \/ s = target).
  { rewrite Hs at 1. rewrite in_app_iff. simpl. intuition. }
  rewrite Hrow. tauto.
Qed.

Lemma add_rows_sounds (width : nat) (language cogid : string)
  (rows : list (nat * list string)) :
  Forall (fun irow => length (snd irow) = width) rows ->
  forall st st',
    add_rows width language cogid rows st = Some st' ->
    forall s, In s (snd st') <->
              In s (snd st) \/ exists irow, In irow rows /\ In s (snd irow).
Proof.
  induction 1 as [|irow rows L _ IH]; intros st st' E s; simpl in E.
  - injection E as <-. split; [now left|]. intros [Hs|[irow [[] _]]]. exact Hs.
  - destruct (add_row width language cogid st irow) as [st1|] eqn:E1; [|discriminate].
    cbn [obind] in E. rewrite (IH _ _ E s), (add_row_sounds _ _ _ _ _ _ E1 L s). split.
    + intros [[Hs|Hs]|[r [Hr Hs]]]; [now left | right | right].
      * exists irow. split; [now left | exact Hs].
      * exists r. split; [now right | exact Hs].
    + intros [Hs|[r [[<-|Hr] Hs]]]; [left; now left | left; now right | right].
      exists r. auto.
Qed.

Lemma In_enumerate_snd {A : Type} (l : list A) (x : A) :
  (exists ix, In ix (enumerate l) /\ snd ix = x) <-> In x l.
Proof.
  unfold enumerate. split.
  - intros [ix [Hin <-]]. rewrite <- (map_snd_enumerate_from l 0). now apply in_map.
  - intros Hx. rewrite <- (map_snd_enumerate_from l 0) in Hx. apply in_map_iff in Hx.
    destruct Hx as [ix [E Hin]]. exists ix. auto.
Qed.

Lemma add_language_sounds (align_seqs : aligner) (all_languages : list string)
  (language : string) (insts : list instance) :
  forall st st',
    add_language align_seqs all_languages language insts st = Some st' ->
    forall s,
      In s (snd st') <->
      In s (snd st) \/
      exists inst matrix row,
        In inst insts /\
        simple_align align_seqs (snd inst) (snd (fst inst)) all_languages true
                     default_missing default_gap = Some matrix /\
        In row matrix /\ In s row.
Proof.
  induction insts as [|[[cogid languages] alms] insts IH]; intros st st' E s; simpl in E.
  - injection E as <-. split; [now left|]. intros [Hs|[inst [m [r [[] _]]]]]. exact Hs.
  - destruct (simple_align align_seqs alms languages all_languages true
                           default_missing default_gap) as [matrix|] eqn:Em;
      [|discriminate].
    cbn [obind] in E.
    destruct (add_rows (length all_languages) language cogid (enumerate matrix) st)
      as [st1|] eqn:E1; [|discriminate].
    cbn [obind] in E. rewrite (IH _ _ E s).
    assert (F : Forall (fun irow : nat * list string =>
                          length (snd irow) = length all_languages) (enumerate matrix)).
    { unfold enumerate.
      exact (Forall_enumerate_from (fun row => length row = length all_languages) matrix
                                   (simple_align_row_length _ _ _ _ _ _ _ _ Em) 0). }
    rewrite (add_rows_sounds _ _ _ _ F _ _ E1 s). split.
    + intros [[Hs|[irow [Hin Hs]]]|[inst [m [r [Hin H3]]]]].
      * now left.
      * right. exists (cogid, languages, alms), matrix, (snd irow).
        split; [now left|]. split; [exact Em|]. split; [|exact Hs].
        apply In_enumerate_snd. eauto.
      * right. exists inst, m, r. split; [now right | exact H3].
    + intros [Hs|[inst [m [r [[<-|Hin] [Em' [Hr Hs]]]]]]].
      * left. now left.
      * cbn [fst snd] in Em'. rewrite Em in Em'. injection Em' as <-.
        left. right. apply In_enumerate_snd in Hr. destruct Hr as [ix [Hix <-]]. eauto.
      * right. exists inst, m, r. auto.
Qed.

Lemma In_training_matrices (align_seqs : aligner) (b : baseline) (language : string)
  (matrix : list (list string)) :
  In matrix (training_matrices align_seqs b language) <->
  exists inst, In inst (dget_or (b_alignments b) language []) /\
               simple_align align_seqs (snd inst) (snd (fst inst)) (b_languages b) true
                            default_missing default_gap = Some matrix.
Proof.
  unfold training_matrices. rewrite in_flat_map. split.
  - intros [inst [Hin Hm]]. exists inst. split; [exact Hin|].
    destruct (simple_align _ _ _ _ _ _ _) as [m|]; [|contradiction].
    destruct Hm as [<-|[]]. reflexivity.
  - intros [inst [Hin Em]]. exists inst. split; [exact Hin|]. rewrite Em. now left.
Qed.

Lemma collect_sounds (align_seqs : aligner) (b : baseline) (langs : list string) :
  forall st st',
    collect align_seqs b langs st = Some st' ->
    forall s,
      In s (snd st') <->
      In s (snd st) \/
      exists language matrix row,
        In language langs /\ In matrix (training_matrices align_seqs b language) /\
        In row matrix /\ In s row.
Proof.
  induction langs as [|language langs IH]; intros st st' E s; simpl in E.
  - injection E as <-. split; [now left|]. intros [Hs|[l [m [r [[] _]]]]]. exact Hs.
  - destruct (dget (b_alignments b) language) as [insts|] eqn:Ei; [|discriminate].
    cbn [obind] in E.
    destruct (add_language align_seqs (b_languages b) language insts st) as [st1|] eqn:E1;
      [|discriminate].
    cbn [obind] in E. rewrite (IH _ _ E s), (add_language_sounds _ _ _ _ _ _ E1 s).
    assert (Hm : forall matrix,
               In matrix (training_matrices align_seqs b language) <->
               exists inst, In inst insts /\
                            simple_align align_seqs (snd inst) (snd (fst inst))
                                         (b_languages b) true default_missing default_gap
                            = Some matrix).
    { intros matrix. rewrite In_training_matrices. unfold dget_or. rewrite Ei. tauto. }
    split.
    + intros [[Hs|[inst [m [r [Hin [Em H2]]]]]]|[l [m [r [Hl H3]]]]].
      * now left.
      * right. exists language, m, r. split; [now left|]. split; [|exact H2].
        apply Hm. eauto.
      * right. exists l, m, r. split; [now right | exact H3].
    + intros [Hs|[l [m [r [[<-|Hl] [Hmat H2]]]]]].
      * left. now left.
      * left. right. apply Hm in Hmat. destruct Hmat as [inst [Hin Em]].
        exists inst, m, r. auto.
      * right. exists l, m, r. auto.
Qed.

(** The set of sounds that [Baseline.fit] collects is the set of the
    cells of the training matrices. *)
Lemma baseline_fit_sounds (H : CliqueEnumeration) (align_seqs : aligner)
  (b : baseline) (f : fitted) :
  baseline_fit align_seqs b = Some f ->
  forall s, In s (f_sounds f) <-> training_symbol align_seqs b s.
Proof.
  unfold baseline_fit. intros E s.
  destruct (collect align_seqs b (b_languages b)
                    (dict_of (map (fun l => (l, [])) (b_languages b)), []))
    as [[pats sounds]|] eqn:E0; [|discriminate E].
  cbn [obind] in E. inv_bind E. injection E as <-. cbn [f_sounds].
  rewrite (collect_sounds _ _ _ _ _ E0 s). cbn [snd]. unfold training_symbol.
  split; [intros [[]|Hs]; exact Hs | now right].
Qed.

(** C5, amended: the observed symbols, which the fitted model keeps each
    once, are the cells of the training matrices; the missing sentinel has
    index 0, the gap symbol index 1, and every other observed symbol has
    index 2 plus the number of observed symbols, the gap symbol and the
    missing sentinel included when they were observed, that sort before
    it; the table depends on the set of observed symbols only, not on the
    order in which they were met. *)
Theorem sound_alphabet_indices :
  forall (H : CliqueEnumeration) (align_seqs : aligner) (b : baseline) (f : fitted),
    baseline_fit align_seqs b = Some f ->
    (forall s, In s (f_sounds f) <-> training_symbol align_seqs b s) /\
    NoDup (f_sounds f) /\
    encode (f_sound2idx f) (b_missing b) = 0%Z /\
    (b_gap b <> b_missing b -> encode (f_sound2idx f) (b_gap b) = 1%Z) /\
    (forall s, training_symbol align_seqs b s -> s <> b_gap b -> s <> b_missing b ->
               encode (f_sound2idx f) s = Z.of_nat (2 + rank_of s (f_sounds f))) /\
    (forall sounds', NoDup sounds' ->
                     (forall x, In x sounds' <-> training_symbol align_seqs b x) ->
                     make_sound2idx sounds' (b_gap b) (b_missing b) = f_sound2idx f).
Proof.
  intros H align_seqs b f E.
  pose proof (baseline_fit_sounds H align_seqs b f E) as Hs.
  destruct (baseline_fit_alphabet H align_seqs b f E) as [ND [E1 _]].
  destruct (sound2idx_indices (f_sounds f) (b_gap b) (b_missing b) ND)
    as [I0 [I1 [I2 I3]]].
  rewrite E1. split; [exact Hs|]. split; [exact ND|]. split; [exact I0|].
  split; [exact I1|]. split.
  - intros s Hts. apply I2. now apply Hs.
  - intros sounds' ND' Same. apply I3; [exact ND'|].
    intros x. rewrite Same. symmetry. apply Hs.
Qed.

Lemma sound_alphabet_indices_witness :
  exists (b : baseline) (f : fitted),
    baseline_init abc voicing_table "Ø" "-" 1 = Some b /\
    @baseline_fit exhaustive_cliques pad_alignment b = Some f /\
    (forall s, In s (f_sounds f) <-> training_symbol pad_alignment b s) /\
    NoDup (f_sounds f) /\
    encode (f_sound2idx f) (b_missing b) = 0%Z /\
    (b_gap b <> b_missing b -> encode (f_sound2idx f) (b_gap b) = 1%Z) /\
    (forall s, training_symbol pad_alignment b s -> s <> b_gap b -> s <> b_missing b ->
               encode (f_sound2idx f) s = Z.of_nat (2 + rank_of s (f_sounds f))) /\
    (forall sounds', NoDup sounds' ->
                     (forall x, In x sounds' <-> training_symbol pad_alignment b x) ->
                     make_sound2idx sounds' (b_gap b) (b_missing b) = f_sound2idx f).
Proof.
  eexists. eexists. split; [vm_compute; reflexivity|].
  match goal with
  | |- ?fit_eq /\ _ => assert (E : fit_eq) by (vm_compute; reflexivity)
  end.
  split; [exact E|].
  exact (sound_alphabet_indices exhaustive_cliques pad_alignment _ _ E).
Defined.

(** *** The tokens of the table are cells of the training matrices *)

Lemma pidxs_of_In (languages : list string) (proto : string) (i : nat) :
  In i (pidxs_of languages proto) <-> nth_error languages i = Some proto.
Proof.
  unfold pidxs_of, enumerate. rewrite in_map_iff. split.
  - intros [[k l] [E Hin]]. simpl in E. subst k. apply filter_In in Hin.
    destruct Hin as [Hin Hp]. simpl in Hp. apply String.eqb_eq in Hp. subst l.
    apply enumerate_from_nth in Hin. rewrite Nat.sub_0_r in Hin. tauto.
  - intros E. exists (i, proto). split; [reflexivity|]. apply filter_In. split.
    + apply enumerate_from_nth. rewrite Nat.sub_0_r. split; [lia | exact E].
    + simpl. apply String.eqb_refl.
Qed.

(** A row that is not the reference language's, or an alignment that has
    no other row, keeps its symbols in the merge. *)
Lemma ungap_keeps_row_symbols (alignment : list (list string)) (languages : list string)
  (proto : string) (n j : nat) (rj : list string) (s : string) :
  rectangular alignment n ->
  no_empty_cell alignment ->
  nth_error alignment j = Some rj -> In s rj -> s <> "-" ->
  (mem_nat j (pidxs_of languages proto) = false \/
   forall i, i < length alignment -> mem_nat i (pidxs_of languages proto) = true) ->
  forall out, ungap alignment languages proto = Some out ->
              exists r, nth_error out j = Some r /\ In s r.
Proof.
  intros R NE Er Hs Ns Hrole out Eo.
  destruct (ungap_cases alignment languages proto n R NE)
    as [ms [_ [Hm [[_ E]|[Nms [M0 [out' [E F2]]]]]]]].
  - rewrite E in Eo. injection Eo as <-. eauto.
  - rewrite E in Eo. injection Eo as <-. destruct Hrole as [Hp|Hall].
    + destruct (Forall2_nth_left _ _ _ F2 j rj Er) as [r [Eo Mr]].
      exists r. split; [exact Eo|].
      assert (Hg : forall k, mem_nat k ms = true -> k < length rj ->
                             nth_error rj k = Some "-").
      { intros k Hk _. apply mem_nat_true, Hm in Hk. destruct Hk as [_ [_ Hg]].
        now apply (Hg j rj). }
      rewrite merge_row_keep in Mr; [| exact M0 | exact Hg |].
      * injection Mr as <-.
        assert (Ek : filter nongap (keep_cells ms 0 rj) = filter nongap rj).
        { apply keep_cells_nongap. intros k c Hc Hk. simpl in Hk.
          assert (Hlt : k < length rj) by (apply nth_error_Some; congruence).
          specialize (Hg k Hk Hlt). congruence. }
        assert (Hf : In s (filter nongap rj)).
        { apply filter_In. split; [exact Hs|]. unfold nongap.
          destruct (String.eqb_spec s "-"); [contradiction | reflexivity]. }
        rewrite <- Ek in Hf. apply filter_In in Hf. tauto.
      * unfold no_empty_cell in NE. rewrite Forall_forall in NE. apply NE.
        eapply nth_error_In; eauto.
    + exfalso. destruct ms as [|k ms']; [now apply Nms|].
      destruct (proj1 (Hm k) (or_introl eq_refl)) as [_ [[i [row [Hp Hrow]]] _]].
      assert (Hi : i < length alignment) by (apply nth_error_Some; congruence).
      rewrite (Hall i Hi) in Hp. discriminate.
Qed.

Lemma last_opt_snoc {A : Type} (l : list A) (x : A) : last_opt (l ++ [x]) = Some x.
Proof.
  induction l as [|a l IH]; [reflexivity|]. simpl.
  destruct (l ++ [x]) eqn:E; [|exact IH]. destruct l; discriminate.
Qed.

(** With an aligner that only inserts gaps, a symbol of the sequence of a
    listed language other than the target, or of the only listed language,
    is a cell of the training matrix. *)
Lemma simple_align_keeps_tokens (align_seqs : aligner) (seqs : list (list string))
  (languages all_languages : list string) (matrix : list (list string))
  (j : nat) (L : string) (seq0 : list string) (s : string) :
  aligns_by_gaps align_seqs ->
  NoDup languages ->
  simple_align align_seqs seqs languages all_languages true default_missing default_gap
  = Some matrix ->
  length seqs = length languages ->
  (forall sq t, In sq seqs -> In t sq -> t <> "") ->
  nth_error languages j = Some L -> nth_error seqs j = Some seq0 ->
  In s seq0 -> s <> "-" ->
  (last_opt languages <> Some L \/ length languages = 1) ->
  exists row, In row matrix /\ In s row.
Proof.
  intros Hal ND E Hlen Htok Hj Hseq Hs Ns Hrole.
  unfold simple_align in E. change default_gap with "-" in E.
  change (fun s0 : string => negb (String.eqb s0 "-")) with nongap in E.
  set (seqs' := map (filter nongap) seqs) in E.
  destruct (last_opt languages) as [proto|] eqn:Ep; [|discriminate E]. cbn [obind] in E.
  destruct (ungap (align_seqs seqs') languages proto) as [out|] eqn:Eo; [|discriminate E].
  cbn [obind] in E. destruct out as [|row0 out']; [discriminate E|].
  cbn [hd_error obind] in E.
  assert (Hseq' : nth_error seqs' j = Some (filter nongap seq0)).
  { unfold seqs'. now rewrite nth_error_map, Hseq. }
  assert (NS : seqs' <> []) by (intros C; rewrite C in Hseq'; destruct j; discriminate).
  assert (GF : Forall (Forall (fun t => nongap t = true)) seqs').
  { apply Forall_forall. intros sq Hsq. unfold seqs' in Hsq. apply in_map_iff in Hsq.
    destruct Hsq as [sq0 [<- _]]. apply Forall_forall. intros t Ht.
    apply filter_In in Ht. tauto. }
  destruct (Hal seqs' NS GF) as [[n Fa] F2].
  destruct (Forall2_nth_left _ _ _ F2 j _ Hseq') as [rj [Erj Frj]].
  assert (Hsr : In s rj).
  { assert (Hf : In s (filter nongap seq0)).
    { apply filter_In. split; [exact Hs|]. unfold nongap.
      destruct (String.eqb_spec s "-"); [contradiction | reflexivity]. }
    rewrite <- Frj in Hf. apply filter_In in Hf. tauto. }
  assert (R : rectangular (align_seqs seqs') n).
  { split; [|exact Fa]. intros C. rewrite C in Erj. destruct j; discriminate. }
  assert (NE : no_empty_cell (align_seqs seqs')).
  { apply Forall_forall. intros r' Hr'. apply In_nth_error in Hr'. destruct Hr' as [k Hk].
    destruct (Forall2_nth_right _ _ _ F2 k r' Hk) as [sq' [Hsq' Fr']].
    apply Forall_forall. intros c Hc.
    destruct (String.eqb_spec c "-") as [->|Nc]; [discriminate|].
    assert (Hcf : In c (filter nongap r')).
    { apply filter_In. split; [exact Hc|]. unfold nongap.
      destruct (String.eqb_spec c "-"); [contradiction | reflexivity]. }
    rewrite Fr' in Hcf. apply nth_error_In in Hsq'. unfold seqs' in Hsq'.
    apply in_map_iff in Hsq'. destruct Hsq' as [sq0 [<- Hsq0]].
    apply filter_In in Hcf. destruct Hcf as [Hcf _]. exact (Htok sq0 c Hsq0 Hcf). }
  assert (Role : mem_nat j (pidxs_of languages proto) = false \/
                 forall i, i < length (align_seqs seqs') ->
                           mem_nat i (pidxs_of languages proto) = true).
  { destruct Hrole as [Nl|L1].
    - left. destruct (mem_nat j (pidxs_of languages proto)) eqn:M; [|reflexivity].
      apply mem_nat_true, pidxs_of_In in M. exfalso. apply Nl. congruence.
    - right. intros i Hi. rewrite <- (Forall2_length F2) in Hi. unfold seqs' in Hi.
      rewrite length_map, Hlen, L1 in Hi. assert (i = 0) as -> by lia.
      apply mem_nat_true, pidxs_of_In.
      destruct languages as [|l0 [|l1 ls]]; try discriminate.
      simpl in Ep. simpl. congruence. }
  destruct (ungap_keeps_row_symbols _ _ _ n j rj s R NE Erj Hsr Ns Role _ Eo)
    as [r [Er Hr]].
  apply In_nth_error in Hr. destruct Hr as [i Hi].
  destruct (ungap_shape (align_seqs seqs') languages proto n (proj1 R) Fa)
    as [out2 [m [Eo2 [_ Fo]]]].
  rewrite Eo in Eo2. injection Eo2 as <-.
  assert (Lr : length r = m).
  { apply nth_error_In in Er. exact (proj1 (Forall_forall _ _) Fo r Er). }
  assert (L0 : length row0 = m) by (inversion Fo; assumption).
  assert (Him : i < m) by (rewrite <- Lr; apply nth_error_Some; congruence).
  apply fill_rows_spec in E.
  assert (Hseqi : nth_error (seq 0 (length row0)) i = Some i).
  { rewrite nth_error_seq, L0. destruct (Nat.ltb_spec i m); [reflexivity | lia]. }
  destruct (Forall2_nth_left _ _ _ E i i Hseqi) as [rowi [Hrowi Hfill]].
  destruct (fill_row_spec _ _ _ _ _ _ Hfill) as [_ [Hall Hk]].
  assert (HIn : In (j, L) (enumerate languages)).
  { apply enumerate_from_nth. rewrite Nat.sub_0_r. split; [lia | exact Hj]. }
  destruct (Hall j L HIn) as [k [alm [site [Ek _]]]].
  exists rowi. split; [eapply nth_error_In; eauto|].
  destruct (Hk k) as [[_ Hno]|[j' [lng' [alm' [site' [HIn' [Ek' [Ea' [Es' Hcell]]]]]]]]].
  - exfalso. exact (Hno j L HIn Ek).
  - assert (lng' = L) as -> by exact (index_of_inj _ _ _ _ Ek' Ek).
    assert (j' = j) as -> by exact (enumerate_unique _ _ _ _ ND HIn' HIn).
    rewrite Er in Ea'. injection Ea' as <-. rewrite Hi in Es'. injection Es' as <-.
    eapply nth_error_In; eauto.
Qed.

Lemma add_language_matrices (align_seqs : aligner) (all_languages : list string)
  (language : string) (insts : list instance) :
  forall st st',
    add_language align_seqs all_languages language insts st = Some st' ->
    forall inst, In inst insts ->
                 exists matrix,
                   simple_align align_seqs (snd inst) (snd (fst inst)) all_languages true
                                default_missing default_gap = Some matrix.
Proof.
  induction insts as [|[[cogid languages] alms] insts IH]; intros st st' E inst Hin;
    [contradiction|].
  simpl in E.
  destruct (simple_align align_seqs alms languages all_languages true
                         default_missing default_gap) as [matrix|] eqn:Em; [|discriminate].
  cbn [obind] in E. inv_bind E. destruct Hin as [<-|Hin]; [eauto|].
  exact (IH _ _ E inst Hin).
Qed.

Lemma collect_matrices (align_seqs : aligner) (b : baseline) (langs : list string) :
  forall st st',
    collect align_seqs b langs st = Some st' ->
    forall language inst,
      In language langs -> In inst (dget_or (b_alignments b) language []) ->
      exists matrix,
        simple_align align_seqs (snd inst) (snd (fst inst)) (b_languages b) true
                     default_missing default_gap = Some matrix.
Proof.
  induction langs as [|l langs IH]; intros st st' E language inst Hl Hin; [contradiction|].
  simpl in E. destruct (dget (b_alignments b) l) as [insts|] eqn:Ei; [|discriminate].
  cbn [obind] in E.
  destruct (add_language align_seqs (b_languages b) l insts st) as [st1|] eqn:E1;
    [|discriminate].
  cbn [obind] in E. destruct Hl as [<-|Hl]; [|exact (IH _ _ E language inst Hl Hin)].
  unfold dget_or in Hin. rewrite Ei in Hin.
  exact (add_language_matrices _ _ _ _ _ _ E1 inst Hin).
Qed.

(** With an aligner that only inserts gaps, every token other than the
    gap symbol of every attested form of the table is a symbol of the
    training corpus: it is a cell of a training matrix. *)
Lemma corpus_tokens_are_training_symbols (H : CliqueEnumeration) (align_seqs : aligner)
  (languages : list string) (data : cognate_table) (missing gap : string)
  (threshold : Z) (b : baseline) (f : fitted)
  (cogid : string) (row : list (string * list string)) (L s : string) :
  aligns_by_gaps align_seqs ->
  NoDup languages ->
  baseline_init languages data missing gap threshold = Some b ->
  baseline_fit align_seqs b = Some f ->
  (forall c r l t, In (c, r) data -> In t (form_of r l) -> t <> "") ->
  In (cogid, row) data -> In L languages -> attested row L = true ->
  In s (form_of row L) -> s <> "-" ->
  training_symbol align_seqs b s.
Proof.
  intros Hal ND Ei Ef Htok Hrow HL HA Hs Ns.
  unfold baseline_init in Ei.
  destruct (init_rows languages data (dict_of (map (fun l => (l, [])) languages), []))
    as [st0|] eqn:E0; [|discriminate].
  cbn [obind] in Ei. injection Ei as <-.
  set (b := mk_baseline languages data gap missing
                        (dict_of (map (fun l => (l, new_classifier threshold)) languages))
                        (fst st0) (snd st0)) in *.
  assert (Hal' : forall T, In T languages ->
                           dget_or (b_alignments b) T [] = instances_of languages data T).
  { intros T HT. unfold dget_or, b. cbn [b_alignments].
    rewrite (init_rows_alignments languages ND _ _ _ E0 T HT). cbn [fst].
    now rewrite (dget_initial [] languages T HT). }
  unfold baseline_fit in Ef.
  destruct (collect align_seqs b (b_languages b)
                    (dict_of (map (fun l => (l, [])) (b_languages b)), []))
    as [[pats sounds]|] eqn:Ec; [|discriminate Ef].
  clear Ef.
  set (known := filter (attested row) languages).
  assert (HLk : In L known) by (apply filter_In; auto).
  assert (NDk : NoDup known) by (apply NoDup_filter; exact ND).
  (* the language whose instance is looked at *)
  assert (Pick : exists T, In T known /\
                           (T <> L \/ filter (fun l => negb (String.eqb l T)) known = [])).
  { destruct (find (fun l => negb (String.eqb l L)) known) as [T|] eqn:Efind.
    - apply find_some in Efind. destruct Efind as [HT NT]. exists T. split; [exact HT|].
      left. intros ->. rewrite String.eqb_refl in NT. discriminate.
    - exists L. split; [exact HLk|]. right.
      apply filter_none. intros x Hx. exact (find_none _ _ Efind x Hx). }
  destruct Pick as [T [HTk Hcase]].
  assert (HT : In T languages) by (apply filter_In in HTk; tauto).
  assert (HTa : attested row T = true) by (apply filter_In in HTk; tauto).
  set (langs := filter (fun l => negb (String.eqb l T)) known ++ [T]).
  assert (Hinst : In (cogid, langs, map (form_of row) langs)
                     (dget_or (b_alignments b) T [])).
  { rewrite (Hal' T HT). unfold instances_of. apply in_flat_map.
    exists (cogid, row). split; [exact Hrow|]. cbn [snd]. rewrite HTa. now left. }
  destruct (collect_matrices _ _ _ _ _ Ec T _ HT Hinst) as [matrix Em].
  cbn [fst snd] in Em.
  assert (NDl : NoDup langs).
  { unfold langs. apply NoDup_app; [now apply NoDup_filter | repeat constructor; auto |].
    intros x Hx [<-|[]]. apply filter_In in Hx. destruct Hx as [_ Hx].
    rewrite String.eqb_refl in Hx. discriminate. }
  assert (HLl : In L langs).
  { unfold langs. apply in_or_app. destruct (String.eqb_spec L T) as [->|N].
    - right. now left.
    - left. apply filter_In. split; [exact HLk|].
      destruct (String.eqb_spec L T); [contradiction | reflexivity]. }
  apply In_nth_error in HLl. destruct HLl as [j Hj].
  destruct (simple_align_keeps_tokens align_seqs (map (form_of row) langs) langs
                                      (b_languages b) matrix j L (form_of row L) s
                                      Hal NDl Em) as [mrow [Hmrow Hcell]].
  - now rewrite length_map.
  - intros sq t Hsq Ht. apply in_map_iff in Hsq. destruct Hsq as [l [<- _]].
    exact (Htok cogid row l t Hrow Ht).
  - exact Hj.
  - now rewrite nth_error_map, Hj.
  - exact Hs.
  - exact Ns.
  - unfold langs. rewrite last_opt_snoc. destruct Hcase as [N|Enil].
    + left. congruence.
    + right. rewrite Enil. reflexivity.
  - exists T, matrix, mrow. split; [exact HT|]. split; [|split; assumption].
    apply In_training_matrices. exists (cogid, langs, map (form_of row) langs).
    split; [exact Hinst | exact Em].
Qed.

Lemma pad_alignment_by_gaps : aligns_by_gaps pad_alignment.
Proof.
  intros seqs NS GF. split.
  - destruct (pad_alignment_rows seqs NS) as [_ Hn]. exact Hn.
  - unfold pad_alignment.
    set (width := fold_right Nat.max 0 (map (@length string) seqs)). clearbody width.
    clear NS.
    induction GF as [|sq seqs Hsq _ IH]; simpl; constructor; [|exact IH].
    rewrite filter_app.
    assert (E1 : filter nongap sq = sq).
    { apply filter_all. intros x Hx. exact (proj1 (Forall_forall _ _) Hsq x Hx). }
    assert (E2 : filter nongap (repeat "-" (width - length sq)) = []).
    { induction (width - length sq) as [|k IHk]; [reflexivity | exact IHk]. }
    rewrite E1, E2. apply app_nil_r.
Qed.

(** C8: in the fitted model, encoding then decoding a symbol of the
    training corpus, a cell of a training matrix, gives the symbol back; a
    symbol that is neither in the training corpus nor reserved encodes to
    0, the index of the missing sentinel; an index that no symbol has
    decodes to the unknown-output sentinel; the symbols that have an index
    are those of the training corpus and the two reserved ones; and with
    an aligner that only inserts gaps, every token other than the gap
    symbol of an attested form of the table is such a symbol and is given
    back. *)
Theorem alphabet_round_trip :
  forall (H : CliqueEnumeration) (align_seqs : aligner) (b : baseline) (f : fitted)
         (unknown : string),
    baseline_fit align_seqs b = Some f ->
    (forall s, training_symbol align_seqs b s ->
               decode (f_idx2sound f) unknown (encode (f_sound2idx f) s) = s) /\
    (forall s, ~ training_symbol align_seqs b s -> s <> b_gap b -> s <> b_missing b ->
               encode (f_sound2idx f) s = 0%Z) /\
    (forall i, (forall s, dget (f_sound2idx f) s <> Some i) ->
               decode (f_idx2sound f) unknown i = unknown) /\
    (forall s, In s (map fst (f_sound2idx f)) <->
               s = b_missing b \/ s = b_gap b \/ training_symbol align_seqs b s) /\
    (forall (languages : list string) (data : cognate_table) (missing gap : string)
            (threshold : Z) (cogid : string) (row : list (string * list string))
            (L s : string),
        aligns_by_gaps align_seqs ->
        NoDup languages ->
        baseline_init languages data missing gap threshold = Some b ->
        (forall c r l t, In (c, r) data -> In t (form_of r l) -> t <> "") ->
        In (cogid, row) data -> In L languages -> attested row L = true ->
        In s (form_of row L) -> s <> "-" ->
        training_symbol align_seqs b s /\
        decode (f_idx2sound f) unknown (encode (f_sound2idx f) s) = s).
Proof.
  intros H align_seqs b f unknown E.
  pose proof (baseline_fit_sounds H align_seqs b f E) as Hs.
  destruct (baseline_fit_alphabet H align_seqs b f E) as [ND [E1 E2]].
  destruct (sound2idx_round_trip (f_sounds f) (b_gap b) (b_missing b) unknown ND)
    as [R1 [R2 R3]].
  rewrite E2, E1. split; [|split; [|split; [|split]]].
  - intros s Hts. apply R1. now apply Hs.
  - intros s Hts. apply R2. intros Hin. apply Hts. now apply Hs.
  - exact R3.
  - intros s. rewrite (sound2idx_keys _ _ _ s ND), Hs. reflexivity.
  - intros languages data missing gap threshold cogid row L s Hal NDl Ei Htok Hrow HL HA
           Hin Ns.
    assert (Hts : training_symbol align_seqs b s).
    { exact (corpus_tokens_are_training_symbols H align_seqs languages data missing gap
                                                threshold b f cogid row L s Hal NDl Ei E
                                                Htok Hrow HL HA Hin Ns). }
    split; [exact Hts|]. apply R1. now apply Hs.
Qed.

Lemma alphabet_round_trip_witness :
  exists (b : baseline) (f : fitted),
    baseline_init abc voicing_table "Ø" "-" 1 = Some b /\
    @baseline_fit exhaustive_cliques pad_alignment b = Some f /\
    (forall s, training_symbol pad_alignment b s ->
               decode (f_idx2sound f) "?" (encode (f_sound2idx f) s) = s) /\
    (forall s, ~ training_symbol pad_alignment b s -> s <> b_gap b -> s <> b_missing b ->
               encode (f_sound2idx f) s = 0%Z) /\
    (forall i, (forall s, dget (f_sound2idx f) s <> Some i) ->
               decode (f_idx2sound f) "?" i = "?") /\
    (forall s, In s (map fst (f_sound2idx f)) <->
               s = b_missing b \/ s = b_gap b \/ training_symbol pad_alignment b s) /\
    (forall (languages : list string) (data : cognate_table) (missing gap : string)
            (threshold : Z) (cogid : string) (row : list (string * list string))
            (L s : string),
        aligns_by_gaps pad_alignment ->
        NoDup languages ->
        baseline_init languages data missing gap threshold = Some b ->
        (forall c r l t, In (c, r) data -> In t (form_of r l) -> t <> "") ->
        In (cogid, row) data -> In L languages -> attested row L = true ->
        In s (form_of row L) -> s <> "-" ->
        training_symbol pad_alignment b s /\
        decode (f_idx2sound f) "?" (encode (f_sound2idx f) s) = s) /\
    (* the token [p] of the first form of language [A] *)
    training_symbol pad_alignment b "p".
Proof.
  eexists. eexists.
  match goal with
  | |- ?init_eq /\ _ => assert (Ei : init_eq) by (vm_compute; reflexivity)
  end.
  split; [exact Ei|].
  match goal with
  | |- ?fit_eq /\ _ => assert (E : fit_eq) by (vm_compute; reflexivity)
  end.
  split; [exact E|].
  destruct (alphabet_round_trip exhaustive_cliques pad_alignment _ _ "?" E)
    as [R1 [R2 [R3 [R4 R5]]]].
  split; [exact R1|]. split; [exact R2|]. split; [exact R3|]. split; [exact R4|].
  split; [exact R5|].
  assert (ND : NoDup abc).
  { unfold abc. repeat constructor; simpl; intuition discriminate. }
  assert (Htok : forall c r l t, In (c, r) voicing_table -> In t (form_of r l) -> t <> "").
  { intros c r l t Hin Ht. unfold form_of, dget_or in Ht.
    destruct (dget r l) as [v|] eqn:Ed; [|contradiction]. apply dget_Some_In in Ed.
    vm_compute in Hin.
    repeat (destruct Hin as [Hin|Hin];
            [injection Hin as <- <-; simpl in Ed;
             repeat (destruct Ed as [Ed|Ed];
                     [injection Ed as <- <-; simpl in Ht;
                      repeat (destruct Ht as [<-|Ht]; [discriminate|]); contradiction|]);
             contradiction|]).
    contradiction. }
  refine (proj1 (R5 abc voicing_table "Ø" "-" 1%Z "1" _ "A" "p" pad_alignment_by_gaps ND
                    Ei Htok _ _ _ _ _)).
  - vm_compute. left. reflexivity.
  - unfold abc. now left.
  - reflexivity.
  - vm_compute. now left.
  - discriminate.
Defined.

(** ** The two rule tables of [fit] *)












(** With the three cliques of the second training set enumerated in
    another order, the entry of (2, 1, 1) is 7 whenever the clique of size
    3 comes after the clique of size 5, and 8 otherwise: the entry depends
    on the enumeration order although no two cliques have one size. *)
Example rule_size_depends_on_enumeration_order :
  map (fun cliques =>
         match @fit (fun _ => cliques) (new_classifier 1) resized_X resized_y with
         | Some c => dget (predictions c) [2; 1; 1]%Z
         | None => None
         end)
      (orders resized_cliques)
  = [Some 7; Some 7; Some 7; Some 8; Some 8; Some 8]%Z.
Proof. vm_compute. reflexivity. Qed.
